(** * NHS medicines scraper: orchestration, output store and content extraction

    A shallow embedding of [scraper.ts], [utils.ts] and [config.ts].

    JavaScript strings are modelled as [string], a character standing for
    one code unit below 256.  The character classes the code uses ([\s],
    [.], [[^a-zA-Z0-9]], letter case) are those of JavaScript on these code
    units.  Arrays are lists, [Set<string>] is [gset string], configuration
    numbers are [Z] and counters are [nat]. *)

From Stdlib Require Import ZArith Ascii.
From stdpp Require Import base list strings gmap.

Local Open Scope Z_scope.
Local Open Scope nat_scope.

(** ** Text helpers: the regular expressions of the source *)

Module Text.

(** [\s], which is also what [trim] removes: tab, line feed, vertical tab,
    form feed, carriage return, space and the no-break space U+00A0. *)
Definition is_space (c : ascii) : bool :=
  Ascii.is_space c || Ascii.eqb c "160".

(** [[a-zA-Z0-9]] *)
Definition is_alnum (c : ascii) : bool :=
  let n := nat_of_ascii c in
  ((48 <=? n) && (n <=? 57)) || ((65 <=? n) && (n <=? 90))
  || ((97 <=? n) && (n <=? 122)).

Definition is_dash (c : ascii) : bool := Ascii.eqb c "-".

(** [s.replace(/C+/g, r)]: every maximal run of characters of the class
    [p] becomes the single character [r].  [in_run] remembers that the
    previous character already belonged to the run being replaced. *)
Fixpoint replace_runs (p : ascii → bool) (r : ascii) (in_run : bool)
    (s : string) : string :=
  match s with
  | EmptyString => EmptyString
  | String c s' =>
      if p c then
        if in_run then replace_runs p r true s'
        else String r (replace_runs p r true s')
      else String c (replace_runs p r false s')
  end.

(** [s.replace(/^C+/, '')] *)
Fixpoint strip_start (p : ascii → bool) (s : string) : string :=
  match s with
  | EmptyString => EmptyString
  | String c s' => if p c then strip_start p s' else s
  end.

(** [s.replace(/C+$/, '')] *)
Fixpoint strip_end (p : ascii → bool) (s : string) : string :=
  match s with
  | EmptyString => EmptyString
  | String c s' =>
      match strip_end p s' with
      | EmptyString => if p c then EmptyString else String c EmptyString
      | r => String c r
      end
  end.

(** [s.replace(/^C+|C+$/g, '')] *)
Definition strip_both (p : ascii → bool) (s : string) : string :=
  strip_end p (strip_start p s).

(** [s.trim()] *)
Definition trim (s : string) : string := strip_both is_space s.

(** [s.replace(/\s+/g, ' ')] *)
Definition collapse_ws (s : string) : string :=
  replace_runs is_space " " false s.

(** [s.replace(/\s+/g, ' ').trim()] *)
Definition clean (s : string) : string := trim (collapse_ws s).

(** JavaScript truthiness of a string: only the empty string is falsy. *)
Definition truthy (s : string) : bool :=
  match s with EmptyString => false | String _ _ => true end.

(** [a || b] on strings. *)
Definition or_else (a b : string) : string := if truthy a then a else b.

(** [s.startsWith(pre)], returning what follows the prefix. *)
Fixpoint strip_prefix (pre s : string) : option string :=
  match pre with
  | EmptyString => Some s
  | String c pre' =>
      match s with
      | EmptyString => None
      | String d s' => if Ascii.eqb c d then strip_prefix pre' s' else None
      end
  end.

End Text.

(** ** [types.ts] *)

Record ContentSection := {
  heading : string;
  paragraphs : list string;
  bullets : list string;
}.

Record Link := { label : string; link_url : string }.

Record QuestionAnswer := { question : string; answer : string }.

Record MedicineAbout := {
  description : string;
  keyFacts : list string;
  usedFor : list string;
  about_content : list ContentSection;
  about_lastReviewed : option string;
}.

Record MedicineContentPage := {
  content : list ContentSection;
  lastReviewed : option string;
}.

Record MedicineCommonQuestions := {
  questions : list QuestionAnswer;
  questions_lastReviewed : option string;
}.

Module Medicine.
Record t := {
  name : string;
  slug : string;
  url : string;
  brandNames : list string;
  about : MedicineAbout;
  dosage : option MedicineContentPage;
  sideEffects : option MedicineContentPage;
  pregnancy : option MedicineContentPage;
  interactions : option MedicineContentPage;
  commonQuestions : option MedicineCommonQuestions;
  relatedConditions : list Link;
  usefulResources : list Link;
  scrapedAt : string;
  source : string;
}.
End Medicine.

Module MedicineTask.
Record t := { slug : string; url : string }.
End MedicineTask.

Module OutputMetadataEntry.
Record t := {
  slug : string;
  medicineName : string;
  medicineFilePath : string;
}.
End OutputMetadataEntry.

Module ScrapeSummary.
Record t := {
  total : nat;
  succeeded : nat;
  failed : nat;
  skipped : nat;
  metadataPath : string;
}.
End ScrapeSummary.

(** ** The file system and [utils.ts]

    A file holds what was last written to it.  [JSON.stringify] followed by
    [JSON.parse] is the identity on the records above, so a file is modelled
    by the value it serialises. *)

Inductive FileContent :=
  | MedicineJson (m : Medicine.t)
  | MetadataJson (items : list OutputMetadataEntry.t)
  | OtherContent (raw : string).

Abbreviation Disk := (gmap string FileContent).

(** An error object, told apart as far as the code and its libraries tell
    errors apart: [p-retry] gives up at once on a [TypeError] that is no
    network error, which is what [new URL] throws on a text that is no URL;
    [NetworkError] stands for the [TypeError]s it takes for network errors,
    [Error] for every other error. *)
Inductive exn :=
  | Error (message : string)
  | TypeError (message : string)
  | NetworkError (message : string).

(** A computation that may throw. *)
Inductive outcome (A : Type) :=
  | Ok (a : A)
  | Thrown (e : exn).
Arguments Ok {A} a.
Arguments Thrown {A} e.

(** How a write to a path fails, if it does.  [writeFile] opens the file
    with the flag [w], which creates or truncates it: a failure before the
    file is open leaves the file as it is, a failure after that leaves an
    incomplete text behind, which is no JSON document. *)
Inductive writeFault :=
  | BeforeOpen (e : exn)
  | AfterOpen (e : exn) (written : string).

Module Store.

Record OutputStore := {
  outputDir : string;
  medicinesDir : string;
  metadataPath : string;
  metadata : list OutputMetadataEntry.t;
}.

(** Paths are POSIX paths.  [path.join(dir, file)] for a normalised
    directory and a relative path without dot segments. *)
Definition path_join (dir file : string) : string := dir +:+ "/" +:+ file.

(** [path.resolve(outputDir, rel)] for a normalised absolute [outputDir] and
    a relative [rel]. *)
Definition path_resolve (dir rel : string) : string := path_join dir rel.

(** [path.relative(from, to).split(path.sep).join('/')] for [to] below
    [from]; a path outside [from] is left as it is. *)
Definition path_relative (from to : string) : string :=
  match Text.strip_prefix (from +:+ "/") to with
  | Some rel => rel
  | None => to
  end.

(** [loadMetadata]: an absent or unreadable index is the empty index, and
    an entry without a slug takes the base name of its artifact.
    [basename] stands for [path.basename(_, '.json')]. *)
Definition backfill (basename : string → string)
    (item : OutputMetadataEntry.t) : OutputMetadataEntry.t :=
  {| OutputMetadataEntry.slug :=
       Text.or_else (OutputMetadataEntry.slug item)
                    (basename (OutputMetadataEntry.medicineFilePath item));
     OutputMetadataEntry.medicineName := OutputMetadataEntry.medicineName item;
     OutputMetadataEntry.medicineFilePath :=
       OutputMetadataEntry.medicineFilePath item |}.

Definition loadMetadata (basename : string → string) (disk : Disk)
    (metadataPath : string) : list OutputMetadataEntry.t :=
  match disk !! metadataPath with
  | Some (MetadataJson items) => backfill basename <$> items
  | _ => []
  end.

(** [prepareOutputStore].  [resolve] stands for [path.resolve(_)], which
    makes the path absolute from the working directory and normalises it
    (the result is taken not to be the root directory); [mkdir_error path]
    is the error [mkdir(path, { recursive: true })] raises, if any, and a
    successful [mkdir] leaves the files as they are. *)
Definition prepareOutputStore (resolve : string → string)
    (mkdir_error : string → option exn) (basename : string → string)
    (disk : Disk) (outputDirPath : string) : outcome OutputStore :=
  let outputDir := resolve outputDirPath in
  let medicinesDir := path_join outputDir "medicines" in
  let metadataPath := path_join outputDir "metadata.json" in
  match mkdir_error medicinesDir with
  | Some e => Thrown e
  | None =>
      Ok {| outputDir := outputDir;
            medicinesDir := medicinesDir;
            metadataPath := metadataPath;
            metadata := loadMetadata basename disk metadataPath |}
  end.

(** [toMedicineFileName] *)
Definition slugify (s : string) : string :=
  Text.strip_both Text.is_dash
    (Text.replace_runs (λ c, negb (Text.is_alnum c)) "-" false s).

Definition toMedicineFileName (medicine : Medicine.t) : string :=
  Text.or_else (slugify (Medicine.name medicine)) (Medicine.slug medicine).

(** [upsertMetadata] *)
Definition upsertMetadata (metadata : list OutputMetadataEntry.t)
    (slug medicineName medicineFilePath : string)
    : list OutputMetadataEntry.t :=
  let nextEntry :=
    {| OutputMetadataEntry.slug := slug;
       OutputMetadataEntry.medicineName := medicineName;
       OutputMetadataEntry.medicineFilePath := medicineFilePath |} in
  match list_find (λ item, OutputMetadataEntry.slug item = slug) metadata with
  | Some (existingIndex, _) => <[existingIndex := nextEntry]> metadata
  | None => metadata ++ [nextEntry]
  end.

(** [writeFile]: [write_error path] is the way a write to that path fails,
    if it does; a successful write replaces the whole file.  The disk is
    returned as the call leaves it, also when it throws. *)
Definition writeFile (write_error : string → option writeFault) (disk : Disk)
    (path : string) (data : FileContent) : outcome unit * Disk :=
  match write_error path with
  | Some (BeforeOpen e) => (Thrown e, disk)
  | Some (AfterOpen e written) => (Thrown e, <[path := OtherContent written]> disk)
  | None => (Ok tt, <[path := data]> disk)
  end.

Definition artifactPath (store : OutputStore) (medicine : Medicine.t)
    : string :=
  path_join (medicinesDir store) (toMedicineFileName medicine +:+ ".json").

(** [persistMedicine]: the body handed to the single-writer queue, which
    runs one such body at a time.  The store and the disk are returned as
    they are when the body returns or throws. *)
Definition persistMedicine (write_error : string → option writeFault)
    (task : MedicineTask.t) (medicine : Medicine.t)
    (store : OutputStore) (disk : Disk)
    : outcome unit * OutputStore * Disk :=
  let medicineFilePath := artifactPath store medicine in
  match writeFile write_error disk medicineFilePath (MedicineJson medicine) with
  | (Thrown e, disk1) => (Thrown e, store, disk1)
  | (Ok _, disk1) =>
      let relativeFilePath := path_relative (outputDir store) medicineFilePath in
      let store1 :=
        {| outputDir := outputDir store;
           medicinesDir := medicinesDir store;
           metadataPath := metadataPath store;
           metadata := upsertMetadata (metadata store) (MedicineTask.slug task)
                         (Medicine.name medicine) relativeFilePath |} in
      match writeFile write_error disk1 (metadataPath store1)
              (MetadataJson (metadata store1)) with
      | (Thrown e, disk2) => (Thrown e, store1, disk2)
      | (Ok _, disk2) => (Ok tt, store1, disk2)
      end
  end.

End Store.

(** ** Landing-page title parsing *)

Module Brand.

(** The lower-case form of a character: A to Z, and the capital letters
    from U+00C0 to U+00DE, the multiplication sign U+00D7 apart. *)
Definition lower (c : ascii) : ascii :=
  let n := nat_of_ascii c in
  if ((65 <=? n) && (n <=? 90))
     || ((192 <=? n) && (n <=? 222) && negb (n =? 215))
  then ascii_of_nat (n + 32) else c.

(** [\s+] at the start of [s]: the whole run, at least one character. *)
Definition eat_spaces (s : string) : option string :=
  match s with
  | String c s' =>
      if Text.is_space c then Some (Text.strip_start Text.is_space s') else None
  | EmptyString => None
  end.

Definition eat_char (c : ascii) (s : string) : option string :=
  match s with
  | String d s' => if Ascii.eqb c d then Some s' else None
  | EmptyString => None
  end.

(** A literal matched under the [i] flag. *)
Fixpoint eat_literal_ci (lit s : string) : option string :=
  match lit with
  | EmptyString => Some s
  | String c lit' =>
      match s with
      | String d s' =>
          if Ascii.eqb (lower c) (lower d) then eat_literal_ci lit' s' else None
      | EmptyString => None
      end
  end.

(** [/\s+-\s+Other brand names:\s+/i] matched at the start of [s]; the
    result is what follows the match. *)
Definition match_other_brands (s : string) : option string :=
  s1 ← eat_spaces s;
  s2 ← eat_char "-" s1;
  s3 ← eat_spaces s2;
  s4 ← eat_literal_ci "Other brand names:" s3;
  eat_spaces s4.

(** [/,|\//] matched at the start of [s]. *)
Definition match_comma_slash (s : string) : option string :=
  match s with
  | String c s' =>
      if Ascii.eqb c "," || Ascii.eqb c "/" then Some s' else None
  | EmptyString => None
  end.

Definition cons_head (c : ascii) (parts : list string) : list string :=
  match parts with
  | p :: ps => String c p :: ps
  | [] => [String c EmptyString]
  end.

(** [s.split(re)] for a separator [re] that never matches the empty
    string: [sep s] is what follows a match of [re] at the start of [s].
    [skip] counts the characters of a match still to be dropped. *)
Fixpoint split_go (sep : string → option string) (skip : nat) (s : string)
    : list string :=
  match skip with
  | S k =>
      match s with
      | EmptyString => [EmptyString]
      | String _ s' => split_go sep k s'
      end
  | 0 =>
      match s with
      | EmptyString => [EmptyString]
      | String c s' =>
          match sep s with
          | Some rest =>
              EmptyString :: split_go sep (String.length s' - String.length rest) s'
          | None => cons_head c (split_go sep 0 s')
          end
      end
  end.

Definition split (sep : string → option string) (s : string) : list string :=
  split_go sep 0 s.

(** [.] of a regular expression without the [s] flag. *)
Definition is_dot (c : ascii) : bool :=
  negb (Ascii.eqb c "010" || Ascii.eqb c "013").

(** [(.*?)\)$] at the start of [s]: the captured group. *)
Fixpoint match_inner (s : string) : option string :=
  match s with
  | EmptyString => None
  | String c s' =>
      match s' with
      | EmptyString => if Ascii.eqb c ")" then Some EmptyString else None
      | String _ _ =>
          if is_dot c then String c <$> match_inner s' else None
      end
  end.

(** [left.match(/^(.*?)\((.*?)\)$/)]: the two captured groups.  The lazy
    first group is tried from the shortest prefix on. *)
Fixpoint bracketMatch (s : string) : option (string * string) :=
  match s with
  | EmptyString => None
  | String c s' =>
      match (if Ascii.eqb c "(" then match_inner s' else None) with
      | Some inner => Some (EmptyString, inner)
      | None =>
          if is_dot c then
            (λ m : string * string, (String c m.1, m.2)) <$> bracketMatch s'
          else None
      end
  end.

(** [[...new Set(items)]]: first occurrences, in insertion order. *)
Fixpoint dedupe (seen : gset string) (items : list string) : list string :=
  match items with
  | [] => []
  | x :: rest =>
      if decide (x ∈ seen) then dedupe seen rest
      else x :: dedupe ({[x]} ∪ seen) rest
  end.

(** [text.split(/,|\//).map((item) => item.trim()).filter(Boolean)] *)
Definition brandItems (text : string) : list string :=
  List.filter Text.truthy (Text.trim <$> split match_comma_slash text).

Definition parseBrandNames (title : string) : string * list string :=
  let cleaned := Text.clean title in
  let parts := split match_other_brands cleaned in
  let left := default cleaned (parts !! 0) in
  let right := parts !! 1 in
  let brands :=
    match right with
    | Some r => if Text.truthy r then brandItems r else []
    | None => []
    end in
  match bracketMatch left with
  | None => (left, dedupe ∅ brands)
  | Some (rawName, rawBracketBrands) =>
      (Text.trim rawName, dedupe ∅ (brands ++ brandItems rawBracketBrands))
  end.

End Brand.

(** ** Heading-delimited segmentation of a rendered document *)

Module Dom.

#[warnings="-register-all"]
Inductive node :=
  | Txt (data : string)
  | Element (tag : string) (children : list node).

Definition tagIs (names : list string) (n : node) : bool :=
  match n with
  | Txt _ => false
  | Element tag _ => bool_decide (tag ∈ names)
  end.

Definition isElement (n : node) : bool :=
  match n with Txt _ => false | Element _ _ => true end.

(** [node.textContent] *)
Fixpoint textContent (n : node) : string :=
  match n with
  | Txt data => data
  | Element _ children =>
      (fix go (cs : list node) : string :=
         match cs with
         | [] => EmptyString
         | c :: rest => textContent c +:+ go rest
         end) children
  end.

(** [node.querySelectorAll(names)]: the matching element descendants of
    [n], in document order. *)
Fixpoint querySelectorAll (names : list string) (n : node) : list node :=
  match n with
  | Txt _ => []
  | Element _ children =>
      (fix go (cs : list node) : list node :=
         match cs with
         | [] => []
         | c :: rest =>
             (if tagIs names c then [c] else [])
               ++ querySelectorAll names c ++ go rest
         end) children
  end.

(** The elements [querySelectorAll(names)] finds below [n], each with the
    chain of its [nextElementSibling]s. *)
Fixpoint withSiblings (names : list string) (n : node)
    : list (node * list node) :=
  match n with
  | Txt _ => []
  | Element _ children =>
      (fix go (cs : list node) : list (node * list node) :=
         match cs with
         | [] => []
         | c :: rest =>
             (if tagIs names c then [(c, List.filter isElement rest)] else [])
               ++ withSiblings names c ++ go rest
         end) children
  end.

(** [document.querySelector('main')] *)
Definition queryMain (document : node) : option node :=
  head ((if tagIs ["main"] document then [document] else [])
          ++ querySelectorAll ["main"] document).

Definition headingSelector : list string := ["h2"; "h3"].

Definition cleanText (n : node) : string := Text.clean (textContent n).

(** The [while] loop of a section: siblings up to the next heading. *)
Fixpoint collect (siblings : list node) (section : ContentSection)
    : ContentSection :=
  match siblings with
  | [] => section
  | n :: rest =>
      if tagIs headingSelector n then section
      else
        let s1 :=
          if tagIs ["p"] n then
            let text := cleanText n in
            if Text.truthy text then
              {| heading := heading section;
                 paragraphs := paragraphs section ++ [text];
                 bullets := bullets section |}
            else section
          else section in
        let s2 :=
          if tagIs ["ul"; "ol"] n then
            let items :=
              List.filter Text.truthy (cleanText <$> querySelectorAll ["li"] n) in
            {| heading := heading s1;
               paragraphs := paragraphs s1;
               bullets := bullets s1 ++ items |}
          else s1 in
        collect rest s2
  end.

Definition sectionOf (h : node * list node) : ContentSection :=
  collect h.2 {| heading := cleanText h.1; paragraphs := []; bullets := [] |}.

Definition extractSections (document : node) : list ContentSection :=
  match queryMain document with
  | None => []
  | Some main =>
      List.filter (λ section, 0 <? String.length (heading section))
        (sectionOf <$> withSiblings headingSelector main)
  end.

End Dom.

(** ** [config.ts] *)

Module AppConfig.
Record t := {
  parallelTabs : Z;
  headless : bool;
  navigationTimeoutMs : Z;
  retryAttempts : Z;
  retryDelayMs : Z;
  scrapeLimit : Z;
  outputDir : string;
}.
End AppConfig.

(** The proxy options of a run reach the browser only and are left out. *)
Module RunOptions.
Record t := {
  limit : option Z;
  slug : option string;
  parallelTabs : option Z;
  headless : option bool;
  hardRefresh : option bool;
}.
End RunOptions.

Module ResolvedRunOptions.
Record t := {
  targetLimit : Z;
  targetSlug : option string;
  parallelTabs : Z;
  headless : bool;
  hardRefresh : bool;
}.
End ResolvedRunOptions.

Definition resolveRunOptions (options : RunOptions.t) (appConfig : AppConfig.t)
    : ResolvedRunOptions.t :=
  {| ResolvedRunOptions.targetLimit :=
       default (AppConfig.scrapeLimit appConfig) (RunOptions.limit options);
     ResolvedRunOptions.targetSlug := RunOptions.slug options;
     ResolvedRunOptions.parallelTabs :=
       Z.max 1 (default (AppConfig.parallelTabs appConfig)
                        (RunOptions.parallelTabs options));
     ResolvedRunOptions.headless :=
       default (AppConfig.headless appConfig) (RunOptions.headless options);
     ResolvedRunOptions.hardRefresh :=
       default false (RunOptions.hardRefresh options) |}.

(** ** The [p-retry] library, from its documented contract

    [pRetry(fn, {retries, ...})] calls [fn] with the attempt number, starting
    at 1.  A failed attempt is reported to [onFailedAttempt] with the number
    of retries left; with none left the error is rethrown, otherwise the next
    attempt follows after the timeout computed from [minTimeout],
    [maxTimeout] and [factor] ([randomize] being off).  A [TypeError] that
    is no network error is not retried: it is rethrown after the attempt
    that raised it, whatever the retries left. *)

Module Retry.

Inductive event :=
  | Attempt (attemptNumber : nat)
  | FailedAttempt (attemptNumber retriesLeft : nat) (e : exn)
  | Delay (ms : Z).

Record options := {
  retries : nat;
  minTimeout : Z;
  maxTimeout : Z;
  factor : Z;
}.

Definition timeout (o : options) (attemptNumber : nat) : Z :=
  Z.min (minTimeout o * factor o ^ Z.of_nat (attemptNumber - 1)) (maxTimeout o).

(** The errors the library rethrows at once. *)
Definition rethrown (e : exn) : bool :=
  match e with
  | TypeError _ => true
  | Error _ | NetworkError _ => false
  end.

Fixpoint attempts {A} (fn : nat → outcome A) (o : options)
    (retriesLeft attemptNumber : nat) : outcome A * list event :=
  match fn attemptNumber with
  | Ok a => (Ok a, [Attempt attemptNumber])
  | Thrown e =>
      match retriesLeft with
      | 0 => (Thrown e, [Attempt attemptNumber; FailedAttempt attemptNumber 0 e])
      | S fewer =>
          if rethrown e then
            (Thrown e,
             [Attempt attemptNumber; FailedAttempt attemptNumber retriesLeft e])
          else
            let next := attempts fn o fewer (S attemptNumber) in
            (next.1,
             Attempt attemptNumber :: FailedAttempt attemptNumber retriesLeft e
               :: Delay (timeout o attemptNumber) :: next.2)
      end
  end.

Definition pRetry {A} (fn : nat → outcome A) (o : options)
    : outcome A * list event :=
  attempts fn o (retries o) 1.

Definition attemptCount (trace : list event) : nat :=
  length (List.filter (λ e, match e with Attempt _ => true | _ => false end) trace).

Definition delays (trace : list event) : list Z :=
  omap (λ e, match e with Delay ms => Some ms | _ => None end) trace.

Definition attemptNumbers (trace : list event) : list nat :=
  omap (λ e, match e with Attempt n => Some n | _ => None end) trace.

End Retry.

(** ** The [p-queue] library, from its documented contract

    A queue starts the jobs it is given in the order of their addition, at
    most [concurrency] of them running at a time; when a running job settles
    the next waiting one is started.  The constructor rejects a concurrency
    below 1. *)

Module PQueue.

Record t (A : Type) := {
  concurrency : nat;
  queue : list A;
  pending : list A;
}.
Arguments concurrency {A} _.
Arguments queue {A} _.
Arguments pending {A} _.

Definition new {A} (concurrency : Z) : outcome (t A) :=
  if (concurrency <? 1)%Z
  then Thrown (TypeError "Expected concurrency to be a number from 1 and up")
  else Ok {| concurrency := Z.to_nat concurrency; queue := []; pending := [] |}.

Definition tryToStartAnother {A} (q : t A) : t A :=
  match queue q with
  | [] => q
  | job :: rest =>
      if length (pending q) <? concurrency q then
        {| concurrency := concurrency q; queue := rest; pending := pending q ++ [job] |}
      else q
  end.

Definition add {A} (q : t A) (job : A) : t A :=
  tryToStartAnother
    {| concurrency := concurrency q; queue := queue q ++ [job]; pending := pending q |}.

(** The [i]-th running job settles. *)
Definition settle {A} (q : t A) (i : nat) : t A :=
  tryToStartAnother
    {| concurrency := concurrency q; queue := queue q; pending := delete i (pending q) |}.

(** [onIdle()] resolves once this holds. *)
Definition isIdle {A} (q : t A) : bool :=
  match queue q, pending q with
  | [], [] => true
  | _, _ => false
  end.

End PQueue.

(** ** [scraper.ts] *)

Record ScrapeState := {
  st_succeeded : nat;
  st_completed : nat;
  st_failed : nat;
}.

Module LandingData.
Record t := {
  name : string;
  brandNames : list string;
  description : string;
}.
End LandingData.

Record ScrapedPages := {
  pg_about : MedicineAbout;
  pg_dosage : option MedicineContentPage;
  pg_sideEffects : option MedicineContentPage;
  pg_pregnancy : option MedicineContentPage;
  pg_interactions : option MedicineContentPage;
  pg_commonQuestions : option MedicineCommonQuestions;
}.

(** What one rendering session of a medicine's pages delivers to
    [scrapeMedicine]: the text of [main h1] if there is one, the landing
    description, the scraped sub-pages, the classified links and the clock. *)
Record Rendered := {
  r_h1 : option string;
  r_description : string;
  r_pages : ScrapedPages;
  r_relatedConditions : list Link;
  r_usefulResources : list Link;
  r_now : string;
}.

(** The world outside the orchestrator.
    - [render task n]: what the [n]-th extraction attempt of [task] meets,
      a rendered session or the error raised on the way, that of a
      navigation or the [TypeError] of [new URL] on a malformed link;
    - [new_page task], [close_page task]: the error [context.newPage()] and
      [page.close()] raise for the task, if any;
    - [write_error path]: the way a write to [path] fails, if it does;
    - [mkdir_error path]: the error creating the directory raises, if any;
    - [resolve]: [path.resolve(_)]; [basename]: [path.basename(_, '.json')];
    - [shutdown_error]: the error closing the context or the browser raises
      in the [finally] block of [run], if any;
    - [pick k]: which of the running tasks is the [k]-th to settle. *)
Record World := {
  render : MedicineTask.t → nat → outcome Rendered;
  new_page : MedicineTask.t → option exn;
  close_page : MedicineTask.t → option exn;
  write_error : string → option writeFault;
  mkdir_error : string → option exn;
  resolve : string → string;
  basename : string → string;
  shutdown_error : option exn;
  pick : nat → nat;
}.

Module Scraper.

Import Store.

(** [getText]: [text?.trim() || undefined] *)
Definition getText (text : option string) : option string :=
  match text with
  | Some t => if Text.truthy (Text.trim t) then Some (Text.trim t) else None
  | None => None
  end.

Definition selectTasks (allMedicines : list MedicineTask.t)
    (targetSlug : option string) (targetLimit : Z) : list MedicineTask.t :=
  let filtered :=
    match targetSlug with
    | Some s =>
        if Text.truthy s
        then filter (λ item, MedicineTask.slug item = s) allMedicines
        else allMedicines
    | None => allMedicines
    end in
  if (0 <? targetLimit)%Z then take (Z.to_nat targetLimit) filtered else filtered.

(** [access] succeeds on the files that exist. *)
Definition fileExists (disk : Disk) (path : string) : bool :=
  bool_decide (is_Some (disk !! path)).

Definition getCachedSlugs (disk : Disk) (outputDir : string)
    (metadata : list OutputMetadataEntry.t) : gset string :=
  foldl (λ (cachedSlugs : gset string) item,
           if fileExists disk
                (path_resolve outputDir (OutputMetadataEntry.medicineFilePath item))
           then {[OutputMetadataEntry.slug item]} ∪ cachedSlugs
           else cachedSlugs)
        ∅ metadata.

(** The filter of [applyCachePolicy], counting what it drops. *)
Fixpoint filterCached (cachedSlugs : gset string) (tasks : list MedicineTask.t)
    (skipped : nat) : list MedicineTask.t * nat :=
  match tasks with
  | [] => ([], skipped)
  | task :: rest =>
      if decide (MedicineTask.slug task ∉ cachedSlugs) then
        let r := filterCached cachedSlugs rest skipped in (task :: r.1, r.2)
      else filterCached cachedSlugs rest (S skipped)
  end.

Definition applyCachePolicy (disk : Disk) (tasks : list MedicineTask.t)
    (outputStore : OutputStore) (hardRefresh : bool)
    : list MedicineTask.t * nat :=
  if hardRefresh then (tasks, 0)
  else
    let cachedSlugs :=
      getCachedSlugs disk (outputDir outputStore) (metadata outputStore) in
    filterCached cachedSlugs tasks 0.

Definition readLandingData (r : Rendered) (task : MedicineTask.t)
    : LandingData.t :=
  let title := default (MedicineTask.slug task) (getText (r_h1 r)) in
  let parsed := Brand.parseBrandNames title in
  {| LandingData.name := parsed.1;
     LandingData.brandNames := parsed.2;
     LandingData.description := r_description r |}.

Definition composeMedicine (task : MedicineTask.t) (landing : LandingData.t)
    (pages : ScrapedPages) (relatedConditions usefulResources : list Link)
    (now : string) : Medicine.t :=
  {| Medicine.name := LandingData.name landing;
     Medicine.slug := MedicineTask.slug task;
     Medicine.url := MedicineTask.url task;
     Medicine.brandNames := LandingData.brandNames landing;
     Medicine.about := pg_about pages;
     Medicine.dosage := pg_dosage pages;
     Medicine.sideEffects := pg_sideEffects pages;
     Medicine.pregnancy := pg_pregnancy pages;
     Medicine.interactions := pg_interactions pages;
     Medicine.commonQuestions := pg_commonQuestions pages;
     Medicine.relatedConditions := relatedConditions;
     Medicine.usefulResources := usefulResources;
     Medicine.scrapedAt := now;
     Medicine.source := "nhs" |}.

Definition scrapeMedicine (world : World) (task : MedicineTask.t)
    (attempt : nat) : outcome Medicine.t :=
  match render world task attempt with
  | Thrown e => Thrown e
  | Ok r =>
      Ok (composeMedicine task (readLandingData r task) (r_pages r)
            (r_relatedConditions r) (r_usefulResources r) (r_now r))
  end.

Definition retryOptions (appConfig : AppConfig.t) : Retry.options :=
  {| Retry.retries := Z.to_nat (Z.max 0 (AppConfig.retryAttempts appConfig - 1));
     Retry.minTimeout := AppConfig.retryDelayMs appConfig;
     Retry.maxTimeout := AppConfig.retryDelayMs appConfig;
     Retry.factor := 1 |}.

Definition retryScrapeMedicine (world : World) (appConfig : AppConfig.t)
    (task : MedicineTask.t) : outcome Medicine.t * list Retry.event :=
  Retry.pRetry (λ attempt, scrapeMedicine world task attempt)
               (retryOptions appConfig).

(** What the tasks of a run share: the counters, the store and the disk;
    and the rejections of the promises [queue.add] returns, which
    [runTaskQueue] drops, so that nothing handles them.  What the platform
    does about an unhandled rejection is not modelled. *)
Record Shared := {
  state : ScrapeState;
  outputStore : OutputStore;
  disk : Disk;
  rejected : list (MedicineTask.t * exn);
}.

Definition bump (succeeded failed : nat) (s : ScrapeState) : ScrapeState :=
  {| st_succeeded := st_succeeded s + succeeded;
     st_completed := st_completed s + 1;
     st_failed := st_failed s + failed |}.

(** The [try] block of [processMedicineTask] with its [catch] and the
    counting of its [finally]: [try] the extraction and the persistence,
    [catch] counts a failure, [finally] counts the completion. *)
Definition processBody (world : World) (appConfig : AppConfig.t)
    (task : MedicineTask.t) (sh : Shared) : Shared :=
  match (retryScrapeMedicine world appConfig task).1 with
  | Thrown _ =>
      {| state := bump 0 1 (state sh);
         outputStore := outputStore sh; disk := disk sh;
         rejected := rejected sh |}
  | Ok medicine =>
      match persistMedicine (write_error world) task medicine
              (outputStore sh) (disk sh) with
      | (Ok _, store', disk') =>
          {| state := bump 1 0 (state sh); outputStore := store'; disk := disk';
             rejected := rejected sh |}
      | (Thrown _, store', disk') =>
          {| state := bump 1 1 (state sh); outputStore := store'; disk := disk';
             rejected := rejected sh |}
      end
  end.

(** The promise of the task rejects with [e]. *)
Definition reject (task : MedicineTask.t) (e : exn) (sh : Shared) : Shared :=
  {| state := state sh; outputStore := outputStore sh; disk := disk sh;
     rejected := rejected sh ++ [(task, e)] |}.

(** [processMedicineTask]: the page is opened before the [try] block, so an
    error of [context.newPage()] rejects the task before anything is
    counted; [page.close()] ends the [finally] block, after the completion
    is counted and reported, and its error rejects the task as well. *)
Definition processMedicineTask (world : World) (appConfig : AppConfig.t)
    (task : MedicineTask.t) (sh : Shared) : Shared :=
  match new_page world task with
  | Some e => reject task e sh
  | None =>
      let sh' := processBody world appConfig task sh in
      match close_page world task with
      | Some e => reject task e sh'
      | None => sh'
      end
  end.

(** The queue is drained one settling task at a time; a task's extraction
    reads the world only, and the single-writer queue runs the
    persistence bodies one after the other, so the shared state after a
    run is the one reached by running the tasks in the order they settle. *)
Fixpoint drain (world : World) (appConfig : AppConfig.t) (fuel step : nat)
    (q : PQueue.t MedicineTask.t) (sh : Shared)
    : PQueue.t MedicineTask.t * Shared :=
  match fuel with
  | 0 => (q, sh)
  | S fuel' =>
      let i := pick world step `mod` length (PQueue.pending q) in
      match PQueue.pending q !! i with
      | None => (q, sh)
      | Some task =>
          drain world appConfig fuel' (S step) (PQueue.settle q i)
                (processMedicineTask world appConfig task sh)
      end
  end.

Definition queueConcurrency (parallelTabs : Z) (totalQueued : nat) : Z :=
  Z.min parallelTabs (Z.max 1 (Z.of_nat totalQueued)).

(** [runTaskQueue]: the queue as [onIdle] finds it, and the shared state. *)
Definition runTaskQueue (world : World) (appConfig : AppConfig.t)
    (tasksToRun : list MedicineTask.t) (parallelTabs : Z) (totalQueued : nat)
    (sh : Shared) : outcome (PQueue.t MedicineTask.t * Shared) :=
  match PQueue.new (queueConcurrency parallelTabs totalQueued) with
  | Thrown e => Thrown e
  | Ok q0 =>
      let q := foldl PQueue.add q0 tasksToRun in
      Ok (drain world appConfig (length tasksToRun) 0 q sh)
  end.

(** The [try] block of [run], from the discovered catalogue on.  It throws
    what [prepareOutputStore] or the constructor of the queue throws, both
    before any task is started. *)
Definition runTry (world : World) (appConfig : AppConfig.t)
    (options : RunOptions.t) (allMedicines : list MedicineTask.t)
    (disk0 : Disk) : outcome (ScrapeSummary.t * Shared) :=
  let runOptions := resolveRunOptions options appConfig in
  let selected :=
    selectTasks allMedicines (ResolvedRunOptions.targetSlug runOptions)
                (ResolvedRunOptions.targetLimit runOptions) in
  match prepareOutputStore (resolve world) (mkdir_error world) (basename world)
          disk0 (AppConfig.outputDir appConfig) with
  | Thrown e => Thrown e
  | Ok outputStore =>
      let cache :=
        applyCachePolicy disk0 selected outputStore
                         (ResolvedRunOptions.hardRefresh runOptions) in
      let tasksToRun := cache.1 in
      let skipped := cache.2 in
      let totalQueued := length tasksToRun in
      let state := {| st_succeeded := 0; st_completed := 0; st_failed := 0 |} in
      match runTaskQueue world appConfig tasksToRun
              (ResolvedRunOptions.parallelTabs runOptions) totalQueued
              {| state := state; outputStore := outputStore; disk := disk0;
                 rejected := [] |} with
      | Thrown e => Thrown e
      | Ok (_, sh) =>
          Ok ({| ScrapeSummary.total := totalQueued;
                 ScrapeSummary.succeeded := st_succeeded (Scraper.state sh);
                 ScrapeSummary.failed := st_failed (Scraper.state sh);
                 ScrapeSummary.skipped := skipped;
                 ScrapeSummary.metadataPath :=
                   metadataPath (Scraper.outputStore sh) |},
              sh)
      end
  end.

(** [run], from the discovered catalogue on: the [finally] block closes the
    context and the browser whatever the [try] block did, and an error
    there is the error of the run. *)
Definition run (world : World) (appConfig : AppConfig.t)
    (options : RunOptions.t) (allMedicines : list MedicineTask.t)
    (disk0 : Disk) : outcome (ScrapeSummary.t * Shared) :=
  match shutdown_error world with
  | Some e => Thrown e
  | None => runTry world appConfig options allMedicines disk0
  end.

(** The scheduler as a transition system over the queue: the loop of
    [runTaskQueue] adds the tasks one by one and any running task may
    settle at any moment. *)
Record Sched := {
  toAdd : list MedicineTask.t;
  pq : PQueue.t MedicineTask.t;
  settled : list MedicineTask.t;
}.

Inductive step : Sched → Sched → Prop :=
  | step_add task rest q done :
      step {| toAdd := task :: rest; pq := q; settled := done |}
           {| toAdd := rest; pq := PQueue.add q task; settled := done |}
  | step_settle todo q done i task :
      PQueue.pending q !! i = Some task →
      step {| toAdd := todo; pq := q; settled := done |}
           {| toAdd := todo; pq := PQueue.settle q i; settled := done ++ [task] |}.

(** [await queue.onIdle()] returns: the loop is over and the queue idle. *)
Definition returned (s : Sched) : Prop :=
  toAdd s = [] ∧ PQueue.isIdle (pq s) = true.

End Scraper.

(** ** Notions the statements below are phrased in *)

Module Spec.

Import Store Scraper.

(** The store is laid out the way [prepareOutputStore] lays it out. *)
Definition wfStore (store : OutputStore) : Prop :=
  medicinesDir store = path_join (outputDir store) "medicines"
  ∧ metadataPath store = path_join (outputDir store) "metadata.json".

(** The slug has an entry in the index whose artifact file exists. *)
Definition hasArtifact (disk : Disk) (store : OutputStore) (slug : string)
    : Prop :=
  Exists (λ item,
            OutputMetadataEntry.slug item = slug
            ∧ is_Some (disk !! path_resolve (outputDir store)
                                 (OutputMetadataEntry.medicineFilePath item)))
         (metadata store).

Global Instance hasArtifact_dec disk store slug :
  Decision (hasArtifact disk store slug).
Proof. unfold hasArtifact. apply _. Defined.

(** A slug filter is given when it is a non-empty string. *)
Definition filterGiven (targetSlug : option string) : bool :=
  match targetSlug with
  | Some s => Text.truthy s
  | None => false
  end.

Definition entriesFor (slug : string) (metadata : list OutputMetadataEntry.t)
    : list OutputMetadataEntry.t :=
  filter (λ item, OutputMetadataEntry.slug item = slug) metadata.

(** The jobs a queue still holds, running ones first. *)
Definition jobs {A} (q : PQueue.t A) : list A := PQueue.pending q ++ PQueue.queue q.

(** What the queue maintains between two of its operations. *)
Definition wfQueue {A} (q : PQueue.t A) : Prop :=
  1 ≤ PQueue.concurrency q
  ∧ length (PQueue.pending q) ≤ PQueue.concurrency q
  ∧ (PQueue.queue q ≠ [] → length (PQueue.pending q) = PQueue.concurrency q).

(** The scheduler before the loop of [runTaskQueue]. *)
Definition initial (tasks : list MedicineTask.t) (q0 : PQueue.t MedicineTask.t)
    : Sched :=
  {| toAdd := tasks; pq := q0; settled := [] |}.

(** The shared state after the tasks of [order] have run one after the other. *)
Definition processAll (world : World) (appConfig : AppConfig.t)
    (order : list MedicineTask.t) (sh : Shared) : Shared :=
  foldl (λ sh task, processMedicineTask world appConfig task sh) sh order.

(** The extraction of the task succeeds and its persistence then throws. *)
Definition countedTwice (world : World) (appConfig : AppConfig.t)
    (store : OutputStore) (task : MedicineTask.t) : bool :=
  match (retryScrapeMedicine world appConfig task).1 with
  | Thrown _ => false
  | Ok medicine =>
      bool_decide (is_Some (write_error world (artifactPath store medicine))
                   ∨ is_Some (write_error world (metadataPath store)))
  end.

(** Two stores with the same directories and index file. *)
Definition sameLayout (store store' : OutputStore) : Prop :=
  outputDir store' = outputDir store
  ∧ medicinesDir store' = medicinesDir store
  ∧ metadataPath store' = metadataPath store.

(** The extraction of the task ends in an error. *)
Definition extractionFails (world : World) (appConfig : AppConfig.t)
    (task : MedicineTask.t) : bool :=
  match (retryScrapeMedicine world appConfig task).1 with
  | Thrown _ => true
  | Ok _ => false
  end.

Definition tally (b : bool) : nat := if b then 1 else 0.

(** The page of the task can be opened. *)
Definition opens (world : World) (task : MedicineTask.t) : bool :=
  match new_page world task with
  | None => true
  | Some _ => false
  end.

(** The page of the task can be closed. *)
Definition closes (world : World) (task : MedicineTask.t) : bool :=
  match close_page world task with
  | None => true
  | Some _ => false
  end.

(** The counts a run reports: total, succeeded, failed, skipped. *)
Definition counts (result : outcome (ScrapeSummary.t * Shared))
    : option (nat * nat * nat * nat) :=
  match result with
  | Ok (summary, _) =>
      Some (ScrapeSummary.total summary, ScrapeSummary.succeeded summary,
            ScrapeSummary.failed summary, ScrapeSummary.skipped summary)
  | Thrown _ => None
  end.

(** Every character of the text is matched by [.]. *)
Definition dots (s : string) : Prop :=
  Forall (λ c, Brand.is_dot c = true) (String.list_ascii_of_string s).

(** [l] put in front of the first part. *)
Definition prepend (l : string) (parts : list string) : list string :=
  match parts with
  | p :: ps => (l +:+ p) :: ps
  | [] => [l]
  end.

(** The siblings a section collects from: those before the next heading. *)
Fixpoint upToNextHeading (siblings : list Dom.node) : list Dom.node :=
  match siblings with
  | [] => []
  | n :: rest =>
      if Dom.tagIs ["h2"; "h3"] n then [] else n :: upToNextHeading rest
  end.

(** The text of a node with every run of whitespace turned into one blank
    and the whitespace at both ends removed. *)
Definition cleaned (n : Dom.node) : string := Text.clean (Dom.textContent n).

(** The cleaned, non-empty texts of the paragraphs among the nodes. *)
Definition paragraphsOf (nodes : list Dom.node) : list string :=
  List.filter Text.truthy (cleaned <$> List.filter (Dom.tagIs ["p"]) nodes).

(** The cleaned, non-empty texts of the items of the lists among the nodes. *)
Definition bulletsOf (nodes : list Dom.node) : list string :=
  mjoin ((λ n, List.filter Text.truthy
                 (cleaned <$> Dom.querySelectorAll ["li"] n))
           <$> List.filter (Dom.tagIs ["ul"; "ol"]) nodes).

Definition sectionFrom (h : Dom.node) (body : list Dom.node) : ContentSection :=
  {| heading := cleaned h;
     paragraphs := paragraphsOf body;
     bullets := bulletsOf body |}.

Definition headed (section : ContentSection) : bool :=
  0 <? String.length (heading section).

(** The children of an element, walked as [withSiblings] walks them. *)
Fixpoint walk (names : list string) (cs : list Dom.node)
    : list (Dom.node * list Dom.node) :=
  match cs with
  | [] => []
  | c :: rest =>
      (if Dom.tagIs names c then [(c, List.filter Dom.isElement rest)] else [])
        ++ Dom.withSiblings names c ++ walk names rest
  end.

(** A node that is no heading and holds none. *)
Definition plain (n : Dom.node) : Prop :=
  Dom.tagIs ["h2"; "h3"] n = false
  ∧ Dom.withSiblings ["h2"; "h3"] n = [].

(** A heading that holds no further heading. *)
Definition plainHeading (h : Dom.node) : Prop :=
  Dom.tagIs ["h2"; "h3"] h = true
  ∧ Dom.withSiblings ["h2"; "h3"] h = [].

(** The content of a page made of headed blocks, one after the other. *)
Definition flatten (blocks : list (Dom.node * list Dom.node)) : list Dom.node :=
  mjoin ((λ b : Dom.node * list Dom.node, b.1 :: b.2) <$> blocks).

(** The disk a run leaves behind. *)
Definition diskAfter (result : outcome (ScrapeSummary.t * Shared)) : Disk :=
  match result with
  | Ok (_, final) => disk final
  | Thrown _ => ∅
  end.

(** The options of a run with its hard-refresh flag set. *)
Definition withHardRefresh (hardRefresh : option bool) (options : RunOptions.t)
    : RunOptions.t :=
  {| RunOptions.limit := RunOptions.limit options;
     RunOptions.slug := RunOptions.slug options;
     RunOptions.parallelTabs := RunOptions.parallelTabs options;
     RunOptions.headless := RunOptions.headless options;
     RunOptions.hardRefresh := hardRefresh |}.

(** What a run keeps true of the store and the disk while no write fails:
    the index file reads back as the index in memory. *)
Definition inSync (bn : string → string) (sh : Shared) : Prop :=
  wfStore (outputStore sh)
  ∧ loadMetadata bn (disk sh) (metadataPath (outputStore sh))
    = metadata (outputStore sh)
  ∧ Forall (λ item, backfill bn item = item) (metadata (outputStore sh)).

(** The index entry [persistMedicine] derives for a task and its record. *)
Definition entryOf (task : MedicineTask.t) (medicine : Medicine.t)
    : OutputMetadataEntry.t :=
  {| OutputMetadataEntry.slug := MedicineTask.slug task;
     OutputMetadataEntry.medicineName := Medicine.name medicine;
     OutputMetadataEntry.medicineFilePath :=
       "medicines/" +:+ toMedicineFileName medicine +:+ ".json" |}.

(** Successive persists into one store, as long as they succeed. *)
Fixpoint persistAll (write_error : string → option writeFault)
    (steps : list (MedicineTask.t * Medicine.t))
    (store : OutputStore) (disk : Disk) : outcome unit * OutputStore * Disk :=
  match steps with
  | [] => (Ok tt, store, disk)
  | (task, medicine) :: rest =>
      match persistMedicine write_error task medicine store disk with
      | (Ok _, store', disk') => persistAll write_error rest store' disk'
      | failed => failed
      end
  end.

End Spec.

(** ** Concrete values for the examples *)

Module Examples.

Import Store Scraper.

Definition task_a : MedicineTask.t :=
  {| MedicineTask.slug := "a"; MedicineTask.url := "https://www.nhs.uk/medicines/a/" |}.
Definition task_b : MedicineTask.t :=
  {| MedicineTask.slug := "b"; MedicineTask.url := "https://www.nhs.uk/medicines/b/" |}.

Definition noPages : ScrapedPages :=
  {| pg_about := {| description := ""; keyFacts := []; usedFor := [];
                    about_content := []; about_lastReviewed := None |};
     pg_dosage := None; pg_sideEffects := None; pg_pregnancy := None;
     pg_interactions := None; pg_commonQuestions := None |}.

(** A rendered landing page with the given title and nothing else. *)
Definition titled (h1 : string) : Rendered :=
  {| r_h1 := Some h1; r_description := ""; r_pages := noPages;
     r_relatedConditions := []; r_usefulResources := [];
     r_now := "2026-01-01T00:00:00.000Z" |}.

(** A world in which pages open and close, directories can be made, the
    output directory is given as an absolute path and the browser shuts
    down: only rendering and writing vary. *)
Definition quiet (render : MedicineTask.t → nat → outcome Rendered)
    (write_error : string → option writeFault) : World :=
  {| render := render;
     new_page := λ _, None;
     close_page := λ _, None;
     write_error := write_error;
     mkdir_error := λ _, None;
     resolve := λ path, path;
     basename := λ path, path;
     shutdown_error := None;
     pick := λ _, 0 |}.

(** Every page renders at once and every write succeeds; the title of a
    task's page is given by [title]. *)
Definition calm (title : MedicineTask.t → string) : World :=
  quiet (λ task _, Ok (titled (title task))) (λ _, None).

(** No page ever renders. *)
Definition offline : World :=
  quiet (λ _ _, Thrown (Error "Navigation failed 503")) (λ _, None).

(** Every page holds a link that is no URL. *)
Definition malformed : World :=
  quiet (λ _ _, Thrown (TypeError "Invalid URL")) (λ _, None).

(** Pages render but the disk is full: a file can be opened, not filled. *)
Definition diskFull : World :=
  quiet (λ task _, Ok (titled (MedicineTask.slug task)))
        (λ _, Some (AfterOpen (Error "ENOSPC") "")).

(** The browser is gone: no page can be opened. *)
Definition browserGone : World :=
  {| render := λ task _, Ok (titled (MedicineTask.slug task));
     new_page := λ _, Some (Error "Target page, context or browser has been closed");
     close_page := λ _, None;
     write_error := λ _, None;
     mkdir_error := λ _, None;
     resolve := λ path, path;
     basename := λ path, path;
     shutdown_error := None;
     pick := λ _, 0 |}.

Definition appConfig (retryAttempts : Z) : AppConfig.t :=
  {| AppConfig.parallelTabs := 4; AppConfig.headless := true;
     AppConfig.navigationTimeoutMs := 30000;
     AppConfig.retryAttempts := retryAttempts;
     AppConfig.retryDelayMs := 750; AppConfig.scrapeLimit := 0;
     AppConfig.outputDir := "/data" |}.

Definition noOptions : RunOptions.t :=
  {| RunOptions.limit := None; RunOptions.slug := None;
     RunOptions.parallelTabs := None; RunOptions.headless := None;
     RunOptions.hardRefresh := None |}.

(** The store [prepareOutputStore] returns for [/data] on an empty disk. *)
Definition emptyStore : OutputStore :=
  {| outputDir := "/data";
     medicinesDir := "/data/medicines";
     metadataPath := "/data/metadata.json";
     metadata := [] |}.

Definition medicineOf (title : MedicineTask.t → string) (task : MedicineTask.t)
    : Medicine.t :=
  composeMedicine task (readLandingData (titled (title task)) task) noPages [] []
                  "2026-01-01T00:00:00.000Z".

(** The document of the specification's example:
    [{h2:"A", p:"x"}, {h2:"B", ul:["y","z"]}]. *)
Definition twoSections : Dom.node :=
  Dom.Element "html"
    [Dom.Element "head" [Dom.Element "title" [Dom.Txt "Medicine"]];
     Dom.Element "body"
       [Dom.Element "main"
          [Dom.Element "h2" [Dom.Txt "A"];
           Dom.Element "p" [Dom.Txt "x"];
           Dom.Element "h2" [Dom.Txt "B"];
           Dom.Element "ul"
             [Dom.Element "li" [Dom.Txt "y"]; Dom.Element "li" [Dom.Txt "z"]]]]].

Definition coCodamol (task : MedicineTask.t) : string :=
  if decide (MedicineTask.slug task = "a") then "Co-codamol" else "Co codamol".

End Examples.

(** ** Task discovery: [scrapeIndexUrl] and [toIndexMedicineUrl] *)

(** A parsed URL.  [origin] stands for all that precedes the path: scheme,
    credentials, host and port.  [new URL(value, NHS_BASE_URL)] belongs to
    the platform and is a parameter [parse] below; it throws on a text that
    is no URL. *)
Module Url.
Record t := {
  origin : string;
  pathname : string;
  search : string;
  hash : string;
}.

(** [url.toString()] *)
Definition toString (u : t) : string :=
  origin u +:+ pathname u +:+ search u +:+ hash u.
End Url.

Module Discovery.

(** The separator ['/'] matched at the start of [s]. *)
Definition match_slash (s : string) : option string :=
  match s with
  | String c s' => if Ascii.eqb c "/" then Some s' else None
  | EmptyString => None
  end.

(** [pathname.split('/').filter(Boolean)] *)
Definition pathParts (pathname : string) : list string :=
  List.filter Text.truthy (Brand.split match_slash pathname).

(** [toIndexMedicineUrl]; the path assigned to [url.pathname] comes from the
    path itself and is taken to be stored as it is. *)
Definition toIndexMedicineUrl (parse : string → outcome Url.t) (value : string)
    : outcome (option Url.t) :=
  match parse value with
  | Thrown msg => Thrown msg
  | Ok url =>
      let parts := pathParts (Url.pathname url) in
      if negb (bool_decide (parts !! 0 = Some "medicines"))
         || negb (length parts =? 2)
      then Ok None
      else
        match parts !! 1 with
        | None => Ok None
        | Some slug =>
            if Text.truthy slug then
              Ok (Some {| Url.origin := Url.origin url;
                          Url.pathname := "/medicines/" +:+ slug +:+ "/";
                          Url.search := "";
                          Url.hash := "" |})
            else Ok None
        end
  end.

(** [tasks.set(key, value)] on a [Map], kept in insertion order: a key
    already present keeps its place and takes the new value. *)
Fixpoint mapSet (tasks : list (string * MedicineTask.t)) (key : string)
    (value : MedicineTask.t) : list (string * MedicineTask.t) :=
  match tasks with
  | [] => [(key, value)]
  | (k, v) :: rest =>
      if decide (k = key) then (key, value) :: rest
      else (k, v) :: mapSet rest key value
  end.

(** The loop of [scrapeIndexUrl]. *)
Fixpoint collectTasks (parse : string → outcome Url.t) (hrefs : list string)
    (tasks : list (string * MedicineTask.t))
    : outcome (list (string * MedicineTask.t)) :=
  match hrefs with
  | [] => Ok tasks
  | href :: rest =>
      match toIndexMedicineUrl parse href with
      | Thrown msg => Thrown msg
      | Ok None => collectTasks parse rest tasks
      | Ok (Some url) =>
          match pathParts (Url.pathname url) !! 1 with
          | None => collectTasks parse rest tasks
          | Some slug =>
              if Text.truthy slug then
                collectTasks parse rest
                  (mapSet tasks slug
                     {| MedicineTask.slug := slug;
                        MedicineTask.url := Url.toString url |})
              else collectTasks parse rest tasks
          end
      end
  end.

(** The [href] attributes the locator delivers: [getAttribute('href') ?? '']
    with the empty ones dropped. *)
Definition hrefsOf (attributes : list (option string)) : list string :=
  List.filter (λ href, 0 <? String.length href) (default "" <$> attributes).

(** [scrapeIndexUrl], from the anchors of the loaded index page on. *)
Definition scrapeIndexUrl (parse : string → outcome Url.t)
    (attributes : list (option string)) : outcome (list MedicineTask.t) :=
  match collectTasks parse (hrefsOf attributes) [] with
  | Thrown msg => Thrown msg
  | Ok tasks => Ok (tasks.*2)
  end.

End Discovery.

(** ** Links of a medicine page *)

Module Links.

(** [s.includes(sub)] *)
Fixpoint includes (s sub : string) : bool :=
  match Text.strip_prefix sub s with
  | Some _ => true
  | None =>
      match s with
      | EmptyString => false
      | String _ s' => includes s' sub
      end
  end.

(** [s.startsWith(pre)] *)
Definition startsWith (s pre : string) : bool :=
  match Text.strip_prefix pre s with Some _ => true | None => false end.

(** [findLink] *)
Definition findLink (links keywords : list string) : option string :=
  List.find (λ link, existsb (λ keyword, includes link keyword) keywords) links.

Record SubpageUrls := {
  aboutUrl : string;
  dosageUrl : option string;
  sideEffectsUrl : option string;
  pregnancyUrl : option string;
  interactionsUrl : option string;
  questionsUrl : option string;
}.

(** [...(url ? { url } : {})]: the field is there for a non-empty text. *)
Definition present (url : option string) : option string :=
  match url with
  | Some u => if Text.truthy u then Some u else None
  | None => None
  end.

(** [resolveSubpageUrls] *)
Definition resolveSubpageUrls (medicineLinks : list string) (fallbackUrl : string)
    : SubpageUrls :=
  let dosageUrl := findLink medicineLinks ["how-and-when"; "dosage"] in
  let sideEffectsUrl := findLink medicineLinks ["side-effects"] in
  let pregnancyUrl :=
    findLink medicineLinks ["pregnancy"; "breastfeeding"; "fertility"] in
  let interactionsUrl :=
    findLink medicineLinks ["interactions"; "other-medicines"; "herbal"] in
  let questionsUrl := findLink medicineLinks ["common-questions"] in
  {| aboutUrl := default fallbackUrl (findLink medicineLinks ["about"]);
     dosageUrl := present dosageUrl;
     sideEffectsUrl := present sideEffectsUrl;
     pregnancyUrl := present pregnancyUrl;
     interactionsUrl := present interactionsUrl;
     questionsUrl := present questionsUrl |}.

(** [items.map(f)] for an [f] that may throw: the first error ends it. *)
Fixpoint mapThrowing {A B} (f : A → outcome B) (items : list A)
    : outcome (list B) :=
  match items with
  | [] => Ok []
  | x :: rest =>
      match f x with
      | Thrown msg => Thrown msg
      | Ok y =>
          match mapThrowing f rest with
          | Thrown msg => Thrown msg
          | Ok ys => Ok (y :: ys)
          end
      end
  end.

(** [extractMedicineLinks], from the [href] attributes of the anchors on. *)
Definition extractMedicineLinks (parse : string → outcome Url.t)
    (attributes : list (option string)) (slug : string) : outcome (list string) :=
  let navLinks := Discovery.hrefsOf attributes in
  let medicineBasePath := "/medicines/" +:+ slug +:+ "/" in
  match mapThrowing parse (Brand.dedupe ∅ navLinks) with
  | Thrown msg => Thrown msg
  | Ok urls =>
      Ok (Url.toString
            <$> List.filter (λ url, startsWith (Url.pathname url) medicineBasePath)
                            urls)
  end.

(** An anchor as [extractRelatedLinks] reads it: its text and its [href]
    attribute. *)
Record Anchor := {
  textContent : string;
  href : option string;
}.

(** [extractRelatedLinks], from the anchors of [main] on. *)
Definition extractRelatedLinks (parse : string → outcome Url.t)
    (anchors : list Anchor) : outcome (list Link * list Link) :=
  let allLinks :=
    List.filter (λ item : string * string,
                   (0 <? String.length item.1) && (0 <? String.length item.2))
      ((λ element, (Text.trim (textContent element), default "" (href element)))
         <$> anchors) in
  match mapThrowing
          (λ item : string * string,
             match parse item.2 with
             | Thrown msg => Thrown msg
             | Ok url => Ok {| label := item.1; link_url := Url.toString url |}
             end) allLinks with
  | Thrown msg => Thrown msg
  | Ok normalized =>
      Ok (List.filter (λ item, includes (link_url item) "/conditions/") normalized,
          List.filter (λ item, negb (includes (link_url item) "/medicines/")
                               && negb (includes (link_url item) "/conditions/"))
                      normalized)
  end.

End Links.

(** ** Introductory description and questions of a page *)

Module Pages.

Definition newline : string := String "010" EmptyString.

(** [parts.join(sep)] *)
Fixpoint join (sep : string) (parts : list string) : string :=
  match parts with
  | [] => EmptyString
  | [part] => part
  | part :: rest => part +:+ sep +:+ join sep rest
  end.

(** The element descendants of a node, in document order. *)
Fixpoint descendants (n : Dom.node) : list Dom.node :=
  match n with
  | Dom.Txt _ => []
  | Dom.Element _ children =>
      (fix go (cs : list Dom.node) : list Dom.node :=
         match cs with
         | [] => []
         | c :: rest =>
             (if Dom.isElement c then [c] else []) ++ descendants c ++ go rest
         end) children
  end.

(** [(p.compareDocumentPosition(firstHeading) & DOCUMENT_POSITION_FOLLOWING)
    !== 0], on positions in document order; without a heading every
    paragraph passes. *)
Definition headingFollows (position : nat) (firstHeading : option nat) : bool :=
  match firstHeading with
  | None => true
  | Some heading => position <? heading
  end.

(** [getIntroDescription] *)
Definition introParagraphs (document : Dom.node) : list string :=
  match Dom.queryMain document with
  | None => []
  | Some main =>
      let placed := imap (λ position n, (position, n)) (descendants main) in
      let firstHeading :=
        fst <$> List.find (λ e : nat * Dom.node, Dom.tagIs Dom.headingSelector e.2)
                          placed in
      let paragraphs :=
        List.filter (λ e : nat * Dom.node, Dom.tagIs ["p"] e.2) placed in
      List.filter Text.truthy
        ((λ e : nat * Dom.node, Dom.cleanText e.2)
           <$> List.filter (λ e : nat * Dom.node, headingFollows e.1 firstHeading)
                 (List.filter
                    (λ e : nat * Dom.node,
                       negb (Links.includes (Dom.textContent e.2) "Last reviewed"))
                    paragraphs))
  end.

Definition getIntroDescription (document : Dom.node) : option string :=
  match introParagraphs document with
  | [] => None
  | paragraphs => Some (join (newline +:+ newline) paragraphs)
  end.

(** [element.querySelector(names)] *)
Definition querySelector (names : list string) (n : Dom.node) : option Dom.node :=
  head (Dom.querySelectorAll names n).

Definition cleanTexts (nodes : list Dom.node) : list string :=
  List.filter Text.truthy (Dom.cleanText <$> nodes).

(** A question of a [details] element. *)
Definition accordionQuestion (detail : Dom.node) : QuestionAnswer :=
  let question :=
    match querySelector ["summary"] detail with
    | Some summary => Dom.cleanText summary
    | None => EmptyString
    end in
  let answerParts :=
    cleanTexts (Dom.querySelectorAll ["p"] detail)
      ++ cleanTexts (Dom.querySelectorAll ["li"] detail) in
  {| question := question; answer := join newline answerParts |}.

(** The [while] loop of a heading taken as a question. *)
Fixpoint collectAnswer (siblings : list Dom.node) (answerParts : list string)
    : list string :=
  match siblings with
  | [] => answerParts
  | n :: rest =>
      if Dom.tagIs Dom.headingSelector n then answerParts
      else
        let parts1 :=
          if Dom.tagIs ["p"] n then
            let text := Dom.cleanText n in
            if Text.truthy text then answerParts ++ [text] else answerParts
          else answerParts in
        let parts2 :=
          if Dom.tagIs ["ul"; "ol"] n
          then parts1 ++ cleanTexts (Dom.querySelectorAll ["li"] n)
          else parts1 in
        collectAnswer rest parts2
  end.

Definition headingQuestion (found : Dom.node * list Dom.node) : QuestionAnswer :=
  {| question := Dom.cleanText found.1;
     answer := join newline (collectAnswer found.2 []) |}.

(** [s.toLowerCase()] *)
Fixpoint toLowerCase (s : string) : string :=
  match s with
  | EmptyString => EmptyString
  | String c s' => String (Brand.lower c) (toLowerCase s')
  end.

Definition answered (item : QuestionAnswer) : bool :=
  (0 <? String.length (question item)) && (0 <? String.length (answer item)).

Definition moreIn (item : QuestionAnswer) : bool :=
  Links.startsWith (toLowerCase (question item)) "more in".

(** The questions [scrapeQuestionsPage] reads off the loaded page. *)
Definition questionsOf (document : Dom.node) : list QuestionAnswer :=
  match Dom.queryMain document with
  | None => []
  | Some main =>
      let accordionQuestions :=
        List.filter answered
          (accordionQuestion <$> Dom.querySelectorAll ["details"] main) in
      if 0 <? length accordionQuestions then accordionQuestions
      else
        List.filter (λ item, answered item && negb (moreIn item))
          (headingQuestion <$> Dom.withSiblings Dom.headingSelector main)
  end.

End Pages.

(** ** Progress reports, [logProgress] *)

Module Progress.

Import Scraper.

(** Whether [logProgress] writes its line. *)
Definition logged (state : ScrapeState) (totalQueued : nat) : bool :=
  negb (negb (st_completed state `mod` 25 =? 0)
        && negb (st_completed state =? totalQueued)).

(** The completed counts reported while the tasks of [order] run one after
    the other: [processMedicineTask] calls [logProgress] in its [finally]
    block, once it has counted the task as completed; a task whose page
    could not be opened does not get there. *)
Fixpoint reports (world : World) (appConfig : AppConfig.t)
    (order : list MedicineTask.t) (totalQueued : nat) (sh : Shared) : list nat :=
  match order with
  | [] => []
  | task :: rest =>
      let sh' := processMedicineTask world appConfig task sh in
      match new_page world task with
      | Some _ => []
      | None =>
          if logged (state sh') totalQueued then [st_completed (state sh')] else []
      end ++ reports world appConfig rest totalQueued sh'
  end.

End Progress.

(** ** [browser-manager.ts] *)

Module BrowserManager.

Inductive event := Launch | NewContext | CloseBrowser.

(** The manager holds a browser or none. *)
Record t := { browser : bool }.

(** [getContext]: the browser is launched when none is held. *)
Definition getContext (m : t) : t * list event :=
  if browser m then (m, [NewContext])
  else ({| browser := true |}, [Launch; NewContext]).

(** [close] *)
Definition close (m : t) : t * list event :=
  if browser m then ({| browser := false |}, [CloseBrowser]) else (m, []).

Inductive call := GetContext | Close.

Definition perform (m : t) (c : call) : t * list event :=
  match c with GetContext => getContext m | Close => close m end.

(** A sequence of calls and the events it causes. *)
Fixpoint performAll (m : t) (calls : list call) : t * list event :=
  match calls with
  | [] => (m, [])
  | c :: rest =>
      let r := perform m c in
      let r' := performAll r.1 rest in
      (r'.1, r.2 ++ r'.2)
  end.

Definition count (e : event) (trace : list event) : nat :=
  length (List.filter (λ x, match e, x with
                            | Launch, Launch | NewContext, NewContext
                            | CloseBrowser, CloseBrowser => true
                            | _, _ => false
                            end) trace).

End BrowserManager.

(** ** Further notions for the statements *)

Module Shape.

(** Two characters of the class [p] stand next to each other. *)
Fixpoint adjacent (p : ascii → bool) (s : string) : bool :=
  match s with
  | EmptyString => false
  | String c s' =>
      (p c && match s' with String d _ => p d | EmptyString => false end)
      || adjacent p s'
  end.

Definition startsIn (p : ascii → bool) (s : string) : bool :=
  match s with String c _ => p c | EmptyString => false end.

Fixpoint endsIn (p : ascii → bool) (s : string) : bool :=
  match s with
  | EmptyString => false
  | String c EmptyString => p c
  | String _ s' => endsIn p s'
  end.

Definition chars (s : string) : list ascii := String.list_ascii_of_string s.

(** [[^a-zA-Z0-9]] *)
Definition notAlnum (c : ascii) : bool := negb (Text.is_alnum c).

(** A file name as [slugify] makes them: letters, digits and single dashes,
    no dash at either end. *)
Definition slugShaped (s : string) : Prop :=
  Forall (λ c, Text.is_alnum c = true ∨ c = "-"%char) (chars s)
  ∧ adjacent Text.is_dash s = false
  ∧ startsIn Text.is_dash s = false
  ∧ endsIn Text.is_dash s = false.

(** A text is tidy when it holds no white space but single blanks, and none
    at either end. *)
Definition tidy (s : string) : Prop :=
  adjacent Text.is_space s = false
  ∧ Forall (λ c, Text.is_space c = false ∨ c = " "%char) (chars s)
  ∧ startsIn Text.is_space s = false
  ∧ endsIn Text.is_space s = false.

(** No slash occurs in the text. *)
Definition slashFree (s : string) : Prop :=
  Forall (λ c, c ≠ "/"%char) (chars s).

(** [new URL(value, NHS_BASE_URL)] on plain absolute paths; any other text
    is refused. *)
Definition parsePath (value : string) : outcome Url.t :=
  match value with
  | String "/" _ =>
      Ok {| Url.origin := "https://www.nhs.uk"; Url.pathname := value;
            Url.search := ""; Url.hash := "" |}
  | _ => Thrown (TypeError "Invalid URL")
  end.

(** A disk that fills up while the index file is written. *)
Definition indexCutShort : World :=
  Examples.quiet (λ task _, Ok (Examples.titled (MedicineTask.slug task)))
    (λ path, if decide (path = "/data/metadata.json")
             then Some (AfterOpen (Error "ENOSPC") "[") else None).

(** The paths a run may write below its output directory: the index file
    and the artifact files. *)
Definition insideOutput (outputDir path : string) : Prop :=
  path = Store.path_join outputDir "metadata.json"
  ∨ ∃ name, path = Store.path_join (Store.path_join outputDir "medicines")
                                   (name +:+ ".json").

Definition isOk {A} (result : outcome A) : bool :=
  match result with Ok _ => true | Thrown _ => false end.

(** [sub] occurs in [s]. *)
Definition occursIn (sub s : string) : Prop :=
  ∃ before after, s = before +:+ sub +:+ after.

(** The only whitespace of the text is single blanks. *)
Definition singleSpaced (s : string) : Prop :=
  adjacent Text.is_space s = false
  ∧ Forall (λ c, Text.is_space c = false ∨ c = " "%char) (chars s).

(** The separator of the brand names as it stands in a cleaned title, in
    lower case. *)
Definition otherBrandNames : string := " - other brand names: ".

(** The text begins with the separator, in whatever letter case. *)
Definition separatorAt (s : string) : Prop :=
  ∃ m rest, s = m +:+ rest ∧ Pages.toLowerCase m = otherBrandNames.

(** The separator occurs in the text. *)
Definition hasSeparator (s : string) : Prop :=
  ∃ before after, s = before +:+ after ∧ separatorAt after.

(** No separator begins at a character of [left] when [s] follows it. *)
Definition noSeparatorIn (left s : string) : Prop :=
  ∀ l1 l2, left = l1 +:+ l2 → l2 ≠ "" → ¬ separatorAt (l2 +:+ s).

(** The words of a text: its maximal runs of characters that are no
    whitespace, in their order. *)
Fixpoint words (s : string) : list string :=
  match s with
  | EmptyString => []
  | String c s' =>
      if Text.is_space c then words s'
      else if startsIn Text.is_space s' then String c EmptyString :: words s'
      else
        match words s' with
        | w :: ws => String c w :: ws
        | [] => [String c EmptyString]
        end
  end.

(** A text of whitespace only. *)
Definition blank (s : string) : Prop :=
  Forall (λ c, Text.is_space c = true) (chars s).

(** [h] is a child of [parent], and [following] are the children after it. *)
Definition childOf (parent h : Dom.node) (following : list Dom.node) : Prop :=
  ∃ tag before, parent = Dom.Element tag (before ++ h :: following).

(** The question of a [details] element: the cleaned text of its first
    [summary], and for the answer the cleaned non-empty texts of its
    paragraphs, then those of its list items, one per line. *)
Definition detailQuestion (detail : Dom.node) : QuestionAnswer :=
  {| question :=
       match head (List.filter (Dom.tagIs ["summary"]) (Pages.descendants detail)) with
       | Some summary => Spec.cleaned summary
       | None => EmptyString
       end;
     answer :=
       Pages.join Pages.newline
         (List.filter Text.truthy
            (Spec.cleaned
               <$> List.filter (Dom.tagIs ["p"]) (Pages.descendants detail))
          ++ List.filter Text.truthy
               (Spec.cleaned
                  <$> List.filter (Dom.tagIs ["li"]) (Pages.descendants detail))) |}.

(** The lines of an answer read off the nodes after a heading: for every
    node in turn, its cleaned text if it is a paragraph, and the cleaned
    texts of its items if it is a list, the empty texts dropped. *)
Definition answerLines (body : list Dom.node) : list string :=
  mjoin ((λ n,
            (if Dom.tagIs ["p"] n
             then List.filter Text.truthy [Spec.cleaned n] else [])
            ++ (if Dom.tagIs ["ul"; "ol"] n
                then List.filter Text.truthy
                       (Spec.cleaned
                          <$> List.filter (Dom.tagIs ["li"]) (Pages.descendants n))
                else []))
           <$> body).

(** The question of a heading and the nodes up to the next heading. *)
Definition questionFrom (h : Dom.node) (body : list Dom.node) : QuestionAnswer :=
  {| question := Spec.cleaned h;
     answer := Pages.join Pages.newline (answerLines body) |}.

(** A page of questions under headings, with a link list at its end. *)
Definition headedQuestions : Dom.node :=
  Dom.Element "html"
    [Dom.Element "body"
       [Dom.Element "h2" [Dom.Txt "Who can take it?"];
        Dom.Element "p" [Dom.Txt "outside the main content"];
        Dom.Element "main"
          [Dom.Element "h2" [Dom.Txt " Can I  drive? "];
           Dom.Element "p" [Dom.Txt "Yes."];
           Dom.Element "ul" [Dom.Element "li" [Dom.Txt " Unless  you feel dizzy. "]];
           Dom.Element "h3" [Dom.Txt "Can I drink alcohol?"];
           Dom.Element "div" [Dom.Element "p" [Dom.Txt "inside a block"]];
           Dom.Element "h3" [Dom.Txt "Is it addictive?"];
           Dom.Element "p" [Dom.Txt "No."];
           Dom.Element "h2" [Dom.Txt "More in Paracetamol"];
           Dom.Element "p" [Dom.Txt "About paracetamol"]]]].

(** A page with a heading outside its main content, white space around
    and inside its texts, a heading of the third level and a heading
    without text. *)
Definition spacedSections : Dom.node :=
  Dom.Element "html"
    [Dom.Element "body"
       [Dom.Element "h2" [Dom.Txt "Cookies"];
        Dom.Element "p" [Dom.Txt "We use cookies"];
        Dom.Element "main"
          [Dom.Element "h2"
             [Dom.Txt (" Dose" +:+ Pages.newline +:+ "  and ");
              Dom.Element "span" [Dom.Txt "strength  "]];
           Dom.Txt "loose text";
           Dom.Element "p" [Dom.Txt (String "009" " One  tablet ")];
           Dom.Element "div" [Dom.Element "p" [Dom.Txt "nested"]];
           Dom.Element "h3" [Dom.Txt "Children"];
           Dom.Element "ol"
             [Dom.Element "li" [Dom.Txt " half  a tablet"];
              Dom.Element "li" [Dom.Txt "  "]];
           Dom.Element "h2" [Dom.Txt "  "];
           Dom.Element "p" [Dom.Txt "under a heading without text"]]]].

End Shape.

(** * Properties *)

Import Store Scraper Spec Examples.

(** ** Selection *)

Section Selection.

Implicit Types (all : list MedicineTask.t) (targetLimit : Z).

Lemma truncate_sublist targetLimit all :
  (if (0 <? targetLimit)%Z then take (Z.to_nat targetLimit) all else all)
    `sublist_of` all.
Proof. destruct (0 <? targetLimit)%Z; [apply sublist_take | done]. Qed.

Lemma filter_slug_unique all s :
  NoDup (MedicineTask.slug <$> all) →
  length (filter (λ item, MedicineTask.slug item = s) all) ≤ 1.
Proof.
  induction all as [|task rest IH]; intros Hnd; [simpl; lia|].
  rewrite fmap_cons in Hnd. apply NoDup_cons in Hnd as [Hnotin Hnd].
  rewrite filter_cons. case_decide as Heq; [|by apply IH].
  destruct (filter (λ item, MedicineTask.slug item = s) rest) as [|other l] eqn:Hf;
    [simpl; lia|].
  exfalso. apply Hnotin.
  assert (other ∈ filter (λ item, MedicineTask.slug item = s) rest) as Hin
    by (rewrite Hf; left).
  apply list_elem_of_filter in Hin as [Hs Hin].
  rewrite Heq, <- Hs. by apply list_elem_of_fmap_2.
Qed.

Lemma selectTasks_unfold all targetSlug targetLimit :
  selectTasks all targetSlug targetLimit =
    let filtered :=
      if filterGiven targetSlug
      then filter (λ item, Some (MedicineTask.slug item) = targetSlug) all
      else all in
    if (0 <? targetLimit)%Z then take (Z.to_nat targetLimit) filtered else filtered.
Proof.
  unfold selectTasks, filterGiven. destruct targetSlug as [s|]; [|done].
  destruct (Text.truthy s); [|done]. simpl.
  assert (filter (λ item, MedicineTask.slug item = s) all
          = filter (λ item, Some (MedicineTask.slug item) = Some s) all) as ->; [|done].
  apply list_filter_iff. intros x. split; [by intros -> | by intros [= ->]].
Qed.

(** C7, as stated, fails for the empty string as filter: the test
    [targetSlug ? ... : ...] takes it for an absent filter, and tasks whose
    slug differs from the filter are kept. *)
Lemma selectTasks_empty_filter_keeps_all :
  task_a ∈ selectTasks [task_a; task_b] (Some "") 0
  ∧ MedicineTask.slug task_a ≠ "".
Proof. split; [vm_compute; left | discriminate]. Qed.

(** C7 (amended): with a non-empty slug filter [selectTasks] keeps exactly
    the tasks whose slug equals the filter, at most one of them when slugs
    are unique; without a filter, or with the empty string as filter, all
    tasks pass.  Then a limit above 0 keeps the first [limit] items and a
    limit of 0 or below keeps them all; the result is a subsequence of the
    discovered list, so discovery order is preserved. *)
Theorem selectTasks_filter_then_limit all targetSlug targetLimit :
  let filtered :=
    if filterGiven targetSlug
    then filter (λ item, Some (MedicineTask.slug item) = targetSlug) all
    else all in
  selectTasks all targetSlug targetLimit =
    (if (0 <? targetLimit)%Z then take (Z.to_nat targetLimit) filtered else filtered)
  ∧ selectTasks all targetSlug targetLimit `sublist_of` all
  ∧ (∀ item, filterGiven targetSlug = true →
       item ∈ selectTasks all targetSlug targetLimit →
       Some (MedicineTask.slug item) = targetSlug)
  ∧ (filterGiven targetSlug = true → NoDup (MedicineTask.slug <$> all) →
       length (selectTasks all targetSlug targetLimit) ≤ 1)
  ∧ ((0 < targetLimit)%Z →
       (length (selectTasks all targetSlug targetLimit) ≤ Z.to_nat targetLimit)%nat).
Proof.
  intros filtered. rewrite selectTasks_unfold. fold filtered.
  assert (filtered `sublist_of` all) as Hsub.
  { unfold filtered. destruct (filterGiven targetSlug); [apply sublist_filter | done]. }
  split_and!.
  - done.
  - etrans; [apply truncate_sublist | done].
  - intros item Hgiven Hin.
    eapply elem_of_sublist in Hin; [|apply truncate_sublist].
    unfold filtered in Hin. rewrite Hgiven in Hin.
    by apply list_elem_of_filter in Hin as [? _].
  - intros Hgiven Hnd.
    etrans; [apply sublist_length, truncate_sublist|].
    unfold filtered. rewrite Hgiven.
    destruct targetSlug as [s|]; [|done].
    etrans; [|apply (filter_slug_unique all s Hnd)].
    apply Nat.eq_le_incl. f_equal. apply list_filter_iff.
    intros x. split; [by intros [= ->] | by intros ->].
  - intros Hpos. apply Z.ltb_lt in Hpos. rewrite Hpos.
    rewrite length_take. lia.
Qed.

(** The example of the specification: ten tasks, no filter, limit 3. *)
Lemma selectTasks_first_three (t0 t1 t2 t3 t4 t5 t6 t7 t8 t9 : MedicineTask.t) :
  selectTasks [t0; t1; t2; t3; t4; t5; t6; t7; t8; t9] None 3 = [t0; t1; t2].
Proof. done. Qed.

End Selection.

(** ** Cache policy *)

Section CachePolicy.

Implicit Types (disk : Disk) (store : OutputStore) (tasks : list MedicineTask.t).

Lemma fileExists_spec disk path : fileExists disk path = true ↔ is_Some (disk !! path).
Proof. unfold fileExists. by rewrite bool_decide_eq_true. Qed.

Lemma getCachedSlugs_fold disk dir metadata (acc : gset string) s :
  s ∈ foldl (λ (cachedSlugs : gset string) item,
               if fileExists disk
                    (path_resolve dir (OutputMetadataEntry.medicineFilePath item))
               then {[OutputMetadataEntry.slug item]} ∪ cachedSlugs
               else cachedSlugs) acc metadata
  ↔ s ∈ acc
    ∨ Exists (λ item,
                OutputMetadataEntry.slug item = s
                ∧ is_Some (disk !! path_resolve dir
                                     (OutputMetadataEntry.medicineFilePath item)))
             metadata.
Proof.
  revert acc. induction metadata as [|item rest IH]; intros acc; simpl.
  - rewrite Exists_nil. tauto.
  - rewrite IH, Exists_cons.
    destruct (fileExists disk _) eqn:Hex.
    + apply fileExists_spec in Hex.
      rewrite elem_of_union, elem_of_singleton.
      intuition (subst; auto).
    + assert (¬ is_Some (disk !! path_resolve dir
                                  (OutputMetadataEntry.medicineFilePath item))) as Hno.
      { rewrite <- fileExists_spec, Hex. discriminate. }
      tauto.
Qed.

Lemma getCachedSlugs_spec disk store s :
  s ∈ getCachedSlugs disk (outputDir store) (metadata store)
  ↔ hasArtifact disk store s.
Proof.
  unfold getCachedSlugs, hasArtifact. rewrite getCachedSlugs_fold.
  rewrite elem_of_empty. tauto.
Qed.

Lemma filterCached_spec (cached : gset string) tasks skipped :
  filterCached cached tasks skipped =
    (filter (λ task, MedicineTask.slug task ∉ cached) tasks,
     skipped + length (filter (λ task, MedicineTask.slug task ∈ cached) tasks)).
Proof.
  revert skipped. induction tasks as [|task rest IH]; intros skipped; simpl.
  - f_equal. lia.
  - rewrite !filter_cons. destruct (decide (MedicineTask.slug task ∉ cached)) as [Hn|Hn].
    + rewrite IH. simpl. rewrite decide_False by done. done.
    + rewrite IH. rewrite decide_True by (by apply dec_stable). simpl. f_equal. lia.
Qed.

(** C6: a hard refresh runs every task and skips none; otherwise exactly
    the tasks whose slug has an index entry with an existing artifact file
    are dropped and counted, the others run in their order; and the
    decision looks at the existence of the files only, never at what they
    hold. *)
Theorem applyCachePolicy_presence_based disk tasks store :
  applyCachePolicy disk tasks store true = (tasks, 0)
  ∧ applyCachePolicy disk tasks store false =
      (filter (λ task, ¬ hasArtifact disk store (MedicineTask.slug task)) tasks,
       length (filter (λ task, hasArtifact disk store (MedicineTask.slug task)) tasks))
  ∧ (∀ disk' hardRefresh, dom disk' = dom disk →
       applyCachePolicy disk' tasks store hardRefresh
       = applyCachePolicy disk tasks store hardRefresh).
Proof.
  split_and!.
  - done.
  - unfold applyCachePolicy. rewrite filterCached_spec. simpl. f_equal.
    + apply list_filter_iff. intros task. by rewrite getCachedSlugs_spec.
    + f_equal. apply list_filter_iff. intros task. by rewrite getCachedSlugs_spec.
  - intros disk' [] Hdom; [done|].
    unfold applyCachePolicy. f_equal.
    apply set_eq. intros s. rewrite !getCachedSlugs_spec. unfold hasArtifact.
    assert (∀ p, is_Some (disk' !! p) ↔ is_Some (disk !! p)) as Hsame.
    { intros p. by rewrite <- !elem_of_dom, Hdom. }
    split; intros Hex; eapply Exists_impl; try exact Hex;
      intros item [? ?]; split; auto; by apply Hsame.
Qed.

End CachePolicy.

(** ** Strings *)

Section Strings.

Implicit Types (a b c s : string).

Lemma str_app_cons ch a b : String ch a +:+ b = String ch (a +:+ b).
Proof. done. Qed.

Lemma str_app_nil_l b : "" +:+ b = b.
Proof. done. Qed.

Lemma str_app_assoc a b c : (a +:+ b) +:+ c = a +:+ (b +:+ c).
Proof. induction a as [|ch a IH]; [done|]. by rewrite !str_app_cons, IH. Qed.

Lemma str_app_nil_r a : a +:+ "" = a.
Proof. induction a as [|ch a IH]; [done|]. by rewrite str_app_cons, IH. Qed.

Lemma str_list_of_app a b :
  String.list_ascii_of_string (a +:+ b)
  = String.list_ascii_of_string a ++ String.list_ascii_of_string b.
Proof. induction a as [|ch a IH]; [done|]. rewrite str_app_cons. simpl. by rewrite IH. Qed.

Lemma str_app_inj_r a b c : a +:+ c = b +:+ c → a = b.
Proof.
  intros Heq. apply (f_equal String.list_ascii_of_string) in Heq.
  rewrite !str_list_of_app in Heq. apply app_inv_tail in Heq.
  apply (f_equal String.string_of_list_ascii) in Heq.
  by rewrite !String.string_of_list_ascii_of_string in Heq.
Qed.

Lemma strip_prefix_app a b : Text.strip_prefix a (a +:+ b) = Some b.
Proof.
  induction a as [|ch a IH]; [done|].
  rewrite str_app_cons. simpl. by rewrite Ascii.eqb_refl.
Qed.

Lemma truthy_nonempty s : Text.truthy s = true ↔ s ≠ "".
Proof. destruct s; simpl; split; (done || discriminate). Qed.

Lemma or_else_truthy a b : Text.truthy a = true → Text.or_else a b = a.
Proof. unfold Text.or_else. by intros ->. Qed.

End Strings.

(** ** Artifact paths *)

Section ArtifactPaths.

Implicit Types (store : OutputStore) (medicine : Medicine.t).

Lemma path_join_inj dir f g : path_join dir f = path_join dir g → f = g.
Proof.
  unfold path_join. intros Heq.
  apply (inj (String.app dir)) in Heq. by apply (inj (String.app "/")) in Heq.
Qed.

Lemma relative_of_join dir rel : path_relative dir (path_join dir rel) = rel.
Proof.
  unfold path_relative, path_join.
  rewrite <- str_app_assoc. by rewrite strip_prefix_app.
Qed.

Lemma relative_artifactPath store medicine :
  wfStore store →
  path_relative (outputDir store) (artifactPath store medicine)
  = "medicines/" +:+ toMedicineFileName medicine +:+ ".json".
Proof.
  intros [Hdir _]. unfold artifactPath. rewrite Hdir.
  unfold path_join at 1 2. rewrite !str_app_assoc.
  fold (path_join (outputDir store)
          ("medicines" +:+ "/" +:+ toMedicineFileName medicine +:+ ".json")).
  by rewrite relative_of_join.
Qed.

(** C2, as stated, fails: the file name comes from the display name, and
    two tasks with different slugs whose pages are titled "Co-codamol" and
    "Co codamol" are given the same artifact path. *)
Lemma distinct_tasks_share_artifact_path :
  MedicineTask.slug task_a ≠ MedicineTask.slug task_b
  ∧ scrapeMedicine (calm coCodamol) task_a 1 = Ok (medicineOf coCodamol task_a)
  ∧ scrapeMedicine (calm coCodamol) task_b 1 = Ok (medicineOf coCodamol task_b)
  ∧ artifactPath emptyStore (medicineOf coCodamol task_a)
    = artifactPath emptyStore (medicineOf coCodamol task_b).
Proof. split_and!; [discriminate | done..]. Qed.

(** C2 (amended): the artifact path of a record is a function of its derived
    file name, the slugified display name or, when that is empty, the slug
    of its task: two records get the same path exactly when their derived
    file names agree.  In particular records whose display names slugify to
    different non-empty strings, and records with empty slugified names and
    different slugs, are written to different files. *)
Theorem artifactPath_by_file_name store (m1 m2 : Medicine.t) :
  (artifactPath store m1 = artifactPath store m2
   ↔ toMedicineFileName m1 = toMedicineFileName m2)
  ∧ toMedicineFileName m1
    = (if Text.truthy (slugify (Medicine.name m1))
       then slugify (Medicine.name m1) else Medicine.slug m1)
  ∧ (slugify (Medicine.name m1) = "" → slugify (Medicine.name m2) = "" →
     Medicine.slug m1 ≠ Medicine.slug m2 →
     artifactPath store m1 ≠ artifactPath store m2)
  ∧ (slugify (Medicine.name m1) ≠ "" → slugify (Medicine.name m2) ≠ "" →
     slugify (Medicine.name m1) ≠ slugify (Medicine.name m2) →
     artifactPath store m1 ≠ artifactPath store m2).
Proof.
  assert (artifactPath store m1 = artifactPath store m2
          ↔ toMedicineFileName m1 = toMedicineFileName m2) as Hiff.
  { unfold artifactPath. split; [|by intros ->].
    intros Heq%path_join_inj. by apply str_app_inj_r in Heq. }
  split_and!; [done | done | |].
  - intros H1 H2 Hne. rewrite Hiff. unfold toMedicineFileName. by rewrite H1, H2.
  - intros H1 H2 Hne. rewrite Hiff. unfold toMedicineFileName.
    apply truthy_nonempty in H1, H2. by rewrite !or_else_truthy.
Qed.

End ArtifactPaths.

(** ** The metadata index *)

Section Upsert.

Implicit Types (metadata : list OutputMetadataEntry.t) (store : OutputStore).

Local Abbreviation mk s n p :=
  {| OutputMetadataEntry.slug := s;
     OutputMetadataEntry.medicineName := n;
     OutputMetadataEntry.medicineFilePath := p |}.

Lemma upsert_nil s n p : upsertMetadata [] s n p = [mk s n p].
Proof. done. Qed.

Lemma upsert_cons item metadata s n p :
  upsertMetadata (item :: metadata) s n p =
    if decide (OutputMetadataEntry.slug item = s)
    then mk s n p :: metadata
    else item :: upsertMetadata metadata s n p.
Proof.
  unfold upsertMetadata. simpl. case_decide; [done|].
  destruct (list_find _ metadata) as [[i found]|]; done.
Qed.

Lemma upsert_entriesFor_other metadata s s' n p :
  s' ≠ s →
  entriesFor s' (upsertMetadata metadata s n p) = entriesFor s' metadata.
Proof.
  unfold entriesFor. intros Hne. induction metadata as [|item rest IH].
  - rewrite upsert_nil. by rewrite filter_cons_False.
  - rewrite upsert_cons. case_decide as Hs.
    + rewrite filter_cons_False by done.
      rewrite filter_cons_False by (by rewrite Hs). done.
    + rewrite !filter_cons. by rewrite IH.
Qed.

(** An existing slug is replaced where it stands. *)
Lemma upsert_in_place metadata s n p i item :
  metadata !! i = Some item →
  OutputMetadataEntry.slug item = s →
  (∀ j other, metadata !! j = Some other → j < i → OutputMetadataEntry.slug other ≠ s) →
  upsertMetadata metadata s n p = <[i := mk s n p]> metadata.
Proof.
  intros Hi Hs Hfirst. unfold upsertMetadata.
  assert (list_find (λ item, OutputMetadataEntry.slug item = s) metadata
          = Some (i, item)) as ->; [|done].
  apply list_find_Some. split_and!; [done | done |].
  intros j other Hj Hlt. by eapply Hfirst.
Qed.

(** A new slug goes to the end. *)
Lemma upsert_append metadata s n p :
  (∀ item, item ∈ metadata → OutputMetadataEntry.slug item ≠ s) →
  upsertMetadata metadata s n p = metadata ++ [mk s n p].
Proof.
  intros Hnew. unfold upsertMetadata.
  assert (list_find (λ item, OutputMetadataEntry.slug item = s) metadata = None) as ->;
    [|done].
  apply list_find_None, Forall_forall. intros item Hin. by apply Hnew.
Qed.

(** Unique slugs stay unique. *)
Lemma upsert_NoDup metadata s n p :
  NoDup (OutputMetadataEntry.slug <$> metadata) →
  NoDup (OutputMetadataEntry.slug <$> upsertMetadata metadata s n p).
Proof.
  induction metadata as [|item rest IH]; intros Hnd.
  - rewrite upsert_nil. simpl. apply NoDup_singleton.
  - rewrite upsert_cons. rewrite fmap_cons in Hnd.
    apply NoDup_cons in Hnd as [Hnotin Hnd]. case_decide as Hs.
    + rewrite fmap_cons. simpl. apply NoDup_cons. by rewrite <- Hs.
    + rewrite fmap_cons. apply NoDup_cons. split; [|by apply IH].
      intros Hin. apply list_elem_of_fmap in Hin as (e & Heq & Hin).
      assert (e ∈ entriesFor (OutputMetadataEntry.slug item)
                    (upsertMetadata rest s n p)) as Hin'.
      { unfold entriesFor. by apply list_elem_of_filter. }
      rewrite upsert_entriesFor_other in Hin' by done.
      apply list_elem_of_filter in Hin' as [_ Hin'].
      apply Hnotin. rewrite Heq. by apply list_elem_of_fmap_2.
Qed.

Lemma upsert_entriesFor_first metadata s n p :
  entriesFor s (upsertMetadata metadata s n p)
  = mk s n p :: drop 1 (entriesFor s metadata).
Proof.
  unfold entriesFor. induction metadata as [|item rest IH].
  - rewrite upsert_nil. by rewrite filter_cons_True.
  - rewrite upsert_cons. rewrite (filter_cons _ item). case_decide as Hs.
    + rewrite filter_cons_True by done. simpl. by rewrite drop_0.
    + by rewrite filter_cons_False.
Qed.

Lemma upsert_find metadata s n p :
  ∃ i, list_find (λ item, OutputMetadataEntry.slug item = s)
                 (upsertMetadata metadata s n p) = Some (i, mk s n p).
Proof.
  induction metadata as [|item rest [i IH]].
  - exists 0. rewrite upsert_nil. simpl. by rewrite decide_True.
  - rewrite upsert_cons. case_decide as Hs.
    + exists 0. simpl. by rewrite decide_True.
    + exists (S i). simpl. rewrite decide_False by done. by rewrite IH.
Qed.

Lemma writeFile_ok write_error disk path data disk' :
  writeFile write_error disk path data = (Ok tt, disk') →
  write_error path = None ∧ disk' = <[path := data]> disk.
Proof.
  unfold writeFile. destruct (write_error path) as [[e|e written]|]; [done | done |].
  by intros [= <-].
Qed.

Lemma persistMedicine_ok write_error task medicine store disk store' disk' :
  wfStore store →
  persistMedicine write_error task medicine store disk = (Ok tt, store', disk') →
  wfStore store'
  ∧ outputDir store' = outputDir store
  ∧ metadata store'
    = upsertMetadata (metadata store) (MedicineTask.slug task)
        (Medicine.name medicine)
        (OutputMetadataEntry.medicineFilePath (entryOf task medicine))
  ∧ disk' = <[metadataPath store := MetadataJson (metadata store')]>
              (<[artifactPath store medicine := MedicineJson medicine]> disk).
Proof.
  intros Hwf. unfold persistMedicine.
  rewrite relative_artifactPath by done.
  destruct (writeFile write_error disk _ _) as [[[]|e] disk1] eqn:Hw1; [|done].
  apply writeFile_ok in Hw1 as [_ ->]. cbn [metadataPath].
  destruct (writeFile write_error _ (metadataPath store) _) as [[[]|e] disk2] eqn:Hw2;
    [|done].
  apply writeFile_ok in Hw2 as [_ ->].
  intros [= <- <-]. done.
Qed.

Lemma persistAll_snoc write_error steps task medicine store disk store' disk' :
  persistAll write_error (steps ++ [(task, medicine)]) store disk
    = (Ok tt, store', disk') →
  ∃ store1 disk1,
    persistAll write_error steps store disk = (Ok tt, store1, disk1)
    ∧ persistMedicine write_error task medicine store1 disk1 = (Ok tt, store', disk').
Proof.
  revert store disk. induction steps as [|[t m] rest IH]; intros store disk; simpl.
  - destruct (persistMedicine _ _ _ _ _) as [[[[]|e] st] d] eqn:Hp; [|discriminate].
    intros [= <- <-]. by exists store, disk.
  - destruct (persistMedicine _ _ _ _ _) as [[[[]|e] st] d] eqn:Hp; [|discriminate].
    apply IH.
Qed.

Lemma persistAll_entries write_error steps s store disk store' disk' :
  wfStore store →
  Forall (λ step, MedicineTask.slug step.1 = s) steps →
  persistAll write_error steps store disk = (Ok tt, store', disk') →
  wfStore store'
  ∧ drop 1 (entriesFor s (metadata store')) = drop 1 (entriesFor s (metadata store)).
Proof.
  intros Hwf Hsame. revert store disk Hwf.
  induction Hsame as [|[t m] rest Hslug Hrest IH]; intros store disk Hwf; simpl.
  - by intros [= <- <-].
  - destruct (persistMedicine _ _ _ _ _) as [[[[]|e] st] d] eqn:Hp; [|discriminate].
    apply persistMedicine_ok in Hp as (Hwf' & _ & Hm & _); [|done].
    intros Hall. destruct (IH st d Hwf' Hall) as [Hwf'' Hdrop].
    split; [done|]. rewrite Hdrop, Hm. simpl in Hslug. rewrite Hslug.
    by rewrite upsert_entriesFor_first.
Qed.

(** C5, as stated, fails on an index that holds a slug twice, which
    [loadMetadata] loads as it is: [upsertMetadata] replaces the first
    entry of the slug and leaves the second, so two entries remain after
    the persist. *)
Lemma duplicate_slug_survives_upsert :
  let twice :=
    [{| OutputMetadataEntry.slug := "a"; OutputMetadataEntry.medicineName := "A";
        OutputMetadataEntry.medicineFilePath := "medicines/A.json" |};
     {| OutputMetadataEntry.slug := "a"; OutputMetadataEntry.medicineName := "A2";
        OutputMetadataEntry.medicineFilePath := "medicines/A2.json" |}] in
  let disk : Disk := {[ "/data/metadata.json" := MetadataJson twice ]} in
  let medicine := medicineOf (λ _, "Paracetamol") task_a in
  ∃ store store' disk',
    prepareOutputStore (λ path, path) (λ _, None) (λ path, path) disk "/data" = Ok store
    ∧ metadata store = twice
    ∧ persistMedicine (λ _, None) task_a medicine store disk = (Ok tt, store', disk')
    ∧ entriesFor "a" (metadata store')
      = [entryOf task_a medicine;
         {| OutputMetadataEntry.slug := "a"; OutputMetadataEntry.medicineName := "A2";
            OutputMetadataEntry.medicineFilePath := "medicines/A2.json" |}]
    ∧ length (entriesFor "a" (metadata store')) ≠ 1.
Proof.
  intros twice disk medicine. eexists _, _, _.
  split_and!; [reflexivity | reflexivity | reflexivity | reflexivity | discriminate].
Qed.

(** C5 (amended): after every persist of a sequence of successful persists
    sharing a slug, the first entry of the index for that slug, the one a
    lookup by slug finds, is the one derived from the record persisted last,
    and the index file holds the index; the further entries of that slug,
    if the index held the slug more than once, stay as they were, so that
    the entry is the only one of its slug exactly when the index held the
    slug at most once before.  An upsert of a slug already present replaces
    the first entry of that slug where it stands, leaving length and all
    other positions as they are, an upsert of a new slug appends at the
    end, and no upsert makes two entries share a slug. *)
Theorem upsert_invariant write_error steps task medicine store disk store' disk' :
  wfStore store →
  Forall (λ step, MedicineTask.slug step.1 = MedicineTask.slug task) steps →
  persistAll write_error (steps ++ [(task, medicine)]) store disk
    = (Ok tt, store', disk') →
  entriesFor (MedicineTask.slug task) (metadata store')
  = entryOf task medicine
      :: drop 1 (entriesFor (MedicineTask.slug task) (metadata store))
  ∧ (∃ i, list_find (λ item, OutputMetadataEntry.slug item = MedicineTask.slug task)
                    (metadata store') = Some (i, entryOf task medicine))
  ∧ (entriesFor (MedicineTask.slug task) (metadata store') = [entryOf task medicine]
     ↔ length (entriesFor (MedicineTask.slug task) (metadata store)) ≤ 1)
  ∧ disk' !! metadataPath store' = Some (MetadataJson (metadata store'))
  ∧ (∀ metadata s n p i item,
       metadata !! i = Some item → OutputMetadataEntry.slug item = s →
       (∀ j other, metadata !! j = Some other → j < i →
                   OutputMetadataEntry.slug other ≠ s) →
       upsertMetadata metadata s n p = <[i := mk s n p]> metadata
       ∧ length (upsertMetadata metadata s n p) = length metadata
       ∧ upsertMetadata metadata s n p !! i = Some (mk s n p)
       ∧ ∀ j, j ≠ i → upsertMetadata metadata s n p !! j = metadata !! j)
  ∧ (∀ metadata s n p,
       (∀ item, item ∈ metadata → OutputMetadataEntry.slug item ≠ s) →
       upsertMetadata metadata s n p = metadata ++ [mk s n p])
  ∧ (∀ metadata s n p,
       NoDup (OutputMetadataEntry.slug <$> metadata) →
       NoDup (OutputMetadataEntry.slug <$> upsertMetadata metadata s n p)).
Proof.
  intros Hwf Hsame Hall.
  apply persistAll_snoc in Hall as (store1 & disk1 & Hsteps & Hlast).
  apply persistAll_entries with (s := MedicineTask.slug task) in Hsteps
    as [Hwf1 Hdrop]; [| done | done].
  apply persistMedicine_ok in Hlast as ((_ & Hmp) & Hdir & Hmeta & Hdisk); [|done].
  assert (entriesFor (MedicineTask.slug task) (metadata store')
          = entryOf task medicine
              :: drop 1 (entriesFor (MedicineTask.slug task) (metadata store)))
    as Hentries.
  { by rewrite Hmeta, upsert_entriesFor_first, Hdrop. }
  split_and!.
  - done.
  - rewrite Hmeta. apply upsert_find.
  - rewrite Hentries. split.
    + intros [= Hnil]. destruct (entriesFor _ (metadata store)) as [|e [|e' l]];
        simpl in *; (lia || done).
    + intros Hle. destruct (entriesFor _ (metadata store)) as [|e [|e' l]];
        simpl in *; (done || lia).
  - destruct Hwf1 as [_ Hmp1]. rewrite Hdisk, Hmp, Hdir, <- Hmp1.
    apply lookup_insert_eq.
  - intros metadata s n p i item Hi Hs Hfirst.
    rewrite (upsert_in_place _ _ _ _ _ _ Hi Hs Hfirst).
    assert (i < length metadata) by (by eapply lookup_lt_Some).
    split_and!; [done | by rewrite length_insert | by apply list_lookup_insert_eq |].
    intros j Hne. by apply list_lookup_insert_ne.
  - apply upsert_append.
  - apply upsert_NoDup.
Qed.

End Upsert.

(** Two persists of task [a], first titled "Paracetamol tablets", then
    "Paracetamol", into the empty store. *)
Lemma upsert_invariant_witness :
  let old := medicineOf (λ _, "Paracetamol tablets") task_a in
  let new := medicineOf (λ _, "Paracetamol") task_a in
  let done := persistAll (λ _, None) [(task_a, old); (task_a, new)] emptyStore ∅ in
  wfStore emptyStore
  ∧ Forall (λ step, MedicineTask.slug step.1 = MedicineTask.slug task_a) [(task_a, old)]
  ∧ done = (Ok tt, done.1.2, done.2)
  ∧ entriesFor (MedicineTask.slug task_a) (metadata done.1.2) = [entryOf task_a new].
Proof.
  intros old new done.
  assert (wfStore emptyStore) as Hwf by (split; reflexivity).
  assert (Forall (λ step, MedicineTask.slug step.1 = MedicineTask.slug task_a)
                 [(task_a, old)]) as Hsame by (repeat constructor).
  assert (done = (Ok tt, done.1.2, done.2)) as Hdone by reflexivity.
  split_and!; [done..|].
  exact (proj1 (upsert_invariant (λ _, None) [(task_a, old)] task_a new
                  emptyStore ∅ done.1.2 done.2 Hwf Hsame Hdone)).
Defined.

(** ** Retrying extraction *)

Section Retrying.

Implicit Types (world : World) (appConfig : AppConfig.t) (task : MedicineTask.t).

Lemma attemptCount_numbers trace :
  Retry.attemptCount trace = length (Retry.attemptNumbers trace).
Proof.
  unfold Retry.attemptCount, Retry.attemptNumbers.
  induction trace as [|[n|n r e|ms] rest IH]; simpl; auto.
Qed.

(** What [pRetry] does, whatever the attempts do: it makes [k + 1] attempts
    for some [k] within the retries allowed; the attempts before the last
    failed with errors it retries, and it stopped short of the retries
    allowed only on a success or on an error it rethrows at once. *)
Lemma attempts_general {A} (fn : nat → outcome A) o retriesLeft n :
  ∃ k, k ≤ retriesLeft
       ∧ Retry.attemptNumbers (Retry.attempts fn o retriesLeft n).2 = seq n (S k)
       ∧ Retry.delays (Retry.attempts fn o retriesLeft n).2
         = Retry.timeout o <$> seq n k
       ∧ (Retry.attempts fn o retriesLeft n).1 = fn (n + k)
       ∧ (∀ j, j < k → ∃ e, fn (n + j) = Thrown e ∧ Retry.rethrown e = false)
       ∧ (k < retriesLeft →
          (∃ a, fn (n + k) = Ok a)
          ∨ ∃ e, fn (n + k) = Thrown e ∧ Retry.rethrown e = true).
Proof.
  revert n. induction retriesLeft as [|r IH]; intros n; simpl.
  - exists 0. rewrite Nat.add_0_r. destruct (fn n) as [a|e] eqn:Hfn; simpl;
      (split_and!; [lia | done | done | done | lia | lia]).
  - destruct (fn n) as [a|e] eqn:Hfn; simpl.
    + exists 0. rewrite Nat.add_0_r, Hfn.
      split_and!; [lia | done | done | done | lia | by eauto].
    + destruct (Retry.rethrown e) eqn:He; simpl.
      * exists 0. rewrite Nat.add_0_r, Hfn.
        split_and!; [lia | done | done | done | lia | by eauto].
      * destruct (IH (S n)) as (k & Hk & Hnum & Hdel & Hres & Hfail & Hok).
        exists (S k). rewrite Hnum, Hdel, Hres.
        replace (n + S k) with (S n + k) by lia.
        split_and!; [lia | done | done | done | | intros; apply Hok; lia].
        intros [|j] Hj; [rewrite Nat.add_0_r; by eauto|].
        replace (n + S j) with (S n + j) by lia. apply Hfail. lia.
Qed.

Lemma timeout_fixed appConfig n :
  Retry.timeout (retryOptions appConfig) n = AppConfig.retryDelayMs appConfig.
Proof.
  unfold Retry.timeout, retryOptions. simpl.
  rewrite Z.pow_1_l by lia. lia.
Qed.

Lemma timeouts_fixed appConfig n r :
  Retry.timeout (retryOptions appConfig) <$> seq n r
  = replicate r (AppConfig.retryDelayMs appConfig).
Proof.
  revert n. induction r as [|r IH]; intros n; [done|].
  simpl. by rewrite timeout_fixed, IH.
Qed.

Lemma scrapeMedicine_fails world task n e :
  render world task n = Thrown e ↔ scrapeMedicine world task n = Thrown e.
Proof.
  unfold scrapeMedicine. destruct (render world task n); split; congruence.
Qed.

(** The attempts [retryScrapeMedicine] makes, whatever the pages do. *)
Lemma retry_general world appConfig task :
  let attempt := retryScrapeMedicine world appConfig task in
  let budget := Z.to_nat (Z.max 1 (AppConfig.retryAttempts appConfig)) in
  ∃ n, 1 ≤ n ≤ budget
       ∧ Retry.attemptNumbers attempt.2 = seq 1 n
       ∧ Retry.delays attempt.2 = replicate (n - 1) (AppConfig.retryDelayMs appConfig)
       ∧ attempt.1 = scrapeMedicine world task n
       ∧ (∀ j, 1 ≤ j < n →
               ∃ e, scrapeMedicine world task j = Thrown e ∧ Retry.rethrown e = false)
       ∧ (n < budget →
          (∃ medicine, scrapeMedicine world task n = Ok medicine)
          ∨ ∃ e, scrapeMedicine world task n = Thrown e ∧ Retry.rethrown e = true).
Proof.
  intros attempt budget.
  destruct (attempts_general (λ k, scrapeMedicine world task k) (retryOptions appConfig)
              (Retry.retries (retryOptions appConfig)) 1)
    as (k & Hk & Hnum & Hdel & Hres & Hfail & Hok).
  assert (S (Retry.retries (retryOptions appConfig)) = budget) as Hbudget.
  { unfold budget, retryOptions. simpl. lia. }
  exists (S k). split_and!; [lia | lia | done | | done | |].
  - unfold attempt, retryScrapeMedicine, Retry.pRetry. rewrite Hdel, timeouts_fixed.
    f_equal. lia.
  - intros j [Hj1 Hj2]. destruct j as [|j]; [lia|]. apply (Hfail j). lia.
  - intros Hlt. apply Hok. lia.
Qed.

(** The counting of a task whose extraction ends in an error. *)
Lemma process_failed_extraction world appConfig task sh e :
  (retryScrapeMedicine world appConfig task).1 = Thrown e →
  let sh' := processMedicineTask world appConfig task sh in
  outputStore sh' = outputStore sh
  ∧ disk sh' = disk sh
  ∧ st_succeeded (state sh') = st_succeeded (state sh)
  ∧ (new_page world task = None →
     st_completed (state sh') = st_completed (state sh) + 1
     ∧ st_failed (state sh') = st_failed (state sh) + 1)
  ∧ (is_Some (new_page world task) → state sh' = state sh).
Proof.
  intros Hfail. unfold processMedicineTask, processBody. rewrite Hfail.
  destruct (new_page world task) as [e1|]; simpl.
  - split_and!; [done | done | done | done | done].
  - destruct (close_page world task) as [e2|]; simpl;
      (split_and!; [done | done | lia | by intros _ | by intros [? ?]]).
Qed.

(** C3, as stated, fails for [retryAttempts = 0], which the configuration
    allows: the retries are [max(0, retryAttempts - 1)], so one attempt is
    made, not none. *)
Lemma zero_retryAttempts_attempts_once :
  AppConfig.retryAttempts (appConfig 0) = 0%Z
  ∧ (∀ n, scrapeMedicine offline task_a n = Thrown (Error "Navigation failed 503"))
  ∧ Retry.attemptCount (retryScrapeMedicine offline (appConfig 0) task_a).2 = 1
  ∧ Retry.attemptCount (retryScrapeMedicine offline (appConfig 0) task_a).2
    ≠ Z.to_nat (AppConfig.retryAttempts (appConfig 0)).
Proof. split_and!; [done | done | done | discriminate]. Qed.

(** It fails as well when an attempt raises a [TypeError] that is no
    network error, as [new URL] does on a link that is no URL: [p-retry]
    rethrows it at once, so with [retryAttempts = 3] one attempt is made. *)
Lemma type_error_ends_retries :
  (∀ n, scrapeMedicine malformed task_a n = Thrown (TypeError "Invalid URL"))
  ∧ (retryScrapeMedicine malformed (appConfig 3) task_a).1
    = Thrown (TypeError "Invalid URL")
  ∧ Retry.attemptCount (retryScrapeMedicine malformed (appConfig 3) task_a).2 = 1
  ∧ Retry.delays (retryScrapeMedicine malformed (appConfig 3) task_a).2 = [].
Proof. split_and!; done. Qed.

(** C3 (amended): a task whose every extraction attempt fails is attempted
    [n] times, numbered from 1, for some [n] from 1 to
    [max(1, retryAttempts)], with the delay [retryDelayMs] between two
    attempts, [n - 1] delays in all; the error of the last attempt is the
    result; the attempts stop short of [max(1, retryAttempts)] only at an
    error that [p-retry] does not retry, a [TypeError] that is no network
    error; when no attempt raises such an error there are exactly
    [max(1, retryAttempts)] attempts, that is [retryAttempts] when
    [retryAttempts >= 1].  The task never produces an artifact: store and
    disk stay as they are; it is not counted as succeeded, and it is
    counted as completed and as failed once its page could be opened, and
    not counted at all otherwise. *)
Theorem retry_budget_exhaustion world appConfig task sh :
  (∀ n, ∃ e, render world task n = Thrown e) →
  let attempt := retryScrapeMedicine world appConfig task in
  let budget := Z.to_nat (Z.max 1 (AppConfig.retryAttempts appConfig)) in
  let sh' := processMedicineTask world appConfig task sh in
  (∃ n e, 1 ≤ n ≤ budget
          ∧ attempt.1 = Thrown e ∧ render world task n = Thrown e
          ∧ Retry.attemptCount attempt.2 = n
          ∧ Retry.attemptNumbers attempt.2 = seq 1 n
          ∧ Retry.delays attempt.2
            = replicate (n - 1) (AppConfig.retryDelayMs appConfig)
          ∧ (∀ j e', 1 ≤ j < n → render world task j = Thrown e' →
                     Retry.rethrown e' = false)
          ∧ (n < budget → Retry.rethrown e = true))
  ∧ ((∀ n e, render world task n = Thrown e → Retry.rethrown e = false) →
     Retry.attemptCount attempt.2 = budget
     ∧ Retry.attemptNumbers attempt.2 = seq 1 budget
     ∧ Retry.delays attempt.2
       = replicate (budget - 1) (AppConfig.retryDelayMs appConfig))
  ∧ ((1 ≤ AppConfig.retryAttempts appConfig)%Z →
     budget = Z.to_nat (AppConfig.retryAttempts appConfig))
  ∧ outputStore sh' = outputStore sh
  ∧ disk sh' = disk sh
  ∧ st_succeeded (state sh') = st_succeeded (state sh)
  ∧ (new_page world task = None →
     st_completed (state sh') = st_completed (state sh) + 1
     ∧ st_failed (state sh') = st_failed (state sh) + 1)
  ∧ (is_Some (new_page world task) → state sh' = state sh).
Proof.
  intros Hfail attempt budget sh'.
  destruct (retry_general world appConfig task)
    as (n & Hn & Hnum & Hdel & Hres & Hbefore & Hshort).
  fold attempt in Hnum, Hdel, Hres. fold budget in Hn, Hshort.
  destruct (Hfail n) as [e He].
  assert (attempt.1 = Thrown e) as Hthrown.
  { rewrite Hres. by apply scrapeMedicine_fails. }
  assert (n < budget → Retry.rethrown e = true) as Hstop.
  { intros Hlt. destruct (Hshort Hlt) as [[medicine Hok]|(e' & He' & Hre)].
    - apply scrapeMedicine_fails in He. congruence.
    - apply scrapeMedicine_fails in He'. congruence. }
  split; [|split; [|split]].
  - exists n, e. split_and!; [lia | lia | done | done | | done | done | | done].
    + by rewrite attemptCount_numbers, Hnum, length_seq.
    + intros j e' Hj He'. destruct (Hbefore j Hj) as (e'' & He'' & Hre).
      apply scrapeMedicine_fails in He'. congruence.
  - intros Hretried.
    assert (n = budget) as ->.
    { destruct (decide (n < budget)) as [Hlt|Hge]; [|lia].
      rewrite (Hretried n e He) in Hstop. by specialize (Hstop Hlt). }
    split_and!; [by rewrite attemptCount_numbers, Hnum, length_seq | done | done].
  - unfold budget. lia.
  - by apply process_failed_extraction with (e := e).
Qed.

(** Three attempts and two delays of 750 ms against a site that is down. *)
Lemma retry_budget_exhaustion_witness :
  (∀ n, ∃ e, render offline task_a n = Thrown e)
  ∧ Retry.attemptCount (retryScrapeMedicine offline (appConfig 3) task_a).2 = 3
  ∧ Retry.delays (retryScrapeMedicine offline (appConfig 3) task_a).2
    = [750%Z; 750%Z].
Proof.
  assert (∀ n, ∃ e, render offline task_a n = Thrown e) as Hfail
    by (intros n; eexists; reflexivity).
  pose proof (retry_budget_exhaustion offline (appConfig 3) task_a
                {| state := {| st_succeeded := 0; st_completed := 0; st_failed := 0 |};
                   outputStore := emptyStore; disk := ∅; rejected := [] |} Hfail)
    as (_ & Hall & _).
  assert (∀ n e, render offline task_a n = Thrown e → Retry.rethrown e = false)
    as Hretried by (by intros n e [= <-]).
  destruct (Hall Hretried) as (Hcount & _ & Hdelays).
  split_and!; [exact Hfail | exact Hcount | exact Hdelays].
Defined.

End Retrying.

(** ** The task queue *)

Section TaskQueue.

Context {A : Type}.
Implicit Types (q : PQueue.t A) (job : A).

Lemma new_ok (c : Z) :
  (1 ≤ c)%Z →
  PQueue.new (A:=A) c
  = Ok {| PQueue.concurrency := Z.to_nat c; PQueue.queue := []; PQueue.pending := [] |}.
Proof. intros Hc. unfold PQueue.new. by rewrite (proj2 (Z.ltb_ge c 1) Hc). Qed.

Lemma new_inv (c : Z) q :
  PQueue.new c = Ok q →
  (1 ≤ c)%Z ∧ PQueue.concurrency q = Z.to_nat c
  ∧ PQueue.queue q = [] ∧ PQueue.pending q = [].
Proof.
  unfold PQueue.new. destruct (c <? 1)%Z eqn:Hc; [discriminate|].
  intros [= <-]. apply Z.ltb_ge in Hc. done.
Qed.

Lemma tryToStartAnother_jobs q : jobs (PQueue.tryToStartAnother q) = jobs q.
Proof.
  unfold PQueue.tryToStartAnother, jobs.
  destruct (PQueue.queue q) as [|job rest] eqn:Hq; [by rewrite Hq|].
  destruct (_ <? _); simpl; [|by rewrite Hq]. by rewrite <- app_assoc.
Qed.

Lemma tryToStartAnother_concurrency q :
  PQueue.concurrency (PQueue.tryToStartAnother q) = PQueue.concurrency q.
Proof.
  unfold PQueue.tryToStartAnother.
  destruct (PQueue.queue q); [done|]. by destruct (_ <? _).
Qed.

Lemma tryToStartAnother_wf q :
  1 ≤ PQueue.concurrency q →
  length (PQueue.pending q) ≤ PQueue.concurrency q →
  (2 ≤ length (PQueue.queue q) →
   PQueue.concurrency q ≤ length (PQueue.pending q) + 1) →
  wfQueue (PQueue.tryToStartAnother q).
Proof.
  intros Hc Hle Hfull. unfold PQueue.tryToStartAnother, wfQueue.
  destruct (PQueue.queue q) as [|job rest] eqn:Hq.
  - rewrite Hq. done.
  - destruct (_ <? _) eqn:Hlt; simpl.
    + apply Nat.ltb_lt in Hlt. rewrite length_app. simpl.
      split_and!; [done | lia |]. intros Hrest.
      destruct rest; [done|]. simpl in Hfull. lia.
    + apply Nat.ltb_ge in Hlt. rewrite Hq. split_and!; [done | done | lia].
Qed.

Lemma add_jobs q job : jobs (PQueue.add q job) = jobs q ++ [job].
Proof.
  unfold PQueue.add. rewrite tryToStartAnother_jobs. unfold jobs. simpl.
  by rewrite app_assoc.
Qed.

Lemma add_concurrency q job :
  PQueue.concurrency (PQueue.add q job) = PQueue.concurrency q.
Proof. unfold PQueue.add. by rewrite tryToStartAnother_concurrency. Qed.

Lemma add_wf q job : wfQueue q → wfQueue (PQueue.add q job).
Proof.
  intros (Hc & Hle & Hfull). unfold PQueue.add.
  apply tryToStartAnother_wf; simpl; [done | done |].
  rewrite length_app. simpl. intros Hlen.
  rewrite Hfull; [lia|]. destruct (PQueue.queue q); [simpl in Hlen; lia | done].
Qed.

Lemma delete_app_lt (l1 l2 : list A) i :
  i < length l1 → delete i (l1 ++ l2) = delete i l1 ++ l2.
Proof.
  revert i. induction l1 as [|x l1 IH]; intros [|i] Hi; simpl in *; try lia; [done|].
  f_equal. apply IH. lia.
Qed.

Lemma settle_jobs q i job :
  PQueue.pending q !! i = Some job →
  jobs (PQueue.settle q i) = delete i (jobs q).
Proof.
  intros Hi. unfold PQueue.settle. rewrite tryToStartAnother_jobs.
  unfold jobs. simpl.
  apply lookup_lt_Some in Hi. by rewrite delete_app_lt.
Qed.

Lemma settle_concurrency q i :
  PQueue.concurrency (PQueue.settle q i) = PQueue.concurrency q.
Proof. unfold PQueue.settle. by rewrite tryToStartAnother_concurrency. Qed.

Lemma settle_wf q i job :
  PQueue.pending q !! i = Some job → wfQueue q → wfQueue (PQueue.settle q i).
Proof.
  intros Hi (Hc & Hle & Hfull). unfold PQueue.settle.
  assert (length (delete i (PQueue.pending q)) = length (PQueue.pending q) - 1)
    as Hdel by (apply length_delete; eauto).
  apply lookup_lt_Some in Hi.
  apply tryToStartAnother_wf; simpl; rewrite ?Hdel; [done | lia |].
  intros Hlen.
  rewrite Hfull; [lia|]. destruct (PQueue.queue q); [simpl in Hlen; lia | done].
Qed.

Lemma wf_pending_nil q : wfQueue q → PQueue.pending q = [] → PQueue.queue q = [].
Proof.
  intros (Hc & _ & Hfull) Hp. destruct (PQueue.queue q) as [|job rest] eqn:Hq; [done|].
  rewrite Hp in Hfull. simpl in Hfull. rewrite <- Hfull in Hc; [lia | done].
Qed.

Lemma isIdle_jobs q : PQueue.isIdle q = true ↔ jobs q = [].
Proof.
  unfold PQueue.isIdle, jobs.
  destruct (PQueue.queue q), (PQueue.pending q); simpl; split; (done || discriminate).
Qed.

Lemma adds_wf_jobs q (l : list A) :
  wfQueue q →
  wfQueue (foldl PQueue.add q l)
  ∧ jobs (foldl PQueue.add q l) = jobs q ++ l
  ∧ PQueue.concurrency (foldl PQueue.add q l) = PQueue.concurrency q.
Proof.
  revert q. induction l as [|job rest IH]; intros q Hwf; simpl.
  - by rewrite app_nil_r.
  - destruct (IH (PQueue.add q job) (add_wf q job Hwf)) as (Hwf' & Hjobs & Hc).
    split_and!; [done | | by rewrite Hc, add_concurrency].
    rewrite Hjobs, add_jobs. by rewrite <- app_assoc.
Qed.

End TaskQueue.

(** ** The scheduler *)

Section Scheduler.

Implicit Types (world : World) (appConfig : AppConfig.t) (sh : Shared)
  (q : PQueue.t MedicineTask.t) (tasks : list MedicineTask.t) (s : Sched).

Lemma drain_spec world appConfig fuel k q sh :
  wfQueue q → length (jobs q) ≤ fuel →
  ∃ order,
    order ≡ₚ jobs q
    ∧ (drain world appConfig fuel k q sh).2 = processAll world appConfig order sh
    ∧ PQueue.isIdle (drain world appConfig fuel k q sh).1 = true.
Proof.
  revert k q sh. induction fuel as [|fuel IH]; intros k q sh Hwf Hlen.
  - exists []. destruct (jobs q) eqn:Hj; [|simpl in Hlen; lia].
    split_and!; [done | done |]. simpl. by apply isIdle_jobs.
  - simpl. destruct (PQueue.pending q) as [|job running] eqn:Hp.
    + assert (PQueue.queue q = []) as Hq by (by apply wf_pending_nil).
      rewrite lookup_nil. exists []. unfold jobs. rewrite Hp, Hq.
      split_and!; [done | done |]. simpl. unfold PQueue.isIdle. by rewrite Hp, Hq.
    + rewrite <- Hp.
      assert (pick world k `mod` length (PQueue.pending q) < length (PQueue.pending q))
        as Hlt by (apply Nat.mod_upper_bound; rewrite Hp; done).
      destruct (lookup_lt_is_Some_2 _ _ Hlt) as [task Htask].
      rewrite Htask.
      set (i := pick world k `mod` length (PQueue.pending q)) in *.
      assert (jobs q !! i = Some task) as Hjob.
      { unfold jobs. by apply lookup_app_l_Some. }
      destruct (IH (S k) (PQueue.settle q i)
                  (processMedicineTask world appConfig task sh)) as (order & Hperm & Hsh & Hidle).
      { by eapply settle_wf. }
      { rewrite (settle_jobs q i task Htask).
        rewrite length_delete by eauto. lia. }
      exists (task :: order). split_and!; [| done | done].
      rewrite Hperm, (settle_jobs q i task Htask).
      symmetry. by apply delete_Permutation.
Qed.

Lemma runTaskQueue_spec world appConfig tasks parallelTabs sh :
  (1 ≤ parallelTabs)%Z →
  ∃ q order,
    runTaskQueue world appConfig tasks parallelTabs (length tasks) sh
    = Ok (q, processAll world appConfig order sh)
    ∧ order ≡ₚ tasks ∧ PQueue.isIdle q = true.
Proof.
  intros Hp. unfold runTaskQueue.
  rewrite new_ok by (unfold queueConcurrency; lia).
  set (q0 := {| PQueue.concurrency := _; PQueue.queue := []; PQueue.pending := [] |}).
  assert (wfQueue q0) as Hwf0.
  { unfold wfQueue, q0, queueConcurrency. simpl. split_and!; [lia | lia | done]. }
  destruct (adds_wf_jobs q0 tasks Hwf0) as (Hwf & Hjobs & _).
  destruct (drain_spec world appConfig (length tasks) 0 (foldl PQueue.add q0 tasks) sh)
    as (order & Hperm & Hsh & Hidle); [done | by rewrite Hjobs |].
  destruct (drain _ _ _ _ _ _) as [q sh'] eqn:Hd. simpl in *.
  exists q, order. rewrite Hsh. split_and!; [done | by rewrite Hperm, Hjobs | done].
Qed.

Lemma step_invariant tasks (c : nat) s s' :
  step s s' →
  wfQueue (pq s) ∧ PQueue.concurrency (pq s) = c
  ∧ settled s ++ jobs (pq s) ++ toAdd s ≡ₚ tasks →
  wfQueue (pq s') ∧ PQueue.concurrency (pq s') = c
  ∧ settled s' ++ jobs (pq s') ++ toAdd s' ≡ₚ tasks.
Proof.
  intros Hstep (Hwf & Hc & Hperm). destruct Hstep as [task rest q done|todo q done i task Hi];
    simpl in *.
  - split_and!; [by apply add_wf | by rewrite add_concurrency |].
    rewrite add_jobs, <- Hperm. by rewrite <- (app_assoc (jobs q)).
  - split_and!; [by eapply settle_wf | by rewrite settle_concurrency |].
    rewrite (settle_jobs q i task Hi), <- Hperm.
    assert (jobs q !! i = Some task) as Hjob by (unfold jobs; by apply lookup_app_l_Some).
    rewrite (delete_Permutation (jobs q) i task Hjob) at 2.
    rewrite <- app_assoc. simpl. by rewrite Permutation_middle.
Qed.



End Scheduler.

(** ** Counters *)

Section Counters.

Implicit Types (world : World) (appConfig : AppConfig.t) (sh : Shared)
  (task : MedicineTask.t) (store : OutputStore).

Lemma persistMedicine_layout write_error task medicine store disk :
  sameLayout store (persistMedicine write_error task medicine store disk).1.2.
Proof.
  unfold persistMedicine.
  destruct (writeFile write_error disk _ _) as [[[]|e] disk1]; [|done].
  by destruct (writeFile write_error disk1 _ _) as [[[]|e] disk2].
Qed.

Lemma writeFile_throws write_error disk path data :
  (∃ e, (writeFile write_error disk path data).1 = Thrown e)
  ↔ is_Some (write_error path).
Proof.
  unfold writeFile. destruct (write_error path) as [[e|e written]|]; simpl.
  - split; eauto.
  - split; eauto.
  - split; [by intros [? ?] | by intros [? ?]].
Qed.

Lemma persistMedicine_throws write_error task medicine store disk :
  (∃ e, (persistMedicine write_error task medicine store disk).1.1 = Thrown e)
  ↔ is_Some (write_error (artifactPath store medicine))
    ∨ is_Some (write_error (metadataPath store)).
Proof.
  unfold persistMedicine.
  pose proof (writeFile_throws write_error disk (artifactPath store medicine)
                (MedicineJson medicine)) as H1.
  destruct (writeFile write_error disk _ _) as [[[]|e] disk1]; simpl in *.
  - match goal with
    | |- context [writeFile write_error disk1 ?path ?data] =>
        pose proof (writeFile_throws write_error disk1 path data) as H2;
        destruct (writeFile write_error disk1 path data) as [[[]|e] disk2]
    end; simpl in *.
    + split; [by intros [? ?]|]. intros [Hs|Hs]; [by apply H1 in Hs as [? ?]|].
      by apply H2 in Hs as [? ?].
    + split; [|by eauto]. intros _. right. apply H2. eauto.
  - split; [|by eauto]. intros _. left. apply H1. eauto.
Qed.

Lemma countedTwice_layout world appConfig store store' task :
  sameLayout store store' →
  countedTwice world appConfig store' task = countedTwice world appConfig store task.
Proof.
  intros (_ & Hdir & Hpath). unfold countedTwice, artifactPath.
  by rewrite Hdir, Hpath.
Qed.

Lemma body_counters world appConfig task sh :
  let sh' := processBody world appConfig task sh in
  sameLayout (outputStore sh) (outputStore sh')
  ∧ rejected sh' = rejected sh
  ∧ st_completed (state sh') = st_completed (state sh) + 1
  ∧ st_succeeded (state sh')
    = st_succeeded (state sh) + tally (negb (extractionFails world appConfig task))
  ∧ st_failed (state sh')
    = st_failed (state sh) + tally (extractionFails world appConfig task)
      + tally (countedTwice world appConfig (outputStore sh) task).
Proof.
  unfold processBody, extractionFails, countedTwice.
  destruct (retryScrapeMedicine world appConfig task).1 as [medicine|e]; simpl.
  - pose proof (persistMedicine_layout (write_error world) task medicine
                  (outputStore sh) (disk sh)) as Hlay.
    pose proof (persistMedicine_throws (write_error world) task medicine
                  (outputStore sh) (disk sh)) as Hthrows.
    destruct (persistMedicine _ _ _ _ _) as [[[[]|e] store'] disk']; simpl in *.
    + rewrite bool_decide_eq_false_2; [simpl; split_and!; (done || lia)|].
      intros Hsome. apply Hthrows in Hsome as [? ?]. done.
    + rewrite bool_decide_eq_true_2; [simpl; split_and!; (done || lia)|].
      apply Hthrows. eauto.
  - split_and!; (done || lia).
Qed.

(** The page open: the task is counted by its body, whatever closing the
    page does. *)
Lemma process_opened world appConfig task sh :
  new_page world task = None →
  let sh' := processMedicineTask world appConfig task sh in
  state sh' = state (processBody world appConfig task sh)
  ∧ outputStore sh' = outputStore (processBody world appConfig task sh)
  ∧ disk sh' = disk (processBody world appConfig task sh)
  ∧ rejected sh'
    = rejected sh ++ match close_page world task with
                     | Some e => [(task, e)]
                     | None => []
                     end.
Proof.
  intros Hopen. unfold processMedicineTask. rewrite Hopen.
  destruct (body_counters world appConfig task sh) as (_ & Hrej & _).
  destruct (close_page world task) as [e|]; simpl;
    [by rewrite Hrej | by rewrite Hrej, app_nil_r].
Qed.

(** The page not open: nothing is counted, nothing written, and the task
    rejects. *)
Lemma process_unopened world appConfig task sh e :
  new_page world task = Some e →
  processMedicineTask world appConfig task sh = reject task e sh.
Proof. intros Hopen. unfold processMedicineTask. by rewrite Hopen. Qed.

Lemma process_counters world appConfig task sh :
  let sh' := processMedicineTask world appConfig task sh in
  sameLayout (outputStore sh) (outputStore sh')
  ∧ st_completed (state sh') = st_completed (state sh) + tally (opens world task)
  ∧ st_succeeded (state sh')
    = st_succeeded (state sh)
      + tally (opens world task && negb (extractionFails world appConfig task))
  ∧ st_failed (state sh')
    = st_failed (state sh)
      + tally (opens world task && extractionFails world appConfig task)
      + tally (opens world task
               && countedTwice world appConfig (outputStore sh) task).
Proof.
  unfold opens. destruct (new_page world task) as [e|] eqn:Hopen.
  - rewrite (process_unopened _ _ _ _ e Hopen). simpl.
    split_and!; (done || lia).
  - destruct (process_opened world appConfig task sh Hopen) as (-> & -> & _).
    destruct (body_counters world appConfig task sh) as (Hlay & _ & Hc & Hs & Hf).
    simpl. split_and!; [done | done | done | done].
Qed.

Lemma sameLayout_trans store1 store2 store3 :
  sameLayout store1 store2 → sameLayout store2 store3 → sameLayout store1 store3.
Proof. unfold sameLayout. intros (-> & -> & ->) (-> & -> & ->). done. Qed.

Lemma processAll_counters world appConfig order sh :
  let final := processAll world appConfig order sh in
  sameLayout (outputStore sh) (outputStore final)
  ∧ st_completed (state final)
    = st_completed (state sh) + length (List.filter (opens world) order)
  ∧ st_succeeded (state final) + st_failed (state final)
    = st_succeeded (state sh) + st_failed (state sh)
      + length (List.filter (opens world) order)
      + length (List.filter
                  (λ task, opens world task
                           && countedTwice world appConfig (outputStore sh) task)
                  order).
Proof.
  revert sh. induction order as [|task rest IH]; intros sh; simpl.
  - split_and!; (done || lia).
  - destruct (process_counters world appConfig task sh) as (Hlay & Hc & Hs & Hf).
    destruct (IH (processMedicineTask world appConfig task sh)) as (Hlay' & Hc' & Hsum).
    assert (List.filter
              (λ t, opens world t
                    && countedTwice world appConfig
                         (outputStore (processMedicineTask world appConfig task sh)) t)
              rest
            = List.filter
                (λ t, opens world t && countedTwice world appConfig (outputStore sh) t)
                rest) as Hsame.
    { apply filter_ext. intros t. by rewrite (countedTwice_layout _ _ _ _ _ Hlay). }
    rewrite Hsame in Hsum.
    split_and!; [by eapply sameLayout_trans | |].
    + rewrite Hc', Hc. destruct (opens world task); simpl; lia.
    + rewrite Hsum, Hs, Hf.
      destruct (opens world task); simpl; [|lia].
      destruct (extractionFails world appConfig task);
        destruct (countedTwice world appConfig (outputStore sh) task);
        simpl; lia.
Qed.

Lemma filter_Permutation_bool {B} (f : B → bool) (l l' : list B) :
  l ≡ₚ l' → List.filter f l ≡ₚ List.filter f l'.
Proof.
  induction 1 as [|x l l' _ IH|x y l|l l' l'' _ IH1 _ IH2]; simpl.
  - done.
  - destruct (f x); [by constructor | done].
  - destruct (f x), (f y); try done. apply perm_swap.
  - by etrans.
Qed.

(** The rejections of a run: one for each task whose page could not be
    opened or, after the task was counted, not be closed. *)
Lemma processAll_rejected world appConfig order sh :
  length (rejected (processAll world appConfig order sh))
  = length (rejected sh)
    + length (List.filter (λ task, negb (opens world task && closes world task))
                          order).
Proof.
  revert sh. induction order as [|task rest IH]; intros sh; simpl; [lia|].
  rewrite IH. unfold opens, closes.
  destruct (new_page world task) as [e|] eqn:Hopen.
  - rewrite (process_unopened _ _ _ _ e Hopen). simpl. rewrite length_app. simpl. lia.
  - destruct (process_opened world appConfig task sh Hopen) as (_ & _ & _ & ->).
    destruct (close_page world task); simpl; rewrite length_app; simpl; lia.
Qed.

Lemma prepare_spec res mk bn disk0 dir :
  let store :=
    {| outputDir := res dir;
       medicinesDir := path_join (res dir) "medicines";
       metadataPath := path_join (res dir) "metadata.json";
       metadata := loadMetadata bn disk0 (path_join (res dir) "metadata.json") |} in
  prepareOutputStore res mk bn disk0 dir
  = match mk (path_join (res dir) "medicines") with
    | Some e => Thrown e
    | None => Ok store
    end.
Proof. done. Qed.

Lemma prepare_wf res mk bn disk0 dir store :
  prepareOutputStore res mk bn disk0 dir = Ok store →
  wfStore store ∧ outputDir store = res dir
  ∧ metadata store = loadMetadata bn disk0 (metadataPath store).
Proof.
  rewrite prepare_spec. destruct (mk _); [done|]. by intros [= <-].
Qed.

Lemma runTry_unfold world appConfig options allMedicines disk0 store :
  prepareOutputStore (resolve world) (mkdir_error world) (basename world) disk0
    (AppConfig.outputDir appConfig) = Ok store →
  let runOptions := resolveRunOptions options appConfig in
  let cache :=
    applyCachePolicy disk0
      (selectTasks allMedicines (ResolvedRunOptions.targetSlug runOptions)
                   (ResolvedRunOptions.targetLimit runOptions))
      store (ResolvedRunOptions.hardRefresh runOptions) in
  let start :=
    {| state := {| st_succeeded := 0; st_completed := 0; st_failed := 0 |};
       outputStore := store; disk := disk0; rejected := [] |} in
  ∃ order,
    order ≡ₚ cache.1
    ∧ runTry world appConfig options allMedicines disk0
      = Ok ({| ScrapeSummary.total := length cache.1;
               ScrapeSummary.succeeded :=
                 st_succeeded (state (processAll world appConfig order start));
               ScrapeSummary.failed :=
                 st_failed (state (processAll world appConfig order start));
               ScrapeSummary.skipped := cache.2;
               ScrapeSummary.metadataPath :=
                 metadataPath (outputStore (processAll world appConfig order start)) |},
            processAll world appConfig order start).
Proof.
  intros Hprep runOptions cache start. unfold runTry. rewrite Hprep.
  fold runOptions. fold cache. fold start.
  destruct (runTaskQueue_spec world appConfig cache.1
              (ResolvedRunOptions.parallelTabs runOptions) start)
    as (q & order & Hrun & Hperm & _).
  { unfold runOptions, resolveRunOptions. simpl. lia. }
  exists order. split; [done|]. by rewrite Hrun.
Qed.



End Counters.

(** ** Re-running *)

Section Rerun.

Implicit Types (world : World) (appConfig : AppConfig.t) (sh : Shared)
  (task : MedicineTask.t) (store : OutputStore)
  (metadata : list OutputMetadataEntry.t).

Lemma upsert_elem_new metadata s n p :
  {| OutputMetadataEntry.slug := s; OutputMetadataEntry.medicineName := n;
     OutputMetadataEntry.medicineFilePath := p |} ∈ upsertMetadata metadata s n p.
Proof.
  induction metadata as [|item rest IH]; [rewrite upsert_nil; left|].
  rewrite upsert_cons. case_decide; [left | by right].
Qed.

Lemma upsert_elem_other metadata s n p item :
  item ∈ metadata → OutputMetadataEntry.slug item ≠ s →
  item ∈ upsertMetadata metadata s n p.
Proof.
  intros Hin Hne. induction Hin as [item rest|item other rest Hin IH].
  - rewrite upsert_cons. rewrite decide_False by done. left.
  - rewrite upsert_cons. case_decide; right; auto.
Qed.

Lemma upsert_Forall (P : OutputMetadataEntry.t → Prop) metadata s n p :
  Forall P metadata →
  P {| OutputMetadataEntry.slug := s; OutputMetadataEntry.medicineName := n;
       OutputMetadataEntry.medicineFilePath := p |} →
  Forall P (upsertMetadata metadata s n p).
Proof.
  intros Hall Hnew. induction Hall as [|item rest Hitem Hrest IH].
  - rewrite upsert_nil. by constructor.
  - rewrite upsert_cons. case_decide; constructor; auto.
Qed.

Lemma backfill_idemp bn item : backfill bn (backfill bn item) = backfill bn item.
Proof.
  destruct item as [s n p]. unfold backfill, Text.or_else. simpl.
  destruct (Text.truthy s) eqn:Hs; simpl; [by rewrite Hs|].
  by destruct (Text.truthy (bn p)) eqn:Hb; simpl; rewrite ?Hb.
Qed.

Lemma backfill_slug bn item :
  OutputMetadataEntry.slug item ≠ "" → backfill bn item = item.
Proof.
  destruct item as [s n p]. simpl. intros Hs%truthy_nonempty.
  unfold backfill. simpl. by rewrite or_else_truthy.
Qed.

Lemma fmap_fixed {B} (f : B → B) (l : list B) :
  Forall (λ x, f x = x) l → f <$> l = l.
Proof. induction 1 as [|x l Hx _ IH]; [done|]. by rewrite fmap_cons, Hx, IH. Qed.

Lemma prepared_inSync res mk bn disk0 dir store st rej :
  prepareOutputStore res mk bn disk0 dir = Ok store →
  inSync bn {| state := st; outputStore := store; disk := disk0; rejected := rej |}.
Proof.
  rewrite prepare_spec. destruct (mk _); [done|]. intros [= <-].
  unfold inSync, wfStore. simpl. split_and!; [done..|].
  unfold loadMetadata. destruct (disk0 !! _) as [[m|items|raw]|]; try by constructor.
  apply Forall_fmap, Forall_forall. intros item _. simpl. apply backfill_idemp.
Qed.

Lemma resolve_entry store task medicine :
  wfStore store →
  path_resolve (outputDir store)
    (OutputMetadataEntry.medicineFilePath (entryOf task medicine))
  = artifactPath store medicine.
Proof.
  intros [Hdir _]. unfold path_resolve, artifactPath, entryOf. simpl.
  rewrite Hdir. unfold path_join. by rewrite !str_app_assoc.
Qed.

(** A task that is counted as succeeded and not as failed leaves the index
    file in step with the index, has its artifact on disk, and takes no
    artifact away. *)
Lemma process_ok world appConfig task sh :
  MedicineTask.slug task ≠ "" →
  inSync (basename world) sh →
  st_succeeded (state (processMedicineTask world appConfig task sh))
  = st_succeeded (state sh) + 1 →
  st_failed (state (processMedicineTask world appConfig task sh)) = st_failed (state sh) →
  let sh' := processMedicineTask world appConfig task sh in
  inSync (basename world) sh'
  ∧ hasArtifact (disk sh') (outputStore sh') (MedicineTask.slug task)
  ∧ (∀ s, hasArtifact (disk sh) (outputStore sh) s →
          hasArtifact (disk sh') (outputStore sh') s).
Proof.
  intros Hslug (Hwf & Hload & Hfix) Hsucceeded Hfailed.
  destruct (process_counters world appConfig task sh) as (_ & _ & Hs & _).
  assert (new_page world task = None) as Hopen.
  { unfold opens in Hs. destruct (new_page world task); [simpl in Hs; lia | done]. }
  destruct (process_opened world appConfig task sh Hopen) as (Hstate & Hstore & Hdisk' & _).
  rewrite Hstate in Hsucceeded, Hfailed. unfold inSync, hasArtifact.
  rewrite Hstore, Hdisk'. clear Hs Hstate Hstore Hdisk'.
  unfold processBody in *.
  destruct (retryScrapeMedicine world appConfig task).1 as [medicine|e];
    [|simpl in Hfailed; lia].
  destruct (persistMedicine _ _ _ _ _) as [[[[]|e] store'] disk'] eqn:Hp;
    [|simpl in Hfailed; lia].
  simpl. clear Hfailed Hsucceeded.
  apply persistMedicine_ok in Hp as (Hwf' & Hdir & Hmeta & Hdisk); [|done].
  assert (is_Some (disk' !! artifactPath (outputStore sh) medicine)) as Hfile.
  { rewrite Hdisk. apply lookup_insert_is_Some'. right. rewrite lookup_insert_eq. eauto. }
  assert (Exists (λ item, OutputMetadataEntry.slug item = MedicineTask.slug task
                          ∧ is_Some (disk' !! path_resolve (outputDir store')
                                       (OutputMetadataEntry.medicineFilePath item)))
                 (metadata store')) as Hnew.
  { apply Exists_exists. exists (entryOf task medicine).
    split; [rewrite Hmeta; apply upsert_elem_new|]. split; [done|].
    rewrite Hdir, resolve_entry by done. done. }
  split; [|split].
  - split_and!; [done | |].
    + destruct Hwf as [_ Hmp], Hwf' as [_ Hmp'].
      unfold loadMetadata. rewrite Hdisk, Hmp', Hdir, <- Hmp, lookup_insert_eq.
      apply fmap_fixed. rewrite Hmeta.
      apply upsert_Forall; [done|]. by apply backfill_slug.
    + rewrite Hmeta. apply upsert_Forall; [done|]. by apply backfill_slug.
  - done.
  - intros s Hs. destruct (decide (s = MedicineTask.slug task)) as [->|Hne]; [done|].
    apply Exists_exists in Hs as (item & Hin & Hitem & Hex).
    apply Exists_exists. exists item. split_and!; [| done |].
    + rewrite Hmeta. apply upsert_elem_other; [done | congruence].
    + rewrite Hdir, Hdisk. by do 2 (apply lookup_insert_is_Some'; right).
Qed.

Lemma failed_mono world appConfig order sh :
  st_failed (state sh) ≤ st_failed (state (processAll world appConfig order sh)).
Proof.
  revert sh. induction order as [|task rest IH]; intros sh; simpl; [done|].
  etrans; [|apply IH].
  destruct (process_counters world appConfig task sh) as (_ & _ & _ & Hf). lia.
Qed.

Lemma succeeded_bound world appConfig order sh :
  st_succeeded (state (processAll world appConfig order sh))
  ≤ st_succeeded (state sh) + length order.
Proof.
  revert sh. induction order as [|task rest IH]; intros sh; simpl; [lia|].
  etrans; [apply IH|].
  destruct (process_counters world appConfig task sh) as (_ & _ & Hs & _).
  rewrite Hs. destruct (_ && _); simpl; lia.
Qed.

Lemma processAll_ok world appConfig order sh :
  Forall (λ task, MedicineTask.slug task ≠ "") order →
  inSync (basename world) sh →
  st_succeeded (state (processAll world appConfig order sh))
  = st_succeeded (state sh) + length order →
  st_failed (state (processAll world appConfig order sh)) = st_failed (state sh) →
  let final := processAll world appConfig order sh in
  inSync (basename world) final
  ∧ (∀ s, hasArtifact (disk sh) (outputStore sh) s →
          hasArtifact (disk final) (outputStore final) s)
  ∧ (∀ task, task ∈ order →
             hasArtifact (disk final) (outputStore final) (MedicineTask.slug task)).
Proof.
  intros Hslugs. revert sh.
  induction Hslugs as [|task rest Hslug Hrest IH];
    intros sh Hsync Hsucceeded Hfailed; simpl.
  - split_and!; [done | done |]. intros task Hin. by apply elem_of_nil in Hin.
  - simpl in Hsucceeded, Hfailed.
    pose proof (failed_mono world appConfig rest
                  (processMedicineTask world appConfig task sh)) as Hmono.
    pose proof (succeeded_bound world appConfig rest
                  (processMedicineTask world appConfig task sh)) as Hbound.
    destruct (process_counters world appConfig task sh) as (_ & _ & Hs & Hf).
    assert (st_succeeded (state (processMedicineTask world appConfig task sh))
            = st_succeeded (state sh) + 1) as Hs1.
    { rewrite Hs in *. destruct (_ && negb _); simpl in *; lia. }
    destruct (process_ok world appConfig task sh Hslug Hsync) as (Hsync' & Hnew & Hkeep);
      [done | lia |].
    destruct (IH (processMedicineTask world appConfig task sh) Hsync') as (Hs' & Hk & Hall);
      [lia | lia |].
    split_and!; [done | by auto |].
    intros t [->|Hin]%elem_of_cons; auto.
Qed.

Lemma hasArtifact_ext disk store store' s :
  outputDir store' = outputDir store → metadata store' = metadata store →
  hasArtifact disk store' s ↔ hasArtifact disk store s.
Proof. unfold hasArtifact. by intros -> ->. Qed.

Lemma applyCache_split disk tasks store hardRefresh task :
  task ∈ tasks →
  task ∈ (applyCachePolicy disk tasks store hardRefresh).1
  ∨ hasArtifact disk store (MedicineTask.slug task).
Proof.
  intros Hin. unfold applyCachePolicy. destruct hardRefresh; [by left|].
  rewrite filterCached_spec. simpl.
  destruct (decide (hasArtifact disk store (MedicineTask.slug task))) as [Hc|Hc];
    [by right|left].
  apply list_elem_of_filter. split; [|done]. by rewrite getCachedSlugs_spec.
Qed.

Lemma applyCache_all_cached disk tasks store :
  (∀ task, task ∈ tasks → hasArtifact disk store (MedicineTask.slug task)) →
  applyCachePolicy disk tasks store false = ([], length tasks).
Proof.
  intros Hall. unfold applyCachePolicy. rewrite filterCached_spec. simpl.
  induction tasks as [|task rest IH]; [done|].
  assert (MedicineTask.slug task
          ∈ getCachedSlugs disk (outputDir store) (metadata store)) as Hin.
  { apply getCachedSlugs_spec, Hall. left. }
  rewrite filter_cons_False by (intros Hn; by apply Hn).
  rewrite filter_cons_True by done.
  assert (∀ t, t ∈ rest → hasArtifact disk store (MedicineTask.slug t)) as Hrest
    by (intros t Ht; apply Hall; by right).
  specialize (IH Hrest). injection IH as H1 H2.
  rewrite H1. simpl in *. by rewrite H2.
Qed.

(** C1, as stated, fails: the summary's total counts the tasks queued after
    the cache policy, so after a first run that scraped one task the second
    run reports total 0 and skipped 1. *)
Lemma second_run_total_is_zero :
  let first := run (calm MedicineTask.slug) (Examples.appConfig 3) noOptions [task_a] ∅ in
  let second :=
    run (calm MedicineTask.slug) (Examples.appConfig 3)
        (withHardRefresh (Some false) noOptions) [task_a] (diskAfter first) in
  counts first = Some (1, 1, 0, 0)
  ∧ counts second = Some (0, 0, 0, 1)
  ∧ ∀ total succeeded failed skipped,
      counts second = Some (total, succeeded, failed, skipped) → skipped ≠ total.
Proof.
  intros first second.
  assert (counts second = Some (0, 0, 0, 1)) as Hsecond by (by vm_compute).
  split_and!; [by vm_compute | done |].
  intros total succeeded failed skipped. rewrite Hsecond. by intros [= <- _ _ <-].
Qed.

(** C1 (amended): after a first run in which every queued task succeeded
    and none failed, over tasks with non-empty slugs, a second run from the
    same working directory that can make its output directory and shut its
    browser down, against the same catalogue with the same selection and
    hardRefresh=false, skips every selected task: its summary has skipped
    equal to the number of selected tasks and total, succeeded and failed
    equal to 0 (total counts the tasks queued after the cache policy); it
    writes nothing, and the metadata index it holds is the one the first
    run left. *)
Theorem rerun_skips_every_task world1 world2 appConfig options
    hardRefresh1 hardRefresh2 allMedicines disk0 summary1 final1 :
  Forall (λ task, MedicineTask.slug task ≠ "") allMedicines →
  basename world2 = basename world1 →
  resolve world2 (AppConfig.outputDir appConfig)
  = resolve world1 (AppConfig.outputDir appConfig) →
  mkdir_error world2
    (path_join (resolve world2 (AppConfig.outputDir appConfig)) "medicines") = None →
  shutdown_error world2 = None →
  default false hardRefresh2 = false →
  run world1 appConfig (withHardRefresh hardRefresh1 options) allMedicines disk0
    = Ok (summary1, final1) →
  ScrapeSummary.succeeded summary1 = ScrapeSummary.total summary1 →
  ScrapeSummary.failed summary1 = 0 →
  ∃ summary2 final2,
    run world2 appConfig (withHardRefresh hardRefresh2 options) allMedicines
        (disk final1) = Ok (summary2, final2)
    ∧ ScrapeSummary.skipped summary2
      = length (selectTasks allMedicines (RunOptions.slug options)
                  (default (AppConfig.scrapeLimit appConfig) (RunOptions.limit options)))
    ∧ ScrapeSummary.total summary2 = 0
    ∧ ScrapeSummary.succeeded summary2 = 0
    ∧ ScrapeSummary.failed summary2 = 0
    ∧ disk final2 = disk final1
    ∧ metadata (outputStore final2) = metadata (outputStore final1).
Proof.
  intros Hslugs Hbn Hres Hmk2 Hshut2 Hh2 Hrun1 Hsucceeded Hfailed.
  unfold run in Hrun1. destruct (shutdown_error world1); [discriminate|].
  destruct (prepareOutputStore (resolve world1) (mkdir_error world1) (basename world1)
              disk0 (AppConfig.outputDir appConfig)) as [store1|e] eqn:Hprep1;
    [|unfold runTry in Hrun1; by rewrite Hprep1 in Hrun1].
  destruct (runTry_unfold world1 appConfig (withHardRefresh hardRefresh1 options)
              allMedicines disk0 store1 Hprep1) as (order1 & Hperm1 & Hrun1').
  rewrite Hrun1 in Hrun1'. injection Hrun1' as Hsum1 Hfinal1.
  simpl in Hperm1, Hsum1, Hfinal1.
  set (selected := selectTasks allMedicines (RunOptions.slug options)
         (default (AppConfig.scrapeLimit appConfig) (RunOptions.limit options))) in *.
  set (start1 := {| state := {| st_succeeded := 0; st_completed := 0; st_failed := 0 |};
                    outputStore := store1; disk := disk0; rejected := [] |}) in *.
  assert (selected `sublist_of` allMedicines) as Hsub.
  { unfold selected, selectTasks.
    etrans; [apply truncate_sublist|].
    destruct (RunOptions.slug options) as [s|]; [|done].
    destruct (Text.truthy s); [apply sublist_filter | done]. }
  assert (Forall (λ task, MedicineTask.slug task ≠ "") order1) as Hslugs1.
  { apply Forall_forall. intros task Hin.
    rewrite Hperm1 in Hin.
    assert (task ∈ selected) as Hsel.
    { unfold applyCachePolicy in Hin. destruct (default false hardRefresh1); [done|].
      rewrite filterCached_spec in Hin. simpl in Hin.
      by apply list_elem_of_filter in Hin as [_ ?]. }
    eapply Forall_forall in Hslugs; [done|]. by eapply elem_of_sublist. }
  destruct (processAll_ok world1 appConfig order1 start1 Hslugs1) as (Hsync & Hkeep & Hnew).
  { by eapply prepared_inSync. }
  { rewrite <- Hfinal1. rewrite Hsum1 in Hsucceeded. simpl in Hsucceeded.
    rewrite <- Hfinal1 in Hsucceeded. rewrite Hsucceeded.
    simpl. by rewrite (Permutation_length Hperm1). }
  { rewrite <- Hfinal1. rewrite Hsum1 in Hfailed. simpl in Hfailed.
    rewrite <- Hfinal1 in Hfailed. done. }
  rewrite <- Hfinal1 in Hsync, Hkeep, Hnew.
  destruct (processAll_counters world1 appConfig order1 start1) as (Hlay & _).
  rewrite <- Hfinal1 in Hlay. destruct Hlay as (Hdir & _ & Hmp).
  destruct Hsync as (_ & Hload & _).
  apply prepare_wf in Hprep1 as (Hwf1 & Hdir1 & _).
  pose proof (prepare_spec (resolve world2) (mkdir_error world2) (basename world2)
                (disk final1) (AppConfig.outputDir appConfig)) as Hprep2.
  rewrite Hmk2 in Hprep2. simpl in Hprep2.
  set (store2 := {| outputDir := resolve world2 (AppConfig.outputDir appConfig);
                    medicinesDir := _; metadataPath := _; metadata := _ |}) in Hprep2.
  assert (outputDir store2 = outputDir (outputStore final1)) as Hdir2.
  { unfold store2. simpl. rewrite Hres, Hdir. simpl. by rewrite Hdir1. }
  assert (metadata store2 = metadata (outputStore final1)) as Hmeta2.
  { unfold store2. simpl. rewrite Hbn, <- Hload. f_equal.
    rewrite Hmp. simpl. destruct Hwf1 as [_ ->]. by rewrite Hres, Hdir1. }
  assert (∀ task, task ∈ selected →
            hasArtifact (disk final1) store2 (MedicineTask.slug task)) as Hcached.
  { intros task Hsel. apply (hasArtifact_ext _ (outputStore final1)); [done | done |].
    destruct (applyCache_split disk0 selected store1 (default false hardRefresh1) task Hsel)
      as [Hin|Hold].
    - apply Hnew. by rewrite Hperm1.
    - by apply Hkeep. }
  destruct (runTry_unfold world2 appConfig (withHardRefresh hardRefresh2 options)
              allMedicines (disk final1) store2 Hprep2) as (order2 & Hperm2 & Hrun2).
  simpl in Hperm2, Hrun2. fold selected in Hperm2, Hrun2.
  rewrite Hh2 in Hperm2, Hrun2.
  rewrite (applyCache_all_cached _ _ _ Hcached) in Hperm2, Hrun2.
  simpl in Hperm2, Hrun2. apply Permutation_nil_r in Hperm2 as ->.
  unfold run. rewrite Hshut2.
  eexists _, _. split; [exact Hrun2|]. simpl. done.
Qed.

End Rerun.

(** Two tasks scraped by a hard refresh into an empty directory, then run
    again without it. *)
Lemma rerun_skips_every_task_witness :
  Forall (λ task, MedicineTask.slug task ≠ "") [task_a; task_b]
  ∧ counts (run (calm MedicineTask.slug) (Examples.appConfig 3)
                (withHardRefresh (Some true) noOptions) [task_a; task_b] ∅)
    = Some (2, 2, 0, 0)
  ∧ ∃ summary2 final2,
      run (calm MedicineTask.slug) (Examples.appConfig 3)
          (withHardRefresh (Some false) noOptions) [task_a; task_b]
          (diskAfter (run (calm MedicineTask.slug) (Examples.appConfig 3)
                          (withHardRefresh (Some true) noOptions) [task_a; task_b] ∅))
      = Ok (summary2, final2)
      ∧ ScrapeSummary.skipped summary2 = 2
      ∧ ScrapeSummary.total summary2 = 0.
Proof.
  assert (Forall (λ task, MedicineTask.slug task ≠ "") [task_a; task_b]) as Hslugs
    by (repeat constructor; discriminate).
  assert (counts (run (calm MedicineTask.slug) (Examples.appConfig 3)
                      (withHardRefresh (Some true) noOptions) [task_a; task_b] ∅)
          = Some (2, 2, 0, 0)) as Hcounts by (vm_compute; reflexivity).
  split; [exact Hslugs|]. split; [exact Hcounts|].
  destruct (run (calm MedicineTask.slug) (Examples.appConfig 3)
                (withHardRefresh (Some true) noOptions) [task_a; task_b] ∅)
    as [[summary1 final1]|e] eqn:Hrun1; [|discriminate].
  simpl in Hcounts. injection Hcounts as Htotal1 Hsucceeded1 Hfailed _.
  destruct (rerun_skips_every_task (calm MedicineTask.slug) (calm MedicineTask.slug)
              (Examples.appConfig 3) noOptions (Some true) (Some false)
              [task_a; task_b] ∅ summary1 final1 Hslugs eq_refl eq_refl eq_refl eq_refl
              eq_refl Hrun1 ltac:(by rewrite Hsucceeded1, Htotal1) Hfailed)
    as (summary2 & final2 & Hrun2 & Hskipped & Htotal & _).
  exists summary2, final2. split; [exact Hrun2|]. split; [exact Hskipped | exact Htotal].
Defined.

Import Shape.

(** * Texts, titles and sections *)

(** ** File names *)

Section FileNames.

Implicit Types (s : string) (p : ascii → bool).

Lemma replace_runs_shape p r b s :
  p r = true →
  let out := Text.replace_runs p r b s in
  adjacent p out = false
  ∧ Forall (λ c, p c = false ∨ c = r) (chars out)
  ∧ (b = true → startsIn p out = false).
Proof.
  intros Hr. revert b. induction s as [|c s IH]; intros b; simpl.
  - split_and!; [done | constructor | done].
  - destruct (p c) eqn:Hc.
    + destruct (IH true) as (Hadj & Hall & Hstart). destruct b; [by auto|].
      simpl. split_and!; [| constructor; auto | done].
      rewrite Hadj, orb_false_r. specialize (Hstart eq_refl).
      destruct (Text.replace_runs p r true s); [apply andb_false_r|].
      simpl in Hstart. by rewrite Hstart, andb_false_r.
    + destruct (IH false) as (Hadj & Hall & _). simpl. rewrite Hc, Hadj. simpl.
      split_and!; [done | constructor; auto | by intros _].
Qed.

Lemma strip_start_suffix p s : ∃ t, s = t +:+ Text.strip_start p s.
Proof.
  induction s as [|c s [t IH]]; [by exists ""|]. simpl.
  destruct (p c); [|by exists ""]. exists (String c t). rewrite str_app_cons. by f_equal.
Qed.

Lemma strip_end_prefix p s : ∃ t, s = Text.strip_end p s +:+ t.
Proof.
  induction s as [|c s [t IH]]; [by exists ""|]. simpl.
  destruct (Text.strip_end p s) as [|d r] eqn:Hr.
  - destruct (p c); [by exists (String c s)|]. exists s. by rewrite str_app_cons.
  - exists t. rewrite str_app_cons. by rewrite <- IH.
Qed.

Lemma strip_start_starts p s : startsIn p (Text.strip_start p s) = false.
Proof. induction s as [|c s IH]; [done|]. simpl. by destruct (p c) eqn:Hc; simpl. Qed.

Lemma strip_end_ends p s : endsIn p (Text.strip_end p s) = false.
Proof.
  induction s as [|c s IH]; [done|]. simpl.
  destruct (Text.strip_end p s) as [|d r] eqn:Hr; [|done].
  by destruct (p c) eqn:Hc; simpl; rewrite ?Hc.
Qed.

Lemma adjacent_suffix p a b : adjacent p (a +:+ b) = false → adjacent p b = false.
Proof.
  induction a as [|c a IH]; [done|]. rewrite str_app_cons. simpl.
  intros [_ H]%orb_false_elim. by apply IH.
Qed.

Lemma adjacent_prefix p a b : adjacent p (a +:+ b) = false → adjacent p a = false.
Proof.
  induction a as [|c a IH]; [done|]. rewrite str_app_cons. simpl.
  intros [Hpair Hadj]%orb_false_elim. rewrite (IH Hadj), orb_false_r.
  destruct a as [|d a]; [apply andb_false_r | done].
Qed.

Lemma chars_app a b : chars (a +:+ b) = chars a ++ chars b.
Proof. apply str_list_of_app. Qed.

Lemma strip_both_shape p s :
  let out := Text.strip_both p s in
  (∃ before after, s = before +:+ out +:+ after)
  ∧ startsIn p out = false ∧ endsIn p out = false.
Proof.
  unfold Text.strip_both.
  destruct (strip_start_suffix p s) as [before Hs].
  destruct (strip_end_prefix p (Text.strip_start p s)) as [after Hout].
  split_and!.
  - exists before, after. by rewrite <- Hout.
  - pose proof (strip_start_starts p s) as Hstart. rewrite Hout in Hstart.
    destruct (Text.strip_end p (Text.strip_start p s)); [done|].
    by rewrite str_app_cons in Hstart.
  - apply strip_end_ends.
Qed.

Lemma replace_runs_fixed p r b s :
  adjacent p s = false →
  Forall (λ c, p c = false ∨ c = r) (chars s) →
  (b = true → startsIn p s = false) →
  Text.replace_runs p r b s = s.
Proof.
  revert b. induction s as [|c s IH]; intros b Hadj Hall Hstart; [done|].
  simpl in *. apply orb_false_elim in Hadj as [Hpair Hadj].
  apply Forall_cons in Hall as [Hc Hall].
  destruct (p c) eqn:Hpc.
  - destruct b; [by specialize (Hstart eq_refl)|].
    destruct Hc as [?| ->]; [done|]. f_equal. apply IH; [done | done |].
    intros _. by destruct s.
  - f_equal. apply IH; [done | done | done].
Qed.

Lemma strip_start_fixed p s : startsIn p s = false → Text.strip_start p s = s.
Proof. destruct s as [|c s]; [done|]. simpl. by intros ->. Qed.

Lemma strip_end_fixed p s : endsIn p s = false → Text.strip_end p s = s.
Proof.
  induction s as [|c s IH]; [done|]. intros Hend. simpl.
  destruct s as [|d s].
  - simpl in *. by rewrite Hend.
  - rewrite IH by done. done.
Qed.

Lemma is_dash_eq c : Text.is_dash c = true ↔ c = "-"%char.
Proof. unfold Text.is_dash. by destruct (Ascii.eqb_spec c "-"). Qed.

Lemma adjacent_weaken (p q : ascii → bool) s :
  (∀ c, q c = true → p c = true) → adjacent p s = false → adjacent q s = false.
Proof.
  intros Hqp. induction s as [|c s IH]; [done|]. simpl.
  intros [Hpair Hadj]%orb_false_elim. rewrite (IH Hadj), orb_false_r.
  destruct (q c) eqn:Hc; [|done]. rewrite (Hqp c Hc) in Hpair.
  destruct s as [|d s]; [done|]. simpl in *.
  destruct (q d) eqn:Hd; [|done]. by rewrite (Hqp d Hd) in Hpair.
Qed.

Lemma slugify_parts name :
  adjacent notAlnum (slugify name) = false
  ∧ Forall (λ c, notAlnum c = false ∨ c = "-"%char) (chars (slugify name))
  ∧ startsIn Text.is_dash (slugify name) = false
  ∧ endsIn Text.is_dash (slugify name) = false.
Proof.
  unfold slugify. fold notAlnum.
  destruct (replace_runs_shape notAlnum "-" false name eq_refl) as (Hadj & Hall & _).
  set (runs := Text.replace_runs notAlnum "-" false name) in *.
  destruct (strip_both_shape Text.is_dash runs) as ((before & after & Hruns) & Hs & He).
  set (out := Text.strip_both Text.is_dash runs) in *.
  split_and!; [| | done | done].
  - rewrite Hruns in Hadj. by apply adjacent_suffix, adjacent_prefix in Hadj.
  - rewrite Hruns, !chars_app, !Forall_app in Hall. tauto.
Qed.

Lemma slugify_shaped name : slugShaped (slugify name).
Proof.
  destruct (slugify_parts name) as (Hadj & Hall & Hs & He).
  split_and!; [| | done | done].
  - eapply Forall_impl; [exact Hall|]. intros c [Hc| ->]; [left|by right].
    unfold notAlnum in Hc. by destruct (Text.is_alnum c).
  - eapply adjacent_weaken; [|exact Hadj]. by intros c ->%is_dash_eq.
Qed.

(** X1: the file name [slugify] derives from a display name holds letters,
    digits and single dashes only, with no dash at either end, and
    slugifying it again leaves it as it is. *)
Theorem slugify_shape_fixed name :
  slugShaped (slugify name) ∧ slugify (slugify name) = slugify name.
Proof.
  split; [apply slugify_shaped|].
  destruct (slugify_parts name) as (Hadj & Hall & Hs & He).
  set (out := slugify name) in *. unfold slugify at 1. fold notAlnum.
  rewrite replace_runs_fixed; [| done | done | done].
  unfold Text.strip_both. by rewrite strip_start_fixed, strip_end_fixed.
Qed.

End FileNames.

(** ** Cleaned texts are tidy *)

Section CleanTexts.

Implicit Types (s : string) (p : ascii → bool).

Lemma strip_both_fixed p s :
  startsIn p s = false → endsIn p s = false → Text.strip_both p s = s.
Proof.
  intros Hs He. unfold Text.strip_both. by rewrite strip_start_fixed, strip_end_fixed.
Qed.

Lemma trim_fixed s : Text.trim (Text.trim s) = Text.trim s.
Proof.
  unfold Text.trim. destruct (strip_both_shape Text.is_space s) as (_ & Hs & He).
  by apply strip_both_fixed.
Qed.

Lemma clean_tidy s : tidy (Text.clean s).
Proof.
  unfold Text.clean, Text.trim, Text.collapse_ws.
  destruct (replace_runs_shape Text.is_space " " false s eq_refl) as (Hadj & Hall & _).
  set (runs := Text.replace_runs Text.is_space " " false s) in *.
  destruct (strip_both_shape Text.is_space runs) as ((before & after & Hruns) & Hs & He).
  set (out := Text.strip_both Text.is_space runs) in *.
  split_and!; [| | done | done].
  - rewrite Hruns in Hadj. by apply adjacent_suffix, adjacent_prefix in Hadj.
  - rewrite Hruns, !chars_app, !Forall_app in Hall. tauto.
Qed.

Lemma tidy_fixed s : tidy s → Text.clean s = s.
Proof.
  intros (Hadj & Hall & Hs & He). unfold Text.clean, Text.collapse_ws, Text.trim.
  rewrite replace_runs_fixed; [| done | done | done]. by apply strip_both_fixed.
Qed.

Lemma filter_truthy_Forall (texts : list string) (P : string → Prop) :
  Forall P texts → Forall (λ text, text ≠ "" ∧ P text) (List.filter Text.truthy texts).
Proof.
  intros Hall. apply Forall_forall. intros text Hin.
  apply list_elem_of_In, filter_In in Hin as [Hin Htruthy].
  split; [by apply truthy_nonempty|].
  eapply Forall_forall in Hall; [exact Hall|]. by apply list_elem_of_In.
Qed.

Lemma cleanTexts_tidy (nodes : list Dom.node) :
  Forall (λ text, text ≠ "" ∧ tidy text)
    (List.filter Text.truthy (Dom.cleanText <$> nodes)).
Proof.
  apply filter_truthy_Forall, Forall_fmap, Forall_forall. intros n _. apply clean_tidy.
Qed.

End CleanTexts.

(** ** Brand names *)

Section BrandNames.

Implicit Types (s left right pre inner : string) (seen : gset string)
  (items : list string).

Lemma dedupe_elem seen items x :
  x ∈ Brand.dedupe seen items ↔ x ∈ items ∧ x ∉ seen.
Proof.
  revert seen. induction items as [|y rest IH]; intros seen; simpl.
  - rewrite elem_of_nil. tauto.
  - destruct (decide (y ∈ seen)) as [Hy|Hy].
    + rewrite IH, elem_of_cons. split; [tauto|].
      intros [[->|?] ?]; [done | tauto].
    + rewrite !elem_of_cons, IH, elem_of_union, elem_of_singleton.
      destruct (decide (x = y)) as [->|Hne]; [tauto|]. tauto.
Qed.

Lemma dedupe_NoDup seen items : NoDup (Brand.dedupe seen items).
Proof.
  revert seen. induction items as [|y rest IH]; intros seen; simpl; [constructor|].
  destruct (decide (y ∈ seen)); [apply IH|].
  apply NoDup_cons. split; [|apply IH].
  rewrite dedupe_elem, elem_of_union, elem_of_singleton. tauto.
Qed.

Lemma dots_app s1 s2 : dots (s1 +:+ s2) ↔ dots s1 ∧ dots s2.
Proof. unfold dots. by rewrite str_list_of_app, Forall_app. Qed.

Lemma dots_cons c s : dots (String c s) ↔ Brand.is_dot c = true ∧ dots s.
Proof. unfold dots. simpl. by rewrite Forall_cons. Qed.

Lemma match_inner_spec s inner :
  Brand.match_inner s = Some inner → s = inner +:+ ")" ∧ dots inner.
Proof.
  revert inner. induction s as [|c s IH]; intros inner; simpl; [discriminate|].
  destruct s as [|d s].
  - destruct (Ascii.eqb_spec c ")") as [->|]; [|discriminate].
    intros [= <-]. split; [done | constructor].
  - destruct (Brand.is_dot c) eqn:Hc; [|discriminate].
    destruct (Brand.match_inner (String d s)) as [found|]; [|discriminate].
    intros [= <-]. destruct (IH found eq_refl) as [Heq Hdots].
    rewrite str_app_cons, <- Heq. split; [done|]. by apply dots_cons.
Qed.

Lemma match_inner_complete inner :
  dots inner → Brand.match_inner (inner +:+ ")") = Some inner.
Proof.
  induction inner as [|c inner IH]; intros Hdots; [done|].
  apply dots_cons in Hdots as [Hc Hdots].
  rewrite str_app_cons. simpl. rewrite Hc, (IH Hdots).
  destruct (inner +:+ ")") eqn:Happ; [|done].
  by destruct inner.
Qed.

(** The match of [/^(.*?)\((.*?)\)$/]: the text splits at its first
    opening parenthesis and ends with a closing one. *)
Lemma bracketMatch_spec s pre inner :
  Brand.bracketMatch s = Some (pre, inner)
  ↔ s = pre +:+ "(" +:+ inner +:+ ")"
    ∧ ("("%char ∉ String.list_ascii_of_string pre)
    ∧ dots pre ∧ dots inner.
Proof.
  split.
  - revert pre inner.
    induction s as [|c s IH]; intros pre inner; simpl; [discriminate|].
    destruct (Ascii.eqb_spec c "(") as [->|Hc].
    + destruct (Brand.match_inner s) as [found|] eqn:Hin.
      * intros [= <- <-]. apply match_inner_spec in Hin as [-> Hdots].
        split_and!; [done | apply not_elem_of_nil | constructor | done].
      * simpl. destruct (Brand.bracketMatch s) as [[p i]|] eqn:Hb; [|discriminate].
        intros _. exfalso. destruct (IH p i eq_refl) as (-> & _ & Hp & Hi).
        rewrite <- !str_app_assoc in Hin. rewrite match_inner_complete in Hin; [done|].
        rewrite !dots_app. split_and!; [done | by repeat constructor | done].
    + destruct (Brand.is_dot c) eqn:Hdot; [|discriminate].
      destruct (Brand.bracketMatch s) as [[p i]|] eqn:Hb; [|discriminate].
      simpl. intros [= <- <-]. destruct (IH p i eq_refl) as (-> & Hnot & Hp & Hi).
      split_and!; [done | | by apply dots_cons | done].
      simpl. rewrite elem_of_cons. intros [?|?]; [congruence | done].
  - intros (-> & Hnot & Hp & Hi). induction pre as [|c pre IH].
    + change ("" +:+ "(" +:+ inner +:+ ")") with (String "(" (inner +:+ ")")).
      simpl. by rewrite match_inner_complete.
    + simpl in Hnot. rewrite not_elem_of_cons in Hnot. destruct Hnot as [Hc Hnot].
      apply dots_cons in Hp as [Hdot Hp].
      rewrite str_app_cons. simpl.
      destruct (Ascii.eqb_spec c "(") as [->|_]; [done|].
      rewrite Hdot, (IH Hnot Hp). done.
Qed.

Lemma str_length_app a b :
  String.length (a +:+ b) = String.length a + String.length b.
Proof. induction a as [|c a IH]; [done|]. rewrite str_app_cons. simpl. by rewrite IH. Qed.

Lemma split_go_cons sep k s : ∃ p ps, Brand.split_go sep k s = p :: ps.
Proof.
  revert k. induction s as [|c s IH]; intros k.
  - destruct k; simpl; eauto.
  - destruct k as [|k]; simpl; [|apply IH].
    destruct (sep (String c s)); [eauto|].
    destruct (IH 0) as (p & ps & ->). simpl. eauto.
Qed.

Lemma split_go_skip sep m s :
  Brand.split_go sep (String.length m) (m +:+ s) = Brand.split_go sep 0 s.
Proof. induction m as [|c m IH]; [by destruct s|]. rewrite str_app_cons. simpl. apply IH. Qed.

Lemma split_at_match sep m rest :
  m ≠ "" → sep (m +:+ rest) = Some rest →
  Brand.split sep (m +:+ rest) = "" :: Brand.split sep rest.
Proof.
  intros Hm Hsep. destruct m as [|c m]; [done|]. unfold Brand.split.
  rewrite str_app_cons in *. simpl. rewrite Hsep.
  rewrite str_length_app. replace (_ + _ - _) with (String.length m) by lia.
  by rewrite split_go_skip.
Qed.

Lemma split_unmatched_prefix sep l s :
  (∀ l1 l2, l = l1 +:+ l2 → l2 ≠ "" → sep (l2 +:+ s) = None) →
  Brand.split sep (l +:+ s) = prepend l (Brand.split sep s).
Proof.
  unfold Brand.split. induction l as [|c l IH]; intros Hno.
  - rewrite str_app_nil_l. by destruct (split_go_cons sep 0 s) as (p & ps & ->).
  - rewrite str_app_cons. simpl. rewrite <- str_app_cons.
    rewrite (Hno "" (String c l)) by done.
    rewrite IH.
    + by destruct (split_go_cons sep 0 s) as (p & ps & ->).
    + intros l1 l2 -> Hl2. by apply (Hno (String c l1) l2).
Qed.

(** A text is cut at the first match of the separator. *)
Lemma split_first_match sep l m rest :
  m ≠ "" → sep (m +:+ rest) = Some rest →
  (∀ l1 l2, l = l1 +:+ l2 → l2 ≠ "" → sep (l2 +:+ m +:+ rest) = None) →
  Brand.split sep (l +:+ m +:+ rest) = l :: Brand.split sep rest.
Proof.
  intros Hm Hsep Hno. rewrite split_unmatched_prefix by done.
  rewrite split_at_match by done. simpl. by rewrite str_app_nil_r.
Qed.

Lemma split_no_match sep s :
  (∀ l1 l2, s = l1 +:+ l2 → l2 ≠ "" → sep l2 = None) → Brand.split sep s = [s].
Proof.
  intros Hno. rewrite <- (str_app_nil_r s) at 1.
  rewrite split_unmatched_prefix.
  - simpl. by rewrite str_app_nil_r.
  - intros l1 l2 Hs Hl2. rewrite str_app_nil_r. by eapply Hno.
Qed.

Lemma brandItems_empty : Brand.brandItems "" = [].
Proof. done. Qed.

Lemma toLowerCase_app a b :
  Pages.toLowerCase (a +:+ b) = Pages.toLowerCase a +:+ Pages.toLowerCase b.
Proof. induction a as [|c a IH]; [done|]. rewrite str_app_cons. simpl. by rewrite IH. Qed.

Lemma toLowerCase_app_inv m a b :
  Pages.toLowerCase m = a +:+ b →
  ∃ m1 m2, m = m1 +:+ m2 ∧ Pages.toLowerCase m1 = a ∧ Pages.toLowerCase m2 = b.
Proof.
  revert m. induction a as [|c a IH]; intros m Hm.
  - by exists "", m.
  - destruct m as [|d m]; [done|]. rewrite str_app_cons in Hm. simpl in Hm.
    injection Hm as Hd Hm. destruct (IH m Hm) as (m1 & m2 & -> & H1 & H2).
    exists (String d m1), m2. simpl. by rewrite Hd, H1.
Qed.

Lemma toLowerCase_single m d :
  Pages.toLowerCase m = String d "" → ∃ c, m = String c "" ∧ Brand.lower c = d.
Proof.
  destruct m as [|c [|e m]]; [done | | done]. simpl. intros [= Hc]. by exists c.
Qed.

(** Only the blank becomes a blank in lower case, and only the dash a
    dash. *)
Lemma lower_blank c : Brand.lower c = " "%char → c = " "%char.
Proof. destruct c as [[] [] [] [] [] [] [] []]; vm_compute; congruence. Qed.

Lemma lower_dash c : Brand.lower c = "-"%char → c = "-"%char.
Proof. destruct c as [[] [] [] [] [] [] [] []]; vm_compute; congruence. Qed.

Lemma singleSpaced_suffix a b : singleSpaced (a +:+ b) → singleSpaced b.
Proof.
  intros [Hadj Hall]. split; [by eapply adjacent_suffix|].
  rewrite chars_app in Hall. by apply Forall_app in Hall as [_ ?].
Qed.

Lemma singleSpaced_tail c s : singleSpaced (String c s) → singleSpaced s.
Proof. apply (singleSpaced_suffix (String c "")). Qed.

Lemma singleSpaced_head c s :
  singleSpaced (String c s) → Text.is_space c = true →
  c = " "%char ∧ startsIn Text.is_space s = false.
Proof.
  intros [Hadj Hall] Hc. split.
  - apply Forall_cons in Hall as [[Hno| ->] _]; [congruence | done].
  - simpl in Hadj. rewrite Hc in Hadj. apply orb_false_elim in Hadj as [Hpair _].
    by destruct s.
Qed.

Lemma tidy_singleSpaced s : tidy s → singleSpaced s.
Proof. by intros (? & ? & _). Qed.

(** In such a text [\s+] matches one blank. *)
Lemma eat_spaces_spec s rest :
  singleSpaced s → Brand.eat_spaces s = Some rest ↔ s = String " " rest.
Proof.
  intros Hs. destruct s as [|c s]; [done|]. simpl.
  destruct (Text.is_space c) eqn:Hc.
  - destruct (singleSpaced_head c s Hs Hc) as [-> Hstart].
    rewrite strip_start_fixed by done. split; congruence.
  - split; [done|]. intros [= -> _]. done.
Qed.

Lemma eat_char_spec c s rest : Brand.eat_char c s = Some rest ↔ s = String c rest.
Proof.
  destruct s as [|d s]; [done|]. simpl. destruct (Ascii.eqb_spec c d) as [->|Hne].
  - split; congruence.
  - split; [done | congruence].
Qed.

Lemma eat_literal_ci_spec lit s rest :
  Brand.eat_literal_ci lit s = Some rest
  ↔ ∃ m, s = m +:+ rest ∧ Pages.toLowerCase m = Pages.toLowerCase lit.
Proof.
  revert s. induction lit as [|c lit IH]; intros s; simpl.
  - split.
    + intros [= ->]. by exists "".
    + intros ([|d m] & -> & Hm); [done | done].
  - destruct s as [|d s].
    { split; [done|]. by intros ([|e m] & Hs & Hm). }
    destruct (Ascii.eqb_spec (Brand.lower c) (Brand.lower d)) as [Hcd|Hcd].
    + rewrite IH. split.
      * intros (m & -> & Hm). exists (String d m). simpl. by rewrite Hm, Hcd.
      * intros ([|e m] & Hs & Hm); [done|]. rewrite str_app_cons in Hs.
        injection Hs as -> ->. injection Hm as _ Hm. by exists m.
    + split; [done|]. intros ([|e m] & Hs & Hm); [done|].
      rewrite str_app_cons in Hs. injection Hs as -> ->. injection Hm as He _.
      congruence.
Qed.

(** The pattern of the separator, matched at the start of a text with
    single blanks only, matches the separator in whatever letter case. *)
Lemma match_other_brands_spec s rest :
  singleSpaced s →
  Brand.match_other_brands s = Some rest
  ↔ ∃ m, s = m +:+ rest ∧ Pages.toLowerCase m = otherBrandNames.
Proof.
  intros Hs. unfold Brand.match_other_brands. split.
  - destruct (Brand.eat_spaces s) as [s1|] eqn:H1; [|done]. cbn [mbind option_bind].
    apply eat_spaces_spec in H1; [|done]. subst s.
    pose proof (singleSpaced_tail _ _ Hs) as Hs1.
    destruct (Brand.eat_char "-" s1) as [s2|] eqn:H2; [|done]. cbn [mbind option_bind].
    apply eat_char_spec in H2. subst s1.
    pose proof (singleSpaced_tail _ _ Hs1) as Hs2.
    destruct (Brand.eat_spaces s2) as [s3|] eqn:H3; [|done]. cbn [mbind option_bind].
    apply eat_spaces_spec in H3; [|done]. subst s2.
    pose proof (singleSpaced_tail _ _ Hs2) as Hs3.
    destruct (Brand.eat_literal_ci "Other brand names:" s3) as [s4|] eqn:H4; [|done].
    cbn [mbind option_bind]. apply eat_literal_ci_spec in H4 as (m & -> & Hm).
    pose proof (singleSpaced_suffix _ _ Hs3) as Hs4.
    intros H5. apply eat_spaces_spec in H5; [|done]. subst s4.
    exists (String " " (String "-" (String " " (m +:+ " ")))). split.
    + rewrite !str_app_cons. do 3 f_equal. by rewrite str_app_assoc.
    + cbn [Pages.toLowerCase]. rewrite toLowerCase_app, Hm. by vm_compute.
  - intros (m & -> & Hm).
    change otherBrandNames
      with (" " +:+ "-" +:+ " " +:+ Pages.toLowerCase "Other brand names:" +:+ " ")
      in Hm.
    apply toLowerCase_app_inv in Hm as (m1 & r1 & -> & Hm1 & Hm).
    apply toLowerCase_app_inv in Hm as (m2 & r2 & -> & Hm2 & Hm).
    apply toLowerCase_app_inv in Hm as (m3 & r3 & -> & Hm3 & Hm).
    apply toLowerCase_app_inv in Hm as (m4 & m5 & -> & Hm4 & Hm5).
    apply toLowerCase_single in Hm1 as (c1 & -> & ->%lower_blank).
    apply toLowerCase_single in Hm2 as (c2 & -> & ->%lower_dash).
    apply toLowerCase_single in Hm3 as (c3 & -> & ->%lower_blank).
    apply toLowerCase_single in Hm5 as (c5 & -> & ->%lower_blank).
    rewrite !str_app_assoc, !str_app_cons, !str_app_nil_l in Hs |- *.
    pose proof (singleSpaced_tail _ _ Hs) as Hs1.
    pose proof (singleSpaced_tail _ _ Hs1) as Hs2.
    pose proof (singleSpaced_tail _ _ Hs2) as Hs3.
    pose proof (singleSpaced_suffix _ _ Hs3) as Hs4.
    rewrite (proj2 (eat_spaces_spec _ _ Hs) eq_refl). cbn [mbind option_bind].
    rewrite (proj2 (eat_char_spec _ _ _) eq_refl). cbn [mbind option_bind].
    rewrite (proj2 (eat_spaces_spec _ _ Hs2) eq_refl). cbn [mbind option_bind].
    rewrite (proj2 (eat_literal_ci_spec _ _ _) (ex_intro _ m4 (conj eq_refl Hm4))).
    cbn [mbind option_bind]. by rewrite (proj2 (eat_spaces_spec _ _ Hs4) eq_refl).
Qed.

Lemma separator_nonempty m : Pages.toLowerCase m = otherBrandNames → m ≠ "".
Proof. by intros Hm ->. Qed.

Lemma separatorAt_match s :
  singleSpaced s → separatorAt s ↔ is_Some (Brand.match_other_brands s).
Proof.
  intros Hs. split.
  - intros (m & rest & -> & Hm). exists rest. apply match_other_brands_spec; eauto.
  - intros [rest Hrest]. apply match_other_brands_spec in Hrest as (m & -> & Hm); [|done].
    by exists m, rest.
Qed.

Lemma no_match_in left s :
  singleSpaced (left +:+ s) → noSeparatorIn left s →
  ∀ l1 l2, left = l1 +:+ l2 → l2 ≠ "" → Brand.match_other_brands (l2 +:+ s) = None.
Proof.
  intros Hs Hno l1 l2 -> Hl2. rewrite str_app_assoc in Hs.
  apply singleSpaced_suffix in Hs.
  destruct (Brand.match_other_brands (l2 +:+ s)) as [rest|] eqn:Hm; [|done].
  destruct (Hno l1 l2 eq_refl Hl2). apply separatorAt_match; [done|]. by exists rest.
Qed.

(** The first piece of a text that goes on with a separator, or ends. *)
Lemma split_head right tail :
  singleSpaced (right +:+ tail) → noSeparatorIn right tail →
  tail = "" ∨ separatorAt tail →
  head (Brand.split Brand.match_other_brands (right +:+ tail)) = Some right.
Proof.
  intros Hs Hno [->|(m & rest & -> & Hm)].
  - rewrite split_unmatched_prefix by (by apply no_match_in).
    simpl. by rewrite str_app_nil_r.
  - rewrite split_first_match; [done | by apply separator_nonempty | |].
    + apply match_other_brands_spec; [by apply singleSpaced_suffix in Hs|]. eauto.
    + by apply no_match_in.
Qed.

(** The title with its first separator, and the text up to the next one. *)
Lemma parse_cut title left m right tail :
  Text.clean title = left +:+ m +:+ right +:+ tail →
  Pages.toLowerCase m = otherBrandNames →
  noSeparatorIn left (m +:+ right +:+ tail) → noSeparatorIn right tail →
  tail = "" ∨ separatorAt tail →
  Brand.parseBrandNames title =
    match Brand.bracketMatch left with
    | None => (left, Brand.dedupe ∅ (Brand.brandItems right))
    | Some (pre, inner) =>
        (Text.trim pre,
         Brand.dedupe ∅ (Brand.brandItems right ++ Brand.brandItems inner))
    end.
Proof.
  intros Hclean Hm Hleft Hright Htail.
  pose proof (tidy_singleSpaced _ (clean_tidy title)) as Hs. rewrite Hclean in Hs.
  pose proof (singleSpaced_suffix _ _ Hs) as Hs1.
  pose proof (singleSpaced_suffix _ _ Hs1) as Hs2.
  unfold Brand.parseBrandNames. rewrite Hclean.
  rewrite split_first_match;
    [| by apply separator_nonempty
     | apply match_other_brands_spec; [done | eauto]
     | by apply no_match_in].
  cbn [lookup list_lookup default].
  pose proof (split_head right tail Hs2 Hright Htail) as Hhead.
  destruct (Brand.split Brand.match_other_brands (right +:+ tail)) as [|part parts];
    [done|]. injection Hhead as ->. cbn [lookup list_lookup default id].
  destruct right as [|c right]; [|done].
  cbn [Text.truthy]. by rewrite brandItems_empty.
Qed.

Lemma noSeparatorIn_whole s : ¬ hasSeparator s → noSeparatorIn s "".
Proof.
  intros Hno l1 l2 -> _ Hsep. rewrite str_app_nil_r in Hsep.
  apply Hno. by exists l1, l2.
Qed.

Lemma parse_whole title :
  ¬ hasSeparator (Text.clean title) →
  Brand.parseBrandNames title =
    match Brand.bracketMatch (Text.clean title) with
    | None => (Text.clean title, [])
    | Some (pre, inner) => (Text.trim pre, Brand.dedupe ∅ (Brand.brandItems inner))
    end.
Proof.
  intros Hno. pose proof (tidy_singleSpaced _ (clean_tidy title)) as Hs.
  unfold Brand.parseBrandNames.
  rewrite split_no_match.
  - done.
  - intros l1 l2 Hcut Hl2. rewrite <- (str_app_nil_r l2).
    eapply no_match_in; [| by apply noSeparatorIn_whole | done | done].
    by rewrite str_app_nil_r.
Qed.

(** A text holds no separator, or it has a first one. *)
Lemma first_separator s :
  singleSpaced s →
  noSeparatorIn s ""
  ∨ ∃ left m rest,
      s = left +:+ m +:+ rest ∧ Pages.toLowerCase m = otherBrandNames
      ∧ noSeparatorIn left (m +:+ rest).
Proof.
  induction s as [|c s IH]; intros Hs.
  - left. intros [|? l1] l2 Hcut Hl2; [|done]. rewrite str_app_nil_l in Hcut. congruence.
  - destruct (Brand.match_other_brands (String c s)) as [rest|] eqn:Hmatch.
    + right. apply match_other_brands_spec in Hmatch as (m & Hcut & Hm); [|done].
      exists "", m, rest. split_and!; [done | done |].
      intros [|? l1] l2 Hl Hl2; [|done]. rewrite str_app_nil_l in Hl. congruence.
    + assert (¬ separatorAt (String c s)) as Hhere.
      { rewrite separatorAt_match by done. rewrite Hmatch. by intros [? ?]. }
      destruct (IH (singleSpaced_tail _ _ Hs)) as [Hno|(left & m & rest & -> & Hm & Hno)].
      * left. intros [|d l1] l2 Hcut Hl2.
        -- rewrite str_app_nil_l in Hcut. subst l2. by rewrite str_app_nil_r.
        -- rewrite str_app_cons in Hcut. injection Hcut as _ Hcut. by eapply Hno.
      * right. exists (String c left), m, rest. split_and!; [done | done |].
        intros [|d l1] l2 Hcut Hl2.
        -- rewrite str_app_nil_l in Hcut. subst l2. by rewrite str_app_cons.
        -- rewrite str_app_cons in Hcut. injection Hcut as _ Hcut. by eapply Hno.
Qed.

Lemma hasSeparator_whole s : noSeparatorIn s "" → ¬ hasSeparator s.
Proof.
  intros Hno (before & after & -> & Hsep).
  apply (Hno before after eq_refl).
  - intros ->. by destruct Hsep as ([|] & ? & ? & ?).
  - by rewrite str_app_nil_r.
Qed.

(** Every cleaned title is without a separator or cut by its first. *)
Lemma cut_exists title :
  ¬ hasSeparator (Text.clean title)
  ∨ ∃ left m right tail,
      Text.clean title = left +:+ m +:+ right +:+ tail
      ∧ Pages.toLowerCase m = otherBrandNames
      ∧ noSeparatorIn left (m +:+ right +:+ tail)
      ∧ noSeparatorIn right tail
      ∧ (tail = "" ∨ separatorAt tail).
Proof.
  pose proof (tidy_singleSpaced _ (clean_tidy title)) as Hs.
  destruct (first_separator _ Hs) as [Hno|(left & m & rest & Hcut & Hm & Hleft)].
  { left. by apply hasSeparator_whole. }
  right. rewrite Hcut in Hs.
  do 2 apply singleSpaced_suffix in Hs.
  destruct (first_separator _ Hs) as [Hno|(right & m' & rest' & -> & Hm' & Hright)].
  - exists left, m, rest, "". rewrite str_app_nil_r. by split_and!; [| | | | left].
  - exists left, m, right, (m' +:+ rest'). split_and!; [done | done | done | done |].
    right. by exists m', rest'.
Qed.

Lemma clean_dots title left rest : Text.clean title = left +:+ rest → dots left.
Proof.
  intros Hclean. destruct (clean_tidy title) as (_ & Hall & _).
  rewrite Hclean, chars_app in Hall. apply Forall_app in Hall as [Hall _].
  eapply Forall_impl; [exact Hall|]. intros c [Hc| ->]; [|done].
  unfold Brand.is_dot.
  destruct (Ascii.eqb_spec c "010") as [->|_]; [done|].
  by destruct (Ascii.eqb_spec c "013") as [->|_].
Qed.

(** C8: the title of the specification parses to the name "Paracetamol"
    and the brands Hedex, Panadol and Calpol, and a title with a dash
    between blanks in its name keeps that dash.  In general the brand list
    has no duplicates and holds every item once.  In a cleaned title the
    pattern of the separator matches the text " - other brand names: " in
    whatever letter case, and nothing else.  A cleaned title
    [left m right tail], [m] its first separator and [tail] empty or
    beginning with the next one, is cut into [left] and [right]; a cleaned
    title without a separator is all [left]; every title is of one of the
    two kinds.  When [left] is [pre(inner)] with no opening parenthesis in
    [pre], the name is [pre] trimmed and the items of [inner] join those of
    [right]; when [left] is not of this form, it is the name. *)
Theorem parseBrandNames_title :
  Brand.parseBrandNames "Paracetamol (Panadol, Calpol) - Other brand names: Hedex"
    = ("Paracetamol", ["Hedex"; "Panadol"; "Calpol"])
  ∧ Brand.parseBrandNames
      "Vitamin B12 - cyanocobalamin (Cytamen/Cytacon) - other  Brand names: Cytamen"
    = ("Vitamin B12 - cyanocobalamin", ["Cytamen"; "Cytacon"])
  ∧ (∀ title, NoDup (Brand.parseBrandNames title).2)
  ∧ (∀ items x, x ∈ Brand.dedupe ∅ items ↔ x ∈ items)
  ∧ (∀ title before after rest,
       Text.clean title = before +:+ after →
       Brand.match_other_brands after = Some rest
       ↔ ∃ m, after = m +:+ rest ∧ Pages.toLowerCase m = otherBrandNames)
  ∧ (∀ title left m right tail,
       Text.clean title = left +:+ m +:+ right +:+ tail →
       Pages.toLowerCase m = otherBrandNames →
       noSeparatorIn left (m +:+ right +:+ tail) →
       noSeparatorIn right tail →
       tail = "" ∨ separatorAt tail →
       Brand.parseBrandNames title =
         match Brand.bracketMatch left with
         | None => (left, Brand.dedupe ∅ (Brand.brandItems right))
         | Some (pre, inner) =>
             (Text.trim pre,
              Brand.dedupe ∅ (Brand.brandItems right ++ Brand.brandItems inner))
         end)
  ∧ (∀ title,
       ¬ hasSeparator (Text.clean title) →
       Brand.parseBrandNames title =
         match Brand.bracketMatch (Text.clean title) with
         | None => (Text.clean title, [])
         | Some (pre, inner) =>
             (Text.trim pre, Brand.dedupe ∅ (Brand.brandItems inner))
         end)
  ∧ (∀ title,
       ¬ hasSeparator (Text.clean title)
       ∨ ∃ left m right tail,
           Text.clean title = left +:+ m +:+ right +:+ tail
           ∧ Pages.toLowerCase m = otherBrandNames
           ∧ noSeparatorIn left (m +:+ right +:+ tail)
           ∧ noSeparatorIn right tail
           ∧ (tail = "" ∨ separatorAt tail))
  ∧ (∀ title left rest pre inner,
       Text.clean title = left +:+ rest →
       Brand.bracketMatch left = Some (pre, inner)
       ↔ left = pre +:+ "(" +:+ inner +:+ ")"
         ∧ "("%char ∉ String.list_ascii_of_string pre)
  ∧ (∀ left pre inner,
       Brand.bracketMatch left = Some (pre, inner)
       ↔ left = pre +:+ "(" +:+ inner +:+ ")"
         ∧ ("("%char ∉ String.list_ascii_of_string pre)
         ∧ dots pre ∧ dots inner).
Proof.
  split_and!.
  - by vm_compute.
  - by vm_compute.
  - intros title. unfold Brand.parseBrandNames.
    destruct (Brand.bracketMatch _) as [[pre inner]|]; apply dedupe_NoDup.
  - intros items x. rewrite dedupe_elem. split; [tauto|].
    intros Hin. split; [done | apply not_elem_of_empty].
  - intros title before after rest Hclean. apply match_other_brands_spec.
    pose proof (tidy_singleSpaced _ (clean_tidy title)) as Hs. rewrite Hclean in Hs.
    by apply singleSpaced_suffix in Hs.
  - apply parse_cut.
  - apply parse_whole.
  - apply cut_exists.
  - intros title left rest pre inner Hclean. rewrite bracketMatch_spec. split.
    + by intros (? & ? & _).
    + intros [Hleft Hpre]. pose proof (clean_dots _ _ _ Hclean) as Hdots.
      rewrite Hleft in Hdots. apply dots_app in Hdots as [Hp Hdots].
      apply dots_app in Hdots as [_ Hdots]. apply dots_app in Hdots as [Hi _]. done.
  - apply bracketMatch_spec.
Qed.

End BrandNames.

(** ** Sections *)

Section Sections.

Implicit Types (n h main document : Dom.node) (nodes siblings body : list Dom.node)
  (section : ContentSection) (blocks : list (Dom.node * list Dom.node)).

Lemma withSiblings_element names tag cs :
  Dom.withSiblings names (Dom.Element tag cs) = walk names cs.
Proof. induction cs as [|c rest IH]; [done|]. simpl in *. by rewrite IH. Qed.

Lemma collect_spec siblings section :
  Dom.collect siblings section =
    {| heading := heading section;
       paragraphs := paragraphs section ++ paragraphsOf (upToNextHeading siblings);
       bullets := bullets section ++ bulletsOf (upToNextHeading siblings) |}.
Proof.
  revert section. induction siblings as [|n rest IH]; intros section.
  - simpl. unfold paragraphsOf, bulletsOf. simpl. rewrite !app_nil_r. by destruct section.
  - simpl. change Dom.headingSelector with ["h2"; "h3"].
    destruct (Dom.tagIs ["h2"; "h3"] n) eqn:Hh.
    { unfold paragraphsOf, bulletsOf. simpl. rewrite !app_nil_r. by destruct section. }
    rewrite IH. unfold paragraphsOf, bulletsOf. simpl.
    change (Dom.cleanText n) with (cleaned n).
    destruct (Dom.tagIs ["p"] n) eqn:Hp; destruct (Dom.tagIs ["ul"; "ol"] n) eqn:Hl;
      simpl; try destruct (Text.truthy (cleaned n)) eqn:Ht; simpl;
      rewrite <- ?app_assoc; done.
Qed.

Lemma sectionOf_spec h siblings :
  Dom.sectionOf (h, siblings) = sectionFrom h (upToNextHeading siblings).
Proof. unfold Dom.sectionOf. by rewrite collect_spec. Qed.

Lemma querySelectorAll_element names tag cs :
  Dom.querySelectorAll names (Dom.Element tag cs)
  = mjoin ((λ c, (if Dom.tagIs names c then [c] else [])
                   ++ Dom.querySelectorAll names c) <$> cs).
Proof.
  induction cs as [|c rest IH]; [done|]. simpl in *. by rewrite IH, <- app_assoc.
Qed.

(** The headings are met in document order. *)
Lemma withSiblings_fst names :
  ∀ n, (λ found : Dom.node * list Dom.node, found.1) <$> Dom.withSiblings names n
       = Dom.querySelectorAll names n.
Proof.
  fix IH 1. intros [data|tag cs]; [done|].
  rewrite withSiblings_element, querySelectorAll_element.
  induction cs as [|c rest IHcs]; [done|].
  simpl. rewrite !fmap_app, IH, IHcs.
  by destruct (Dom.tagIs names c); rewrite <- ?app_assoc.
Qed.

Lemma walk_plain_prefix nodes rest :
  Forall plain nodes →
  walk ["h2"; "h3"] (nodes ++ rest) = walk ["h2"; "h3"] rest.
Proof.
  induction 1 as [|n nodes [Htag Hin] _ IH]; [done|].
  simpl. by rewrite Htag, Hin, IH.
Qed.

Lemma upToNextHeading_body body blocks :
  Forall plain body → Forall (λ b, plainHeading b.1) blocks →
  upToNextHeading (List.filter Dom.isElement (body ++ flatten blocks))
  = List.filter Dom.isElement body.
Proof.
  intros Hbody Hblocks. induction Hbody as [|n body [Htag _] _ IH].
  - destruct Hblocks as [|[h b] blocks [Hh _] _]; [done|].
    destruct h as [data|tag cs]; [done|]. simpl in *. by rewrite Hh.
  - simpl. destruct (Dom.isElement n); [|done]. simpl. by rewrite Htag, IH.
Qed.

Lemma filter_tag_elements names nodes :
  List.filter (Dom.tagIs names) (List.filter Dom.isElement nodes)
  = List.filter (Dom.tagIs names) nodes.
Proof.
  induction nodes as [|[data|tag cs] nodes IH]; [done | done |].
  simpl. by rewrite IH.
Qed.

Lemma sectionFrom_elements h body :
  sectionFrom h (List.filter Dom.isElement body) = sectionFrom h body.
Proof.
  unfold sectionFrom, paragraphsOf, bulletsOf. by rewrite !filter_tag_elements.
Qed.

Lemma flatten_cons h body blocks :
  flatten ((h, body) :: blocks) = h :: body ++ flatten blocks.
Proof. done. Qed.

Lemma walk_cons names c rest :
  walk names (c :: rest)
  = (if Dom.tagIs names c then [(c, List.filter Dom.isElement rest)] else [])
      ++ Dom.withSiblings names c ++ walk names rest.
Proof. done. Qed.

Lemma walk_flatten blocks :
  Forall (λ b, plainHeading b.1 ∧ Forall plain b.2) blocks →
  Dom.sectionOf <$> walk ["h2"; "h3"] (flatten blocks)
  = (λ b, sectionFrom b.1 b.2) <$> blocks.
Proof.
  induction 1 as [|[h body] blocks [[Hh Hin] Hbody] Hblocks IH]; [done|].
  cbn [fst snd] in Hh, Hin, Hbody.
  rewrite flatten_cons, walk_cons, Hh, Hin.
  rewrite walk_plain_prefix by done.
  rewrite app_nil_l. cbn [app]. rewrite !fmap_cons, IH. cbn [fst snd].
  f_equal. rewrite sectionOf_spec, upToNextHeading_body; [apply sectionFrom_elements | done |].
  eapply Forall_impl; [exact Hblocks|]. by intros b [? _].
Qed.

Lemma descendants_element tag cs :
  Pages.descendants (Dom.Element tag cs)
  = mjoin ((λ c, (if Dom.isElement c then [c] else []) ++ Pages.descendants c) <$> cs).
Proof.
  induction cs as [|c rest IH]; [done|]. simpl in *. by rewrite IH, <- app_assoc.
Qed.

Lemma mjoin_cons {A} (x : list A) (l : list (list A)) : mjoin (x :: l) = x ++ mjoin l.
Proof. done. Qed.

Lemma tagIs_element names n : Dom.tagIs names n = true → Dom.isElement n = true.
Proof. by destruct n. Qed.

Lemma querySelectorAll_descendants names :
  ∀ n, Dom.querySelectorAll names n = List.filter (Dom.tagIs names) (Pages.descendants n).
Proof.
  fix IH 1. intros [data|tag cs]; [done|].
  rewrite querySelectorAll_element, descendants_element.
  induction cs as [|c rest IHcs]; [done|].
  rewrite !fmap_cons, !mjoin_cons, !List.filter_app, <- IH, IHcs.
  do 2 f_equal. destruct c as [data|tag' cs']; [done|]. simpl.
  by destruct (bool_decide _).
Qed.

Lemma node_induction (P : Dom.node → Prop) :
  (∀ data, P (Dom.Txt data)) →
  (∀ tag cs, Forall P cs → P (Dom.Element tag cs)) →
  ∀ n, P n.
Proof.
  intros Htxt Helement. fix IH 1. intros [data|tag cs]; [apply Htxt|].
  apply Helement. induction cs as [|c rest IHcs]; constructor; [apply IH | apply IHcs].
Qed.

Lemma descendants_elem tag cs x :
  x ∈ Pages.descendants (Dom.Element tag cs)
  ↔ ∃ c, c ∈ cs ∧ ((x = c ∧ Dom.isElement c = true) ∨ x ∈ Pages.descendants c).
Proof.
  rewrite descendants_element. induction cs as [|c rest IH].
  - simpl. rewrite elem_of_nil. split; [done|]. by intros (c & Hc%elem_of_nil & _).
  - rewrite fmap_cons, mjoin_cons, !elem_of_app, IH. split.
    + intros [[Hx|Hx]|(d & Hd & Hx)].
      * exists c. split; [left|]. destruct (Dom.isElement c) eqn:Hc.
        -- apply list_elem_of_singleton in Hx. by left.
        -- by apply elem_of_nil in Hx.
      * exists c. split; [left | by right].
      * exists d. split; [by right | done].
    + intros (d & [->|Hd]%elem_of_cons & Hx).
      * left. destruct Hx as [[-> Hc]|Hx]; [left | by right].
        rewrite Hc. by left.
      * right. by exists d.
Qed.

Lemma walk_elem names cs h siblings :
  (h, siblings) ∈ walk names cs
  ↔ (Dom.tagIs names h = true
     ∧ ∃ before following,
         cs = before ++ h :: following
         ∧ siblings = List.filter Dom.isElement following)
    ∨ ∃ c, c ∈ cs ∧ (h, siblings) ∈ Dom.withSiblings names c.
Proof.
  induction cs as [|c rest IH].
  - simpl. rewrite elem_of_nil. split; [done|].
    intros [(_ & before & following & Hcs & _)|(c & Hc%elem_of_nil & _)];
      [by destruct before | done].
  - rewrite walk_cons, !elem_of_app, IH. split.
    + intros [Hhere|[Hin|[(Htag & before & following & -> & ->)|(d & Hd & Hin)]]].
      * destruct (Dom.tagIs names c) eqn:Hc; [|by apply elem_of_nil in Hhere].
        apply list_elem_of_singleton in Hhere. injection Hhere as -> ->.
        left. split; [done|]. by exists [], rest.
      * right. exists c. split; [left | done].
      * left. split; [done|]. by exists (c :: before), following.
      * right. exists d. split; [by right | done].
    + intros [(Htag & [|b before] & following & Hcs & ->)|(d & [->|Hd]%elem_of_cons & Hin)].
      * injection Hcs as -> ->. left. rewrite Htag. by left.
      * injection Hcs as -> ->. right. right. left. split; [done|].
        by exists before, following.
      * right. by left.
      * right. right. right. by exists d.
Qed.

(** The headings below a node and the siblings the loop walks from each:
    the children that follow it under its parent, the elements among
    them. *)
Lemma withSiblings_elem names h siblings :
  ∀ n, (h, siblings) ∈ Dom.withSiblings names n
       ↔ Dom.tagIs names h = true
         ∧ ∃ parent following,
             parent ∈ n :: Pages.descendants n
             ∧ childOf parent h following
             ∧ siblings = List.filter Dom.isElement following.
Proof.
  apply node_induction.
  - intros data. simpl. rewrite elem_of_nil. split; [done|].
    intros (_ & parent & following & Hparent & (tag & before & ->) & _).
    by apply list_elem_of_singleton in Hparent.
  - intros tag cs IH. rewrite withSiblings_element, walk_elem. split.
    + intros [(Htag & before & following & -> & ->)|(c & Hc & Hin)].
      * split; [done|]. exists (Dom.Element tag (before ++ h :: following)), following.
        split_and!; [left | by exists tag, before | done].
      * rewrite Forall_forall in IH. apply (IH c Hc) in Hin
          as (Htag & parent & following & Hparent & Hchild & ->).
        split; [done|]. exists parent, following. split_and!; [|done|done].
        right. apply descendants_elem. exists c. split; [done|].
        apply elem_of_cons in Hparent as [->|Hparent]; [left | by right].
        split; [done|]. by destruct Hchild as (? & ? & ->).
    + intros (Htag & parent & following & [->|Hparent]%elem_of_cons & Hchild & ->).
      * left. split; [done|]. destruct Hchild as (tag' & before & [= -> ->]).
        by exists before, following.
      * right. apply descendants_elem in Hparent as (c & Hc & Hparent).
        exists c. split; [done|]. rewrite Forall_forall in IH. apply (IH c Hc).
        split; [done|]. exists parent, following. split_and!; [|done|done].
        destruct Hparent as [[-> _]|Hparent]; [left | by right].
Qed.

(** The main content is the first [main] element of the page. *)
Lemma queryMain_first document :
  Dom.queryMain document
  = head (List.filter (Dom.tagIs ["main"]) (document :: Pages.descendants document)).
Proof.
  unfold Dom.queryMain. rewrite querySelectorAll_descendants.
  cbn [List.filter]. by destruct (Dom.tagIs ["main"] document).
Qed.

Lemma words_shape s :
  Forall (λ w, w ≠ "" ∧ Forall (λ c, Text.is_space c = false) (chars w)) (words s).
Proof.
  induction s as [|c s IH]; [constructor|]. simpl.
  destruct (Text.is_space c) eqn:Hc; [done|].
  destruct (startsIn Text.is_space s).
  - constructor; [|done]. split; [done|]. by repeat constructor.
  - destruct (words s) as [|w ws]; [repeat constructor; done|].
    apply Forall_cons in IH as [[_ Hw] Hws]. constructor; [|done].
    split; [done|]. by constructor.
Qed.

Lemma join_cons_cons sep w v ws :
  Pages.join sep (w :: v :: ws) = w +:+ sep +:+ Pages.join sep (v :: ws).
Proof. done. Qed.

Lemma join_words_cons s w ws :
  words s = w :: ws → ∃ c rest, Pages.join " " (words s) = String c rest.
Proof.
  intros Hs. pose proof (words_shape s) as Hall. rewrite Hs in Hall |- *.
  apply Forall_cons in Hall as [[Hw _] _]. destruct w as [|c w]; [done|].
  destruct ws as [|v ws]; [by exists c, w|].
  rewrite join_cons_cons, str_app_cons. eauto.
Qed.

Lemma collapse_starts s :
  startsIn Text.is_space (Text.replace_runs Text.is_space " " true s) = false.
Proof.
  induction s as [|c s IH]; [done|]. simpl.
  by destruct (Text.is_space c) eqn:Hc; [|simpl].
Qed.

(** The collapsed text without the white space at its end, in words. *)
Lemma strip_end_collapse s :
  ∀ b, Text.strip_end Text.is_space (Text.replace_runs Text.is_space " " b s)
       = match words s with
         | [] => ""
         | _ => (if negb b && startsIn Text.is_space s then " " else "")
                  +:+ Pages.join " " (words s)
         end.
Proof.
  induction s as [|c s IH]; intros b; [done|].
  cbn [Text.replace_runs words startsIn]. destruct (Text.is_space c) eqn:Hc.
  - destruct b; cbn [negb andb].
    + rewrite IH. by destruct (words s).
    + cbn [Text.strip_end]. rewrite IH. destruct (words s) as [|w ws] eqn:Hw; [done|].
      cbn [negb andb]. rewrite str_app_nil_l.
      destruct (join_words_cons s w ws Hw) as (d & rest & Hjoin).
      rewrite Hw in Hjoin. by rewrite Hjoin.
  - rewrite andb_false_r, str_app_nil_l. cbn [Text.strip_end]. rewrite IH, Hc.
    cbn [negb andb]. destruct (words s) as [|w ws] eqn:Hw.
    + by destruct (startsIn Text.is_space s).
    + destruct (join_words_cons s w ws Hw) as (d & rest & Hjoin).
      rewrite Hw in Hjoin. destruct (startsIn Text.is_space s).
      * by rewrite join_cons_cons, !str_app_cons, !str_app_nil_l.
      * rewrite str_app_nil_l, Hjoin, <- Hjoin.
        by destruct ws.
Qed.

Lemma strip_start_collapse s :
  Text.strip_start Text.is_space (Text.replace_runs Text.is_space " " false s)
  = Text.replace_runs Text.is_space " " true s.
Proof.
  destruct s as [|c s]; [done|]. simpl. destruct (Text.is_space c) eqn:Hc.
  - simpl. apply strip_start_fixed, collapse_starts.
  - simpl. by rewrite Hc.
Qed.

(** Cleaning a text leaves its words, one blank between two of them. *)
Lemma clean_words s : Text.clean s = Pages.join " " (words s).
Proof.
  unfold Text.clean, Text.trim, Text.strip_both, Text.collapse_ws.
  rewrite strip_start_collapse, strip_end_collapse. by destruct (words s).
Qed.

(** C9: the document of the example yields the section "A" with the
    paragraph "x" and the section "B" with the bullets "y" and "z", in this
    order; a page with a heading outside its main content, white space in
    its texts, a heading of the third level and a heading without text
    yields the two sections of its main content, their texts cleaned.
    Cleaning a text leaves its words, with one blank between two of them.
    The main content is the first [main] element of the page, and without
    one there are no sections.  Otherwise every h2 or h3 below the main
    content, in document order, gives the section made of its cleaned
    text, the cleaned non-empty texts of the [p] elements among the
    elements that follow it under its parent, up to the next h2 or h3, and
    those of the [li] elements below the [ul] and [ol] elements among
    them; the sections with an empty heading are dropped.  For a main
    content made of headed blocks, one section per block with a non-empty
    heading results, in the order of the blocks. *)
Theorem extractSections_segments :
  Dom.extractSections twoSections
    = [{| heading := "A"; paragraphs := ["x"]; bullets := [] |};
       {| heading := "B"; paragraphs := []; bullets := ["y"; "z"] |}]
  ∧ Dom.extractSections spacedSections
    = [{| heading := "Dose and strength"; paragraphs := ["One tablet"];
          bullets := [] |};
       {| heading := "Children"; paragraphs := []; bullets := ["half a tablet"] |}]
  ∧ (∀ s, Text.clean s = Pages.join " " (words s)
          ∧ Forall (λ w, w ≠ "" ∧ Forall (λ c, Text.is_space c = false) (chars w))
              (words s))
  ∧ (∀ document,
       Dom.queryMain document
       = head (List.filter (Dom.tagIs ["main"])
                 (document :: Pages.descendants document)))
  ∧ (∀ document, Dom.queryMain document = None → Dom.extractSections document = [])
  ∧ (∀ document main,
       Dom.queryMain document = Some main →
       Dom.extractSections document
       = List.filter headed
           ((λ found,
               {| heading := Text.clean (Dom.textContent found.1);
                  paragraphs := paragraphsOf (upToNextHeading found.2);
                  bullets := bulletsOf (upToNextHeading found.2) |})
              <$> Dom.withSiblings ["h2"; "h3"] main)
       ∧ (λ found : Dom.node * list Dom.node, found.1)
           <$> Dom.withSiblings ["h2"; "h3"] main
         = List.filter (Dom.tagIs ["h2"; "h3"]) (Pages.descendants main)
       ∧ (∀ h siblings,
            (h, siblings) ∈ Dom.withSiblings ["h2"; "h3"] main
            ↔ Dom.tagIs ["h2"; "h3"] h = true
              ∧ ∃ parent following,
                  parent ∈ main :: Pages.descendants main
                  ∧ childOf parent h following
                  ∧ siblings = List.filter Dom.isElement following))
  ∧ (∀ nodes,
       paragraphsOf nodes
       = List.filter Text.truthy
           ((λ n, Text.clean (Dom.textContent n))
              <$> List.filter (Dom.tagIs ["p"]) nodes)
       ∧ bulletsOf nodes
         = mjoin ((λ n, List.filter Text.truthy
                          ((λ item, Text.clean (Dom.textContent item))
                             <$> List.filter (Dom.tagIs ["li"])
                                   (Pages.descendants n)))
                    <$> List.filter (Dom.tagIs ["ul"; "ol"]) nodes))
  ∧ (∀ document tag intro blocks,
       Dom.queryMain document = Some (Dom.Element tag (intro ++ flatten blocks)) →
       Forall plain intro →
       Forall (λ b, plainHeading b.1 ∧ Forall plain b.2) blocks →
       Dom.extractSections document
       = List.filter headed ((λ b, sectionFrom b.1 b.2) <$> blocks)).
Proof.
  split_and!.
  - by vm_compute.
  - by vm_compute.
  - intros s. split; [apply clean_words | apply words_shape].
  - apply queryMain_first.
  - intros document Hmain. unfold Dom.extractSections. by rewrite Hmain.
  - intros document main Hmain. unfold Dom.extractSections. rewrite Hmain.
    split_and!.
    + f_equal. apply list_fmap_ext. intros i [h siblings] _. apply sectionOf_spec.
    + rewrite <- querySelectorAll_descendants. apply withSiblings_fst.
    + intros h siblings. apply withSiblings_elem.
  - intros nodes. split; [done|]. unfold bulletsOf. f_equal.
    apply list_fmap_ext. intros i n _. by rewrite querySelectorAll_descendants.
  - intros document tag intro blocks Hmain Hintro Hblocks.
    unfold Dom.extractSections. rewrite Hmain.
    change Dom.headingSelector with ["h2"; "h3"].
    rewrite withSiblings_element, walk_plain_prefix by done.
    by rewrite walk_flatten.
Qed.

End Sections.

(** * Further properties *)

(** ** More on the metadata index *)

Section IndexMore.

Implicit Types (metadata : list OutputMetadataEntry.t) (store : OutputStore)
  (disk : Disk).

Local Abbreviation entry s n p :=
  {| OutputMetadataEntry.slug := s;
     OutputMetadataEntry.medicineName := n;
     OutputMetadataEntry.medicineFilePath := p |}.

(** X2: of two upserts of one slug the later wins: the index is the one
    the later upsert alone would have made. *)
Theorem upsert_last_wins metadata s n p n' p' :
  upsertMetadata (upsertMetadata metadata s n p) s n' p'
  = upsertMetadata metadata s n' p'.
Proof.
  induction metadata as [|item rest IH].
  - rewrite !upsert_nil, upsert_cons. by rewrite decide_True.
  - rewrite !upsert_cons. case_decide as Hs.
    + rewrite upsert_cons. by rewrite decide_True.
    + rewrite upsert_cons, decide_False by done. by rewrite IH.
Qed.

(** X3: after an upsert, looking the slug up finds the new entry, at the
    place of the first entry of that slug or at the end; the index grows by
    one exactly when the slug was not there, and the entries of every other
    slug are the same as before. *)
Theorem upsert_then_find metadata s n p :
  (∃ i, list_find (λ item, OutputMetadataEntry.slug item = s)
                  (upsertMetadata metadata s n p) = Some (i, entry s n p)
        ∧ (list_find (λ item, OutputMetadataEntry.slug item = s) metadata = None
           → i = length metadata)
        ∧ (∀ j old, list_find (λ item, OutputMetadataEntry.slug item = s) metadata
                    = Some (j, old) → i = j))
  ∧ length (upsertMetadata metadata s n p)
    = length metadata + (if decide (entriesFor s metadata = []) then 1 else 0)
  ∧ (∀ s', s' ≠ s →
       entriesFor s' (upsertMetadata metadata s n p) = entriesFor s' metadata).
Proof.
  split_and!.
  - induction metadata as [|item rest (i & Hfind & Hnone & Hsome)].
    + exists 0. rewrite upsert_nil. simpl. rewrite decide_True by done.
      split_and!; [done | done | discriminate].
    + rewrite upsert_cons. simpl. case_decide as Hs.
      * exists 0. simpl. rewrite decide_True by done.
        split_and!; [done | discriminate | by intros j old [= <- _]].
      * exists (S i). simpl. rewrite decide_False by done. rewrite Hfind. simpl.
        split_and!; [done | |].
        -- destruct (list_find _ rest) as [[j old]|]; [discriminate|].
           intros _. by rewrite Hnone.
        -- intros j old. destruct (list_find _ rest) as [[k found]|]; [|discriminate].
           simpl. intros [= <- <-]. f_equal. by eapply Hsome.
  - unfold entriesFor. induction metadata as [|item rest IH].
    + done.
    + rewrite upsert_cons, filter_cons.
      destruct (decide (OutputMetadataEntry.slug item = s)) as [Hs|Hs].
      * simpl. lia.
      * simpl. rewrite IH. done.
  - intros s' Hne. by apply upsert_entriesFor_other.
Qed.

End IndexMore.

(** ** Persisting and loading *)

Section PersistMore.

Implicit Types (store : OutputStore) (disk : Disk) (medicine : Medicine.t)
  (task : MedicineTask.t).

Lemma artifact_not_index store medicine :
  wfStore store → artifactPath store medicine ≠ metadataPath store.
Proof.
  intros [Hdir Hmp] Heq. unfold artifactPath in Heq. rewrite Hdir, Hmp in Heq.
  unfold path_join in Heq. rewrite !str_app_assoc in Heq.
  apply (inj (String.app (outputDir store))) in Heq.
  vm_compute in Heq. discriminate.
Qed.

(** X4: the ways [persistMedicine] fails.  When the artifact file cannot
    be opened, it throws and leaves store and disk as they were; when the
    write of the artifact fails after the file was opened, it throws, the
    artifact file holds the incomplete text, and the index is untouched in
    memory and on disk.  When the artifact is written and the write of the
    index file fails, it throws too, the artifact is on disk and the index
    in memory holds the new entry; the index file is what it was if it could
    not be opened, and otherwise holds an incomplete text, from which a
    later run loads the empty index. *)
Theorem persist_failure_modes write_error task medicine store disk :
  wfStore store →
  (∀ e, write_error (artifactPath store medicine) = Some (BeforeOpen e) →
     persistMedicine write_error task medicine store disk = (Thrown e, store, disk))
  ∧ (∀ e written,
       write_error (artifactPath store medicine) = Some (AfterOpen e written) →
       persistMedicine write_error task medicine store disk
       = (Thrown e, store,
          <[artifactPath store medicine := OtherContent written]> disk))
  ∧ (∀ fault,
       write_error (artifactPath store medicine) = None →
       write_error (metadataPath store) = Some fault →
       ∃ store' disk',
         persistMedicine write_error task medicine store disk
         = (Thrown match fault with BeforeOpen e | AfterOpen e _ => e end,
            store', disk')
         ∧ disk' !! artifactPath store medicine = Some (MedicineJson medicine)
         ∧ metadata store'
           = upsertMetadata (metadata store) (MedicineTask.slug task)
               (Medicine.name medicine)
               ("medicines/" +:+ toMedicineFileName medicine +:+ ".json")
         ∧ entryOf task medicine ∈ metadata store'
         ∧ metadataPath store' = metadataPath store
         ∧ match fault with
           | BeforeOpen _ =>
               disk' !! metadataPath store = disk !! metadataPath store
               ∧ ∀ bn, loadMetadata bn disk' (metadataPath store')
                       = loadMetadata bn disk (metadataPath store)
           | AfterOpen _ written =>
               disk' !! metadataPath store = Some (OtherContent written)
               ∧ ∀ bn, loadMetadata bn disk' (metadataPath store') = []
           end).
Proof.
  intros Hwf. split_and!.
  - intros e Herr. unfold persistMedicine, writeFile. by rewrite Herr.
  - intros e written Herr. unfold persistMedicine, writeFile. by rewrite Herr.
  - intros fault Hok Herr. unfold persistMedicine, writeFile. rewrite Hok.
    cbn [metadataPath metadata outputDir medicinesDir]. rewrite Herr.
    rewrite relative_artifactPath by done.
    destruct fault as [e|e written]; eexists _, _; (split; [done|]);
      cbn [metadataPath metadata outputDir medicinesDir].
    + split_and!; [| done | apply upsert_elem_new | done | |].
      * rewrite lookup_insert_eq. done.
      * apply lookup_insert_ne. by apply artifact_not_index.
      * intros bn. unfold loadMetadata.
        rewrite lookup_insert_ne by (by apply artifact_not_index). done.
    + split_and!; [| done | apply upsert_elem_new | done | |].
      * rewrite lookup_insert_ne
          by (intros Heq; symmetry in Heq; by apply artifact_not_index in Heq).
        apply lookup_insert_eq.
      * apply lookup_insert_eq.
      * intros bn. unfold loadMetadata. by rewrite lookup_insert_eq.
Qed.

(** The paracetamol page is scraped while the disk fills up in the middle
    of the index file. *)
Lemma persist_failure_modes_witness :
  wfStore emptyStore
  ∧ ∃ store' disk',
      persistMedicine (write_error indexCutShort) task_a
        (medicineOf (λ _, "Paracetamol") task_a) emptyStore ∅
      = (Thrown (Error "ENOSPC"), store', disk')
      ∧ disk' !! "/data/medicines/Paracetamol.json"
        = Some (MedicineJson (medicineOf (λ _, "Paracetamol") task_a))
      ∧ disk' !! "/data/metadata.json" = Some (OtherContent "[")
      ∧ loadMetadata (λ path, path) disk' (metadataPath store') = [].
Proof.
  assert (wfStore emptyStore) as Hwf by (split; reflexivity).
  split; [exact Hwf|].
  destruct (proj2 (proj2 (persist_failure_modes (write_error indexCutShort) task_a
                            (medicineOf (λ _, "Paracetamol") task_a) emptyStore ∅ Hwf))
              (AfterOpen (Error "ENOSPC") "[") eq_refl eq_refl)
    as (store' & disk' & Hp & Hfile & _ & _ & _ & Hindex & Hload).
  exists store', disk'. split; [exact Hp|].
  split; [exact Hfile|]. split; [exact Hindex | exact (Hload (λ path, path))].
Defined.

(** X5: a successful persist reads back: over an index whose slugs are
    non-empty, for a task with a non-empty slug, the index file then loads
    to the index in memory, the artifact file holds the record, and the slug
    has its artifact. *)
Theorem persist_then_load bn write_error task medicine store disk store' disk' :
  wfStore store →
  Forall (λ item, OutputMetadataEntry.slug item ≠ "") (metadata store) →
  MedicineTask.slug task ≠ "" →
  persistMedicine write_error task medicine store disk = (Ok tt, store', disk') →
  loadMetadata bn disk' (metadataPath store') = metadata store'
  ∧ disk' !! artifactPath store' medicine = Some (MedicineJson medicine)
  ∧ hasArtifact disk' store' (MedicineTask.slug task).
Proof.
  intros Hwf Hslugs Hslug Hp.
  apply persistMedicine_ok in Hp as (Hwf' & Hdir & Hmeta & Hdisk); [|done].
  assert (metadataPath store' = metadataPath store) as Hmp.
  { destruct Hwf as [_ ->], Hwf' as [_ ->]. by rewrite Hdir. }
  assert (artifactPath store' medicine = artifactPath store medicine) as Hap.
  { unfold artifactPath. destruct Hwf as [-> _], Hwf' as [-> _]. by rewrite Hdir. }
  assert (disk' !! artifactPath store medicine = Some (MedicineJson medicine)) as Hfile.
  { rewrite Hdisk, lookup_insert_ne, lookup_insert_eq; [done|].
    intros Heq. symmetry in Heq. by apply artifact_not_index in Heq. }
  split_and!.
  - unfold loadMetadata. rewrite Hmp, Hdisk, lookup_insert_eq.
    apply fmap_fixed. rewrite Hmeta. apply upsert_Forall.
    + eapply Forall_impl; [exact Hslugs|]. intros item. apply backfill_slug.
    + by apply backfill_slug.
  - by rewrite Hap.
  - unfold hasArtifact. apply Exists_exists. exists (entryOf task medicine).
    split; [rewrite Hmeta; apply upsert_elem_new|]. split; [done|].
    rewrite Hdir, resolve_entry by done. by rewrite Hfile.
Qed.

Lemma persist_then_load_witness :
  let medicine := medicineOf (λ _, "Paracetamol") task_a in
  let result := persistMedicine (λ _, None) task_a medicine emptyStore ∅ in
  wfStore emptyStore
  ∧ Forall (λ item, OutputMetadataEntry.slug item ≠ "") (metadata emptyStore)
  ∧ MedicineTask.slug task_a ≠ ""
  ∧ result = (Ok tt, result.1.2, result.2)
  ∧ loadMetadata (λ path, path) result.2 (metadataPath result.1.2)
    = metadata result.1.2.
Proof.
  intros medicine result.
  assert (wfStore emptyStore) as Hwf by (split; reflexivity).
  assert (Forall (λ item, OutputMetadataEntry.slug item ≠ "") (metadata emptyStore))
    as Hslugs by constructor.
  assert (MedicineTask.slug task_a ≠ "") as Hslug by discriminate.
  assert (result = (Ok tt, result.1.2, result.2)) as Hp by reflexivity.
  split_and!; [exact Hwf | exact Hslugs | exact Hslug | exact Hp |].
  exact (proj1 (persist_then_load (λ path, path) (λ _, None) task_a medicine
                  emptyStore ∅ result.1.2 result.2 Hwf Hslugs Hslug Hp)).
Defined.

(** X6: loading the index is stable: an index file that is absent or holds
    no list of entries loads to the empty index; a loaded entry has an empty
    slug only if the base name of its artifact is empty; and writing the
    loaded index back and loading it again gives the same index. *)
Theorem loadMetadata_stable bn disk path :
  ((∀ items, disk !! path ≠ Some (MetadataJson items)) →
   loadMetadata bn disk path = [])
  ∧ (∀ item, item ∈ loadMetadata bn disk path →
       OutputMetadataEntry.slug item = "" →
       bn (OutputMetadataEntry.medicineFilePath item) = "")
  ∧ loadMetadata bn (<[path := MetadataJson (loadMetadata bn disk path)]> disk) path
    = loadMetadata bn disk path.
Proof.
  split_and!.
  - intros Hno. unfold loadMetadata.
    destruct (disk !! path) as [[m|items|raw]|] eqn:Hd; try done.
    by destruct (Hno items).
  - intros item Hin Hslug. unfold loadMetadata in Hin.
    destruct (disk !! path) as [[m|items|raw]|]; try (by apply elem_of_nil in Hin).
    apply list_elem_of_fmap in Hin as (raw & -> & _).
    destruct raw as [s n p]. unfold backfill, Text.or_else in *. simpl in *.
    destruct (Text.truthy s) eqn:Hs; [by subst|done].
  - unfold loadMetadata at 1. rewrite lookup_insert_eq.
    apply fmap_fixed, Forall_forall. intros item Hin. unfold loadMetadata in Hin.
    destruct (disk !! path) as [[m|items|raw]|]; try (by apply elem_of_nil in Hin).
    apply list_elem_of_fmap in Hin as (raw & -> & _). apply backfill_idemp.
Qed.

End PersistMore.

(** ** Whole runs *)

Section RunMore.

Implicit Types (world : World) (appConfig : AppConfig.t) (sh : Shared)
  (task : MedicineTask.t) (store : OutputStore).

Lemma persist_frame write_error task medicine store disk :
  let disk' := (persistMedicine write_error task medicine store disk).2 in
  (∀ path, path ≠ artifactPath store medicine → path ≠ metadataPath store →
           disk' !! path = disk !! path)
  ∧ (∀ path, is_Some (disk !! path) → is_Some (disk' !! path)).
Proof.
  unfold persistMedicine, writeFile.
  destruct (write_error (artifactPath store medicine)) as [[e|e written]|].
  - done.
  - cbn [snd]. split.
    + intros path Ha _. by rewrite lookup_insert_ne.
    + intros path Hsome. apply lookup_insert_is_Some'. by right.
  - cbn [metadataPath metadata].
    destruct (write_error (metadataPath store)) as [[e|e written]|]; cbn [snd]; split.
    + intros path Ha _. by rewrite lookup_insert_ne.
    + intros path Hsome. apply lookup_insert_is_Some'. by right.
    + intros path Ha Hm. by rewrite !lookup_insert_ne.
    + intros path Hsome. by do 2 (apply lookup_insert_is_Some'; right).
    + intros path Ha Hm. by rewrite !lookup_insert_ne.
    + intros path Hsome. by do 2 (apply lookup_insert_is_Some'; right).
Qed.

Lemma body_frame world appConfig task sh dir :
  wfStore (outputStore sh) → outputDir (outputStore sh) = dir →
  let sh' := processBody world appConfig task sh in
  wfStore (outputStore sh') ∧ outputDir (outputStore sh') = dir
  ∧ (∀ path, ¬ insideOutput dir path → disk sh' !! path = disk sh !! path)
  ∧ (∀ path, is_Some (disk sh !! path) → is_Some (disk sh' !! path)).
Proof.
  intros Hwf Hdir. unfold processBody.
  destruct (retryScrapeMedicine world appConfig task).1 as [medicine|msg]; [|done].
  pose proof (persist_frame (write_error world) task medicine (outputStore sh) (disk sh))
    as [Hframe Hkeep].
  pose proof (persistMedicine_layout (write_error world) task medicine
                (outputStore sh) (disk sh)) as (Hd & Hm & Hp).
  assert (∀ path, ¬ insideOutput dir path →
            path ≠ artifactPath (outputStore sh) medicine
            ∧ path ≠ metadataPath (outputStore sh)) as Houtside.
  { intros path Hout. destruct Hwf as [Hmed Hmeta]. split; intros ->; apply Hout.
    - right. exists (toMedicineFileName medicine). unfold artifactPath.
      by rewrite Hmed, Hdir.
    - left. by rewrite Hmeta, Hdir. }
  destruct (persistMedicine _ _ _ _ _) as [[[[]|msg] store'] disk']; simpl in *.
  all: split_and!; [| congruence | | done].
  all: try (destruct Hwf as [Hmed Hmeta]; split; congruence).
  all: intros path Hout; destruct (Houtside path Hout); by apply Hframe.
Qed.

Lemma process_frame world appConfig task sh dir :
  wfStore (outputStore sh) → outputDir (outputStore sh) = dir →
  let sh' := processMedicineTask world appConfig task sh in
  wfStore (outputStore sh') ∧ outputDir (outputStore sh') = dir
  ∧ (∀ path, ¬ insideOutput dir path → disk sh' !! path = disk sh !! path)
  ∧ (∀ path, is_Some (disk sh !! path) → is_Some (disk sh' !! path)).
Proof.
  intros Hwf Hdir. unfold processMedicineTask.
  destruct (new_page world task) as [e|]; [done|].
  pose proof (body_frame world appConfig task sh dir Hwf Hdir) as Hbody.
  by destruct (close_page world task).
Qed.

Lemma processAll_frame world appConfig order sh dir :
  wfStore (outputStore sh) → outputDir (outputStore sh) = dir →
  let final := processAll world appConfig order sh in
  (∀ path, ¬ insideOutput dir path → disk final !! path = disk sh !! path)
  ∧ (∀ path, is_Some (disk sh !! path) → is_Some (disk final !! path)).
Proof.
  revert sh. induction order as [|task rest IH]; intros sh Hwf Hdir; simpl; [done|].
  destruct (process_frame world appConfig task sh dir Hwf Hdir) as (Hwf' & Hdir' & Hf & Hk).
  destruct (IH _ Hwf' Hdir') as [Hf' Hk']. split.
  - intros path Hout. by rewrite Hf', Hf.
  - intros path Hsome. by apply Hk', Hk.
Qed.


Lemma applyCache_lengths disk tasks store hardRefresh :
  length (applyCachePolicy disk tasks store hardRefresh).1
  + (applyCachePolicy disk tasks store hardRefresh).2 = length tasks.
Proof.
  unfold applyCachePolicy. destruct hardRefresh; [simpl; lia|].
  rewrite filterCached_spec. simpl.
  induction tasks as [|task rest IH]; [done|].
  rewrite !filter_cons. destruct (decide (_ ∉ _)) as [Hn|Hn].
  - rewrite decide_False by done. simpl. lia.
  - rewrite decide_True by (by apply dec_stable). simpl. lia.
Qed.

Lemma failure_counted_once world appConfig store task :
  tally (extractionFails world appConfig task)
  + tally (countedTwice world appConfig store task) ≤ 1.
Proof.
  unfold extractionFails, countedTwice.
  destruct (retryScrapeMedicine world appConfig task).1; simpl; [|lia].
  destruct (bool_decide _); simpl; lia.
Qed.

Lemma processAll_bounds world appConfig order sh :
  let final := processAll world appConfig order sh in
  st_succeeded (state final) ≤ st_succeeded (state sh) + length order
  ∧ st_failed (state final) ≤ st_failed (state sh) + length order.
Proof.
  revert sh. induction order as [|task rest IH]; intros sh; simpl; [lia|].
  destruct (process_counters world appConfig task sh) as (_ & _ & Hs & Hf).
  destruct (IH (processMedicineTask world appConfig task sh)) as [Hs' Hf'].
  pose proof (failure_counted_once world appConfig (outputStore sh) task).
  destruct (opens world task), (extractionFails world appConfig task);
    simpl in *; lia.
Qed.

Lemma filter_all_true {B} (f : B → bool) (l : list B) :
  (∀ x, f x = true) → List.filter f l = l.
Proof. intros Hf. induction l as [|x l IH]; [done|]. simpl. by rewrite Hf, IH. Qed.


Lemma adds_shape (q0 : PQueue.t MedicineTask.t) (tasks : list MedicineTask.t) c :
  PQueue.concurrency q0 = c → PQueue.pending q0 = [] → PQueue.queue q0 = [] →
  let q := foldl PQueue.add q0 tasks in
  PQueue.concurrency q = c
  ∧ PQueue.pending q = take c tasks ∧ PQueue.queue q = drop c tasks.
Proof.
  intros Hc Hp Hq. induction tasks as [|task rest IH] using rev_ind; simpl.
  - rewrite take_nil, drop_nil. done.
  - rewrite foldl_app. simpl. destruct IH as (Hc' & Hp' & Hq').
    set (q := foldl PQueue.add q0 rest) in *. clearbody q.
    unfold PQueue.add, PQueue.tryToStartAnother. simpl.
    rewrite Hc', Hp', Hq'.
    destruct (decide (length rest < c)) as [Hlt|Hge].
    + rewrite drop_ge by lia. simpl. rewrite length_take, Nat.min_r by lia.
      rewrite (proj2 (Nat.ltb_lt _ _) Hlt). simpl.
      rewrite take_ge by lia. rewrite take_ge by (rewrite length_app; simpl; lia).
      rewrite drop_ge by (rewrite length_app; simpl; lia). done.
    + rewrite take_app_le, drop_app_le by lia.
      destruct (drop c rest ++ [task]) as [|job waiting] eqn:Hd.
      { by destruct (drop c rest). }
      rewrite length_take, Nat.min_l by lia. rewrite Nat.ltb_irrefl.
      done.
Qed.

Lemma drain_in_order world appConfig tasks fuel k q sh :
  PQueue.concurrency q = 1 →
  PQueue.pending q = take 1 tasks → PQueue.queue q = drop 1 tasks →
  length tasks ≤ fuel →
  (drain world appConfig fuel k q sh).2 = processAll world appConfig tasks sh.
Proof.
  revert fuel k q sh. induction tasks as [|task rest IH]; intros fuel k q sh Hc Hp Hq Hfuel.
  - destruct fuel; simpl; [done|]. rewrite Hp. done.
  - destruct fuel as [|fuel]; [simpl in Hfuel; lia|].
    simpl in Hp, Hq, Hfuel. rewrite take_0 in Hp. rewrite drop_0 in Hq.
    cbn [drain processAll foldl]. rewrite Hp. cbn [length].
    rewrite Nat.mod_1_r. cbn [lookup list_lookup].
    apply IH; [| | | lia].
    + by rewrite settle_concurrency.
    + unfold PQueue.settle, PQueue.tryToStartAnother. simpl.
      rewrite Hp, Hq, Hc. simpl. by destruct rest.
    + unfold PQueue.settle, PQueue.tryToStartAnother. simpl.
      rewrite Hp, Hq, Hc. simpl. destruct rest; [done|].
      simpl. by rewrite drop_0.
Qed.


End RunMore.

(** ** More on retrying *)

Section RetryMore.

Implicit Types (world : World) (appConfig : AppConfig.t) (task : MedicineTask.t).

(** X10: the retried extraction stops at its first successful attempt, at
    an error the retry library rethrows, or when the budget
    [max(1, retryAttempts)] is used up: the attempts are numbered 1 to [n]
    within the budget, every attempt before the [n]-th failed with an error
    that is retried, the result is that of the [n]-th, which succeeded or
    threw an error that is rethrown if budget is left, and [n - 1] delays of
    [retryDelayMs] were waited.  An attempt within the budget that succeeds
    after retried failures only is the last one, and its record the
    result. *)
Theorem retry_stops_at_first_success world appConfig task :
  let attempt := retryScrapeMedicine world appConfig task in
  let budget := Z.to_nat (Z.max 1 (AppConfig.retryAttempts appConfig)) in
  ∃ n, 1 ≤ n ≤ budget
       ∧ Retry.attemptCount attempt.2 = n
       ∧ Retry.attemptNumbers attempt.2 = seq 1 n
       ∧ Retry.delays attempt.2 = replicate (n - 1) (AppConfig.retryDelayMs appConfig)
       ∧ attempt.1 = scrapeMedicine world task n
       ∧ (∀ j, 1 ≤ j < n →
               ∃ e, scrapeMedicine world task j = Thrown e ∧ Retry.rethrown e = false)
       ∧ (n < budget →
          (∃ medicine, scrapeMedicine world task n = Ok medicine)
          ∨ ∃ e, scrapeMedicine world task n = Thrown e ∧ Retry.rethrown e = true)
       ∧ (∀ j medicine,
            1 ≤ j ≤ budget →
            scrapeMedicine world task j = Ok medicine →
            (∀ i, 1 ≤ i < j →
                  ∃ e, scrapeMedicine world task i = Thrown e
                       ∧ Retry.rethrown e = false) →
            n = j ∧ attempt.1 = Ok medicine)
       ∧ (∀ j e,
            1 ≤ j < budget →
            scrapeMedicine world task j = Thrown e → Retry.rethrown e = true →
            (∀ i, 1 ≤ i < j →
                  ∃ e', scrapeMedicine world task i = Thrown e'
                        ∧ Retry.rethrown e' = false) →
            n = j ∧ attempt.1 = Thrown e).
Proof.
  intros attempt budget.
  destruct (retry_general world appConfig task)
    as (n & Hn & Hnum & Hdel & Hres & Hfail & Hlast).
  fold attempt in Hnum, Hdel, Hres. fold budget in Hn, Hlast.
  exists n. split_and!; [lia | lia | | done | done | done | done | done | |].
  - rewrite attemptCount_numbers, Hnum. apply length_seq.
  - intros j medicine Hj Hok Hbefore.
    assert (n = j) as ->; [|by rewrite Hres].
    destruct (Nat.lt_trichotomy n j) as [Hlt|[Heq|Hgt]]; [exfalso | done | exfalso].
    + destruct (Hbefore n) as (e & He & Hretried); [lia|].
      destruct Hlast as [(m & Hm)|(e' & He' & Hrethrown)]; [lia | congruence |].
      congruence.
    + destruct (Hfail j) as (e & He & _); [lia | congruence].
  - intros j e Hj Hthrown Hrethrown Hbefore.
    assert (n = j) as ->; [|by rewrite Hres].
    destruct (Nat.lt_trichotomy n j) as [Hlt|[Heq|Hgt]]; [exfalso | done | exfalso].
    + destruct (Hbefore n) as (e' & He' & Hretried); [lia|].
      destruct Hlast as [(m & Hm)|(e'' & He'' & Hre)]; [lia | congruence |].
      congruence.
    + destruct (Hfail j) as (e' & He' & Hretried); [lia | congruence].
Qed.

(** X11: a record [scrapeMedicine] returns carries the slug and the URL of
    its task and the source tag, its brand names are pairwise different and
    none is empty, and the file name derived from it is not empty when the
    slug is not: it is the slug or a text of letters, digits and single
    dashes. *)
Theorem scraped_record world task n medicine :
  scrapeMedicine world task n = Ok medicine →
  Medicine.slug medicine = MedicineTask.slug task
  ∧ Medicine.url medicine = MedicineTask.url task
  ∧ Medicine.source medicine = "nhs"
  ∧ NoDup (Medicine.brandNames medicine)
  ∧ Forall (λ brand, brand ≠ "") (Medicine.brandNames medicine)
  ∧ (MedicineTask.slug task ≠ "" → toMedicineFileName medicine ≠ "")
  ∧ (toMedicineFileName medicine = MedicineTask.slug task
     ∨ slugShaped (toMedicineFileName medicine)).
Proof.
  unfold scrapeMedicine. destruct (render world task n) as [r|msg]; [|discriminate].
  intros [= <-]. simpl.
  assert (∀ text, Forall (λ brand, brand ≠ "") (Brand.brandItems text)) as Hitems.
  { intros text. apply Forall_forall. intros brand Hin.
    apply list_elem_of_In, filter_In in Hin as [_ Htruthy]. by apply truthy_nonempty. }
  split_and!; [done | done | done | | | |].
  - unfold Brand.parseBrandNames.
    destruct (Brand.bracketMatch _) as [[pre inner]|]; apply dedupe_NoDup.
  - apply Forall_forall. intros brand Hin. unfold Brand.parseBrandNames in Hin.
    assert (∃ items, Forall (λ brand, brand ≠ "") items ∧ brand ∈ Brand.dedupe ∅ items)
      as (items & Hall & Hin').
    { destruct (Brand.bracketMatch _) as [[pre inner]|]; simpl in Hin;
        (eexists; split; [|exact Hin]).
      - apply Forall_app. split; [|apply Hitems].
        destruct (_ !! 1) as [right|]; [|constructor].
        destruct (Text.truthy right); [apply Hitems | constructor].
      - destruct (_ !! 1) as [right|]; [|constructor].
        destruct (Text.truthy right); [apply Hitems | constructor]. }
    apply dedupe_elem in Hin' as [Hin' _]. by eapply Forall_forall in Hall.
  - intros Hslug. unfold toMedicineFileName, Text.or_else. simpl.
    destruct (Text.truthy (slugify _)) eqn:Ht; [by apply truthy_nonempty | done].
  - unfold toMedicineFileName, Text.or_else. simpl.
    destruct (Text.truthy (slugify _)); [right | by left].
    apply slugify_shaped.
Qed.

Lemma scraped_record_witness :
  scrapeMedicine (calm coCodamol) task_a 1 = Ok (medicineOf coCodamol task_a)
  ∧ Medicine.slug (medicineOf coCodamol task_a) = "a"
  ∧ toMedicineFileName (medicineOf coCodamol task_a) ≠ "".
Proof.
  assert (scrapeMedicine (calm coCodamol) task_a 1 = Ok (medicineOf coCodamol task_a))
    as Hscrape by reflexivity.
  destruct (scraped_record (calm coCodamol) task_a 1 _ Hscrape)
    as (Hslug & _ & _ & _ & _ & Hname & _).
  split_and!; [exact Hscrape | exact Hslug | apply Hname; discriminate].
Defined.

End RetryMore.

(** ** Cleaned texts *)

Section TextMore.

Implicit Types (s : string) (p : ascii → bool) (document : Dom.node).

Lemma blank_app a b : blank (a +:+ b) ↔ blank a ∧ blank b.
Proof. unfold blank. by rewrite chars_app, Forall_app. Qed.

Lemma blank_cons c s : blank (String c s) ↔ Text.is_space c = true ∧ blank s.
Proof. unfold blank. simpl. by rewrite Forall_cons. Qed.

Lemma strip_start_blank s :
  ∃ before, s = before +:+ Text.strip_start Text.is_space s ∧ blank before.
Proof.
  induction s as [|c s (before & IH & Hblank)]; [by exists ""; split; [|constructor]|].
  simpl. destruct (Text.is_space c) eqn:Hc.
  - exists (String c before). rewrite str_app_cons, <- IH.
    split; [done | by apply blank_cons].
  - exists "". split; [done | constructor].
Qed.

Lemma strip_end_blank s :
  ∃ after, s = Text.strip_end Text.is_space s +:+ after ∧ blank after.
Proof.
  induction s as [|c s (after & IH & Hblank)]; [by exists ""; split; [|constructor]|].
  simpl. destruct (Text.strip_end Text.is_space s) as [|d r] eqn:Hr.
  - rewrite str_app_nil_l in IH. subst after. destruct (Text.is_space c) eqn:Hc.
    + exists (String c s). split; [done | by apply blank_cons].
    + by exists s.
  - exists after. rewrite !str_app_cons. by rewrite <- str_app_cons, <- IH.
Qed.

Lemma strip_start_of_blank s : blank s → Text.strip_start Text.is_space s = "".
Proof.
  induction s as [|c s IH]; [done|]. intros [Hc Hs]%blank_cons. simpl.
  rewrite Hc. by apply IH.
Qed.

Lemma strip_end_of_blank s : blank s → Text.strip_end Text.is_space s = "".
Proof.
  induction s as [|c s IH]; [done|]. intros [Hc Hs]%blank_cons. simpl.
  by rewrite IH, Hc.
Qed.

Lemma strip_start_past before s :
  blank before → startsIn Text.is_space s = false →
  Text.strip_start Text.is_space (before +:+ s) = s.
Proof.
  intros Hblank Hs. induction before as [|c before IH].
  - rewrite str_app_nil_l. by apply strip_start_fixed.
  - apply blank_cons in Hblank as [Hc Hblank]. rewrite str_app_cons. simpl.
    rewrite Hc. by apply IH.
Qed.

Lemma strip_end_past t after :
  blank after → endsIn Text.is_space t = false →
  Text.strip_end Text.is_space (t +:+ after) = t.
Proof.
  intros Hblank. induction t as [|c t IH]; intros Hend.
  - rewrite str_app_nil_l. by apply strip_end_of_blank.
  - rewrite str_app_cons. simpl. destruct t as [|d t].
    + rewrite str_app_nil_l, strip_end_of_blank by done. simpl in Hend.
      by rewrite Hend.
    + rewrite IH by done. done.
Qed.

(** The text between the white space at the two ends is what [trim]
    leaves. *)
Lemma trim_middle before t after :
  blank before → blank after →
  startsIn Text.is_space t = false → endsIn Text.is_space t = false →
  Text.trim (before +:+ t +:+ after) = t.
Proof.
  intros Hbefore Hafter Hs He. unfold Text.trim, Text.strip_both.
  destruct t as [|c t].
  - rewrite str_app_nil_l, strip_start_of_blank; [done|]. by apply blank_app.
  - rewrite strip_start_past; [by apply strip_end_past | done | done].
Qed.

(** X12: what [getText] returns is never the empty text: it is the given
    text without the white space at its two ends, which is white space
    only, and [getText] leaves it as it is when applied again; a text of
    white space only gives nothing.  However a text is cut into white space,
    a middle without white space at its ends, and white space, [getText]
    returns the middle, or nothing when the middle is empty. *)
Theorem getText_trimmed text :
  match getText text with
  | Some t =>
      t ≠ ""
      ∧ startsIn Text.is_space t = false ∧ endsIn Text.is_space t = false
      ∧ (∃ raw before after,
           text = Some raw ∧ raw = before +:+ t +:+ after
           ∧ blank before ∧ blank after)
      ∧ getText (Some t) = Some t
  | None => ∀ raw, text = Some raw → blank raw
  end
  ∧ (∀ before t after,
       text = Some (before +:+ t +:+ after) →
       blank before → blank after →
       startsIn Text.is_space t = false → endsIn Text.is_space t = false →
       getText text = if Text.truthy t then Some t else None).
Proof.
  split.
  - destruct text as [raw|]; simpl; [|done].
    destruct (strip_both_shape Text.is_space raw) as (_ & Hs & He).
    destruct (strip_start_blank raw) as (before & Hraw & Hbefore).
    destruct (strip_end_blank (Text.strip_start Text.is_space raw))
      as (after & Hrest & Hafter).
    fold (Text.strip_both Text.is_space raw) in Hrest.
    fold (Text.trim raw) in *.
    destruct (Text.truthy (Text.trim raw)) eqn:Ht.
    + split_and!; [by apply truthy_nonempty | done | done | |].
      * exists raw, before, after. by rewrite <- Hrest.
      * by rewrite trim_fixed, Ht.
    + intros ? [= <-]. destruct (Text.trim raw); [|done].
      rewrite Hraw, Hrest. rewrite str_app_nil_l. by apply blank_app.
  - intros before t after -> Hbefore Hafter Hs He. simpl.
    by rewrite trim_middle.
Qed.

(** X13: every section [extractSections] returns has a heading that is not
    empty, and its heading, paragraphs and bullets are tidy texts that
    cleaning leaves as they are, none of them empty; there are at most as
    many sections as the main element holds headings, and none without a
    main element. *)
Theorem extractSections_tidy document :
  Forall (λ section,
            heading section ≠ "" ∧ Text.clean (heading section) = heading section
            ∧ Forall (λ text, text ≠ "" ∧ Text.clean text = text)
                     (paragraphs section ++ bullets section))
         (Dom.extractSections document)
  ∧ length (Dom.extractSections document)
    ≤ match Dom.queryMain document with
      | Some main => length (Dom.querySelectorAll Dom.headingSelector main)
      | None => 0
      end.
Proof.
  unfold Dom.extractSections. destruct (Dom.queryMain document) as [main|]; [|done].
  split.
  - apply Forall_forall. intros section Hin.
    apply list_elem_of_In, filter_In in Hin as [Hin Hheaded].
    apply list_elem_of_In, list_elem_of_fmap in Hin as [[h siblings] [-> _]].
    rewrite sectionOf_spec in *. simpl in *. split_and!.
    + intros Hempty. by rewrite Hempty in Hheaded.
    + apply tidy_fixed, clean_tidy.
    + apply Forall_app. split.
      * eapply Forall_impl; [apply cleanTexts_tidy|].
        intros text [? ?]. split; [done | by apply tidy_fixed].
      * unfold bulletsOf. apply Forall_forall. intros text Hin.
        apply list_elem_of_join in Hin as (items & Hin & Hitems).
        apply list_elem_of_fmap in Hitems as (n & -> & _).
        pose proof (cleanTexts_tidy (Dom.querySelectorAll ["li"] n)) as Hall.
        eapply Forall_forall in Hall as [? ?]; [|exact Hin].
        split; [done | by apply tidy_fixed].
  - rewrite <- (withSiblings_fst Dom.headingSelector main), length_fmap.
    rewrite <- (length_fmap Dom.sectionOf). apply filter_length_le.
Qed.

End TextMore.

(** ** Progress reports *)

Section ProgressMore.

Implicit Types (world : World) (appConfig : AppConfig.t) (sh : Shared).

Lemma logged_spec (state : ScrapeState) totalQueued :
  Progress.logged state totalQueued
  = (st_completed state `mod` 25 =? 0) || (st_completed state =? totalQueued).
Proof.
  unfold Progress.logged.
  by destruct (st_completed state `mod` 25 =? 0), (st_completed state =? totalQueued).
Qed.

Lemma reports_spec world appConfig order totalQueued sh :
  Progress.reports world appConfig order totalQueued sh
  = List.filter (λ k, (k `mod` 25 =? 0) || (k =? totalQueued))
      (seq (S (st_completed (state sh)))
           (length (List.filter (opens world) order))).
Proof.
  revert sh. induction order as [|task rest IH]; intros sh; [done|].
  cbn [Progress.reports List.filter].
  destruct (process_counters world appConfig task sh) as (_ & Hc & _).
  rewrite IH, logged_spec, Hc. unfold opens.
  destruct (new_page world task) as [e|]; cbn [tally length seq List.filter app].
  - by rewrite Nat.add_0_r.
  - replace (st_completed (state sh) + 1) with (S (st_completed (state sh))) by lia.
    by destruct (_ || _).
Qed.

Lemma filter_opened world (order : list MedicineTask.t) :
  (∀ task, new_page world task = None) → List.filter (opens world) order = order.
Proof.
  intros Hopen. induction order as [|task rest IH]; [done|]. simpl.
  unfold opens at 1. by rewrite Hopen, IH.
Qed.


End ProgressMore.

(** ** Task discovery *)

Section DiscoveryMore.

Import Discovery.

Implicit Types (parse : string → outcome Url.t) (s slug : string)
  (tasks : list (string * MedicineTask.t)).

Lemma split_slash_slash s :
  Brand.split match_slash (String "/" s) = "" :: Brand.split match_slash s.
Proof. unfold Brand.split. simpl. by rewrite Nat.sub_diag. Qed.

Lemma split_slash_other c s :
  c ≠ "/"%char →
  Brand.split match_slash (String c s) = Brand.cons_head c (Brand.split match_slash s).
Proof.
  intros Hc. unfold Brand.split. simpl. by destruct (Ascii.eqb_spec c "/").
Qed.

Lemma split_slash_parts s : Forall slashFree (Brand.split match_slash s).
Proof.
  induction s as [|c s IH]; [repeat constructor|].
  destruct (decide (c = "/"%char)) as [->|Hc].
  - rewrite split_slash_slash. constructor; [constructor | done].
  - rewrite split_slash_other by done.
    destruct (Brand.split match_slash s) as [|p ps]; simpl.
    + repeat constructor. done.
    + apply Forall_cons in IH as [Hp Hps]. constructor; [|done]. by constructor.
Qed.

Lemma split_slash_free s rest :
  slashFree s →
  Brand.split match_slash (s +:+ String "/" rest) = s :: Brand.split match_slash rest.
Proof.
  induction s as [|c s IH]; intros Hs.
  - apply split_slash_slash.
  - apply Forall_cons in Hs as [Hc Hs]. rewrite str_app_cons, split_slash_other by done.
    by rewrite IH.
Qed.

Lemma pathParts_canonical slug :
  slashFree slug → slug ≠ "" →
  pathParts ("/medicines/" +:+ slug +:+ "/") = ["medicines"; slug].
Proof.
  intros Hfree Hslug. unfold pathParts.
  change ("/medicines/" +:+ slug +:+ "/")
    with (String "/" ("medicines" +:+ String "/" (slug +:+ String "/" ""))).
  rewrite split_slash_slash, split_slash_free, split_slash_free by (done || by compute; repeat constructor).
  simpl. by destruct slug.
Qed.

Lemma pathParts_parts pathname :
  Forall (λ part, part ≠ "" ∧ slashFree part) (pathParts pathname).
Proof. apply filter_truthy_Forall, split_slash_parts. Qed.

Lemma toIndexMedicineUrl_spec parse value :
  match toIndexMedicineUrl parse value with
  | Ok (Some url) =>
      ∃ parsed slug,
        parse value = Ok parsed
        ∧ pathParts (Url.pathname parsed) = ["medicines"; slug]
        ∧ slug ≠ "" ∧ slashFree slug
        ∧ url = {| Url.origin := Url.origin parsed;
                   Url.pathname := "/medicines/" +:+ slug +:+ "/";
                   Url.search := ""; Url.hash := "" |}
  | Ok None =>
      ∃ parsed, parse value = Ok parsed
                ∧ ∀ slug, pathParts (Url.pathname parsed) ≠ ["medicines"; slug]
  | Thrown msg => parse value = Thrown msg
  end.
Proof.
  unfold toIndexMedicineUrl. destruct (parse value) as [parsed|msg]; [|done].
  pose proof (pathParts_parts (Url.pathname parsed)) as Hparts.
  destruct (pathParts (Url.pathname parsed)) as [|first [|slug [|third rest]]] eqn:Hp;
    cbn [length Nat.eqb negb orb lookup list_lookup];
    rewrite ?orb_true_r, ?orb_false_r;
    try (exists parsed; split; [done|]; intros ?; rewrite Hp; discriminate).
  case_bool_decide as Hfirst; cbn [negb].
  - injection Hfirst as ->.
    apply Forall_cons in Hparts as [_ [[Hslug Hfree] _]%Forall_cons].
    apply truthy_nonempty in Hslug as Htruthy. rewrite Htruthy.
    by exists parsed, slug.
  - exists parsed. split; [done|]. intros slug'. rewrite Hp. intros [= -> _]. done.
Qed.


Lemma mapSet_elem tasks key value item :
  item ∈ mapSet tasks key value → item = (key, value) ∨ item ∈ tasks.
Proof.
  induction tasks as [|[k v] rest IH]; simpl.
  - intros ->%list_elem_of_singleton. by left.
  - case_decide as Hk.
    + intros [->|Hin]%elem_of_cons; [by left | right; by right].
    + intros [->|Hin]%elem_of_cons; [right; by left|].
      destruct (IH Hin) as [->|Hin']; [by left | right; by right].
Qed.

Lemma mapSet_keys tasks key value k :
  k ∈ (mapSet tasks key value).*1 ↔ k = key ∨ k ∈ tasks.*1.
Proof.
  induction tasks as [|[k' v] rest IH]; simpl.
  - rewrite list_elem_of_singleton. split; [by left | intros [?|?%elem_of_nil]; done].
  - case_decide as Hk; simpl; rewrite !elem_of_cons.
    + subst. tauto.
    + rewrite IH. tauto.
Qed.

Lemma mapSet_NoDup tasks key value :
  NoDup tasks.*1 → NoDup (mapSet tasks key value).*1.
Proof.
  induction tasks as [|[k v] rest IH]; simpl; intros Hnd.
  - apply NoDup_singleton.
  - apply NoDup_cons in Hnd as [Hk Hnd]. case_decide as Heq; simpl.
    + subst. by apply NoDup_cons.
    + apply NoDup_cons. split; [|by apply IH].
      rewrite mapSet_keys. intros [?|?]; done.
Qed.

(** What [scrapeIndexUrl] holds of a task it has collected from [hrefs]. *)
Local Abbreviation collected parse hrefs task :=
  (MedicineTask.slug task ≠ "" ∧ slashFree (MedicineTask.slug task)
   ∧ ∃ href parsed,
       href ∈ hrefs ∧ parse href = Ok parsed
       ∧ pathParts (Url.pathname parsed) = ["medicines"; MedicineTask.slug task]
       ∧ MedicineTask.url task
         = Url.origin parsed +:+ "/medicines/" +:+ MedicineTask.slug task +:+ "/").

Lemma collectTasks_spec parse all hrefs tasks result :
  collectTasks parse hrefs tasks = Ok result →
  hrefs ⊆ all →
  NoDup tasks.*1 →
  Forall (λ kv, MedicineTask.slug kv.2 = kv.1 ∧ collected parse all kv.2) tasks →
  NoDup result.*1
  ∧ Forall (λ kv, MedicineTask.slug kv.2 = kv.1 ∧ collected parse all kv.2) result
  ∧ (∀ k, k ∈ tasks.*1 → k ∈ result.*1)
  ∧ (∀ href parsed slug,
       href ∈ hrefs → parse href = Ok parsed →
       pathParts (Url.pathname parsed) = ["medicines"; slug] → slug ∈ result.*1).
Proof.
  revert tasks. induction hrefs as [|href rest IH]; intros tasks Hres Hsub Hnd Hall.
  - injection Hres as <-. split_and!; [done | done | done |].
    intros ??? []%elem_of_nil.
  - simpl in Hres. pose proof (toIndexMedicineUrl_spec parse href) as Hcanon.
    assert (rest ⊆ all) as Hsub' by (intros x Hx; apply Hsub; by right).
    destruct (toIndexMedicineUrl parse href) as [[url|]|msg]; [| |done].
    + destruct Hcanon as (parsed & slug & Hparse & Hparts & Hslug & Hfree & ->).
      assert (Url.toString
                {| Url.origin := Url.origin parsed;
                   Url.pathname := "/medicines/" +:+ slug +:+ "/";
                   Url.search := ""; Url.hash := "" |}
              = Url.origin parsed +:+ "/medicines/" +:+ slug +:+ "/") as Hstr.
      { unfold Url.toString. simpl. by rewrite !str_app_nil_r. }
      rewrite Hstr in Hres. cbn [Url.pathname] in Hres.
      rewrite pathParts_canonical in Hres by done. simpl in Hres.
      apply truthy_nonempty in Hslug as Htruthy. rewrite Htruthy in Hres.
      apply IH in Hres as (Hnd' & Hall' & Hkeep & Hfound);
        [| done | by apply mapSet_NoDup |].
      * split_and!; [done | done | |].
        -- intros k Hk. apply Hkeep, mapSet_keys. by right.
        -- intros href' parsed' slug' [->|Hin]%elem_of_cons Hparse' Hparts''.
           ++ rewrite Hparse in Hparse'. injection Hparse' as <-.
              rewrite Hparts in Hparts''. injection Hparts'' as <-.
              apply Hkeep, mapSet_keys. by left.
           ++ by eapply Hfound.
      * apply Forall_forall. intros kv [->|Hin]%mapSet_elem.
        -- simpl. split_and!; [done | done | done |].
           exists href, parsed. split_and!; [apply Hsub; by left | done | done | done].
        -- by eapply Forall_forall in Hall.
    + destruct Hcanon as (parsed & Hparse & Hno).
      apply IH in Hres as (Hnd' & Hall' & Hkeep & Hfound); [| done | done | done].
      split_and!; [done | done | done |].
      intros href' parsed' slug' [->|Hin]%elem_of_cons Hparse' Hparts''.
      * rewrite Hparse in Hparse'. injection Hparse' as <-. by apply Hno in Hparts''.
      * by eapply Hfound.
Qed.



End DiscoveryMore.

(** ** Links of a medicine page *)

Section LinksMore.

Import Links.

Implicit Types (parse : string → outcome Url.t) (s sub link : string)
  (links keywords : list string).

Lemma strip_prefix_spec pre s rest :
  Text.strip_prefix pre s = Some rest ↔ s = pre +:+ rest.
Proof.
  split; [|intros ->; apply strip_prefix_app].
  revert s. induction pre as [|c pre IH]; intros s; simpl.
  - by intros [= ->].
  - destruct s as [|d s]; [done|]. destruct (Ascii.eqb_spec c d) as [->|]; [|done].
    intros ->%IH. by rewrite str_app_cons.
Qed.

Lemma includes_spec s sub : includes s sub = true ↔ occursIn sub s.
Proof.
  split.
  - induction s as [|c s IH]; simpl.
    + destruct (Text.strip_prefix sub "") as [rest|] eqn:Hpre; [|done].
      apply strip_prefix_spec in Hpre. intros _. by exists "", rest.
    + destruct (Text.strip_prefix sub (String c s)) as [rest|] eqn:Hpre.
      * apply strip_prefix_spec in Hpre. intros _. by exists "", rest.
      * intros (before & after & ->)%IH. exists (String c before), after.
        by rewrite str_app_cons.
  - intros (before & after & ->). induction before as [|c before IH].
    + rewrite str_app_nil_l. destruct (sub +:+ after) eqn:Heq; simpl;
        rewrite <- Heq; by rewrite strip_prefix_app.
    + rewrite str_app_cons. simpl.
      by destruct (Text.strip_prefix sub (String c (before +:+ sub +:+ after))).
Qed.

Lemma includes_false s sub : includes s sub = false ↔ ¬ occursIn sub s.
Proof. rewrite <- includes_spec. by destruct (includes s sub). Qed.

Lemma startsWith_spec s pre : startsWith s pre = true ↔ ∃ rest, s = pre +:+ rest.
Proof.
  unfold startsWith. split.
  - destruct (Text.strip_prefix pre s) as [rest|] eqn:Hpre; [|done].
    apply strip_prefix_spec in Hpre. by exists rest.
  - intros [rest ->]. by rewrite strip_prefix_app.
Qed.

Lemma find_first {A} (f : A → bool) (l : list A) :
  match List.find f l with
  | Some x => ∃ before after,
                l = before ++ x :: after ∧ f x = true
                ∧ Forall (λ y, f y = false) before
  | None => Forall (λ y, f y = false) l
  end.
Proof.
  induction l as [|a l IH]; simpl; [constructor|].
  destruct (f a) eqn:Ha.
  - by exists [], l.
  - destruct (List.find f l) as [x|].
    + destruct IH as (before & after & -> & Hx & Hbefore).
      exists (a :: before), after. split_and!; [done | done | by constructor].
    + by constructor.
Qed.

Lemma some_keyword_spec keywords link :
  existsb (λ keyword, includes link keyword) keywords = true
  ↔ ∃ keyword, keyword ∈ keywords ∧ occursIn keyword link.
Proof.
  rewrite existsb_exists. split; intros (keyword & Hin & Hocc); exists keyword.
  - split; [by apply list_elem_of_In | by apply includes_spec].
  - split; [by apply list_elem_of_In | by apply includes_spec].
Qed.

Lemma no_keyword_spec keywords link :
  existsb (λ keyword, includes link keyword) keywords = false
  ↔ ∀ keyword, keyword ∈ keywords → ¬ occursIn keyword link.
Proof.
  split.
  - intros Hnone keyword Hin Hocc.
    assert (existsb (λ keyword, includes link keyword) keywords = true) as Hsome
      by (apply some_keyword_spec; eauto).
    by rewrite Hnone in Hsome.
  - intros Hnone. destruct (existsb _ keywords) eqn:Hsome; [|done].
    apply some_keyword_spec in Hsome as (keyword & Hin & Hocc). by apply Hnone in Hocc.
Qed.

(** X17: [findLink] returns the first link in which one of the keywords
    occurs: the links before it hold none of the keywords; it returns
    nothing exactly when no link holds a keyword.  The order of the links
    decides, not that of the keywords. *)
Theorem findLink_first_match links keywords :
  match findLink links keywords with
  | Some link =>
      ∃ before after,
        links = before ++ link :: after
        ∧ (∃ keyword, keyword ∈ keywords ∧ occursIn keyword link)
        ∧ Forall (λ other, ∀ keyword, keyword ∈ keywords → ¬ occursIn keyword other)
                 before
  | None =>
      Forall (λ other, ∀ keyword, keyword ∈ keywords → ¬ occursIn keyword other) links
  end.
Proof.
  unfold findLink.
  pose proof (find_first (λ link, existsb (λ keyword, includes link keyword) keywords)
                links) as Hfind.
  destruct (List.find _ links) as [link|].
  - destruct Hfind as (before & after & -> & Hlink & Hbefore).
    exists before, after. split_and!; [done | by apply some_keyword_spec |].
    eapply Forall_impl; [exact Hbefore|]. intros other. apply no_keyword_spec.
  - eapply Forall_impl; [exact Hfind|]. intros other. apply no_keyword_spec.
Qed.

Lemma findLink_elem links keywords link :
  findLink links keywords = Some link →
  link ∈ links ∧ ∃ keyword, keyword ∈ keywords ∧ occursIn keyword link.
Proof.
  unfold findLink. intros Hfind%find_some. destruct Hfind as [Hin Hkey].
  split; [by apply list_elem_of_In | by apply some_keyword_spec].
Qed.

Lemma findLink_none links keywords keyword :
  findLink links keywords = None → keyword ∈ keywords →
  Forall (λ link, ¬ occursIn keyword link) links.
Proof.
  unfold findLink. intros Hfind Hkey. apply Forall_forall. intros link Hin.
  apply list_elem_of_In in Hin.
  pose proof (find_none _ _ Hfind link Hin) as Hnone. simpl in Hnone.
  by eapply no_keyword_spec in Hnone.
Qed.

Lemma mapThrowing_spec {A B} (f : A → outcome B) (items : list A) (results : list B) :
  mapThrowing f items = Ok results → Forall2 (λ x y, f x = Ok y) items results.
Proof.
  revert results. induction items as [|x rest IH]; intros results; simpl.
  - intros [= <-]. constructor.
  - destruct (f x) as [y|msg] eqn:Hx; [|done].
    destruct (mapThrowing f rest) as [ys|msg]; [|done].
    intros [= <-]. constructor; [done | by apply IH].
Qed.

Lemma hrefsOf_elem attributes href :
  href ∈ Discovery.hrefsOf attributes ↔ Some href ∈ attributes ∧ href ≠ "".
Proof.
  unfold Discovery.hrefsOf. rewrite list_elem_of_In, filter_In, <- list_elem_of_In.
  rewrite list_elem_of_fmap, Nat.ltb_lt. split.
  - intros [([a|] & Ha & Hin) Hlen]; simpl in *; subst; [|simpl in Hlen; lia].
    split; [done|]. intros ->. simpl in Hlen. lia.
  - intros [Hin Hne]. split; [by exists (Some href)|]. destruct href; [done | simpl; lia].
Qed.

(** A URL text read off an anchor of the page, with a path below the page
    of the medicine. *)
Local Abbreviation below parse attributes slug u :=
  (∃ href url rest,
     Some href ∈ attributes ∧ parse href = Ok url ∧ u = Url.toString url
     ∧ Url.pathname url = "/medicines/" +:+ slug +:+ "/" +:+ rest).

Lemma extractMedicineLinks_elem parse attributes slug links u :
  extractMedicineLinks parse attributes slug = Ok links →
  u ∈ links → below parse attributes slug u.
Proof.
  unfold extractMedicineLinks.
  destruct (mapThrowing parse _) as [urls|msg] eqn:Hmap; [|done].
  intros [= <-] (url & -> & Hin)%list_elem_of_fmap.
  apply list_elem_of_In, filter_In in Hin as [Hin [rest Hpath]%startsWith_spec].
  apply list_elem_of_In in Hin. apply mapThrowing_spec in Hmap.
  apply list_elem_of_lookup in Hin as [i Hi].
  destruct (Forall2_lookup_r _ _ _ _ _ Hmap Hi) as (href & Hhref & Hparse).
  apply list_elem_of_lookup_2, dedupe_elem in Hhref as [Hhref _].
  apply hrefsOf_elem in Hhref as [Hhref _].
  exists href, url, rest. split_and!; [done | done | done |].
  by rewrite Hpath, !str_app_assoc.
Qed.

Lemma present_some url u : present url = Some u → url = Some u ∧ u ≠ "".
Proof.
  unfold present. destruct url as [v|]; [|done].
  destruct (Text.truthy v) eqn:Hv; [|done]. intros [= ->].
  split; [done | by apply truthy_nonempty].
Qed.

(** X18: the sub-pages [resolveSubpageUrls] picks from the links
    [extractMedicineLinks] found are URLs of anchors of the page with a path
    below [/medicines/slug/], none of them empty; the about page alone falls
    back to the given URL, and does so exactly when no link holds [about]. *)
Theorem subpages_below_medicine parse attributes slug fallbackUrl links :
  extractMedicineLinks parse attributes slug = Ok links →
  let pages := resolveSubpageUrls links fallbackUrl in
  (below parse attributes slug (aboutUrl pages) ∧ occursIn "about" (aboutUrl pages)
   ∨ aboutUrl pages = fallbackUrl
     ∧ Forall (λ link, ¬ occursIn "about" link) links)
  ∧ Forall (λ field, ∀ u, field = Some u → u ≠ "" ∧ below parse attributes slug u)
      [dosageUrl pages; sideEffectsUrl pages; pregnancyUrl pages;
       interactionsUrl pages; questionsUrl pages].
Proof.
  intros Hlinks pages. split.
  - unfold pages, resolveSubpageUrls. simpl.
    destruct (findLink links ["about"]) as [link|] eqn:Habout; simpl.
    + left. apply findLink_elem in Habout as [Hin (keyword & Hkey & Hocc)].
      apply list_elem_of_singleton in Hkey as ->.
      split; [by eapply extractMedicineLinks_elem | done].
    + right. split; [done|]. eapply findLink_none; [exact Habout | by left].
  - assert (∀ keywords u, present (findLink links keywords) = Some u →
            u ≠ "" ∧ below parse attributes slug u) as Hfield.
    { intros keywords u [Hfind Hne]%present_some. split; [done|].
      apply findLink_elem in Hfind as [Hin _]. by eapply extractMedicineLinks_elem. }
    unfold pages, resolveSubpageUrls. simpl.
    repeat (constructor; [by apply Hfield|]). constructor.
Qed.

Lemma subpages_below_medicine_witness :
  let attributes := [Some "/medicines/zinc/about-zinc/"; Some "/medicines/aspirin/";
                     None; Some "/medicines/zinc/side-effects-of-zinc/"] in
  extractMedicineLinks parsePath attributes "zinc"
  = Ok ["https://www.nhs.uk/medicines/zinc/about-zinc/";
        "https://www.nhs.uk/medicines/zinc/side-effects-of-zinc/"]
  ∧ ∀ u, sideEffectsUrl
           (resolveSubpageUrls
              ["https://www.nhs.uk/medicines/zinc/about-zinc/";
               "https://www.nhs.uk/medicines/zinc/side-effects-of-zinc/"]
              "https://www.nhs.uk/medicines/zinc/") = Some u → u ≠ "".
Proof.
  intros attributes.
  assert (extractMedicineLinks parsePath attributes "zinc"
          = Ok ["https://www.nhs.uk/medicines/zinc/about-zinc/";
                "https://www.nhs.uk/medicines/zinc/side-effects-of-zinc/"])
    as Hlinks by reflexivity.
  split; [exact Hlinks|].
  destruct (subpages_below_medicine parsePath attributes "zinc"
              "https://www.nhs.uk/medicines/zinc/" _ Hlinks) as [_ Hfields].
  intros u Hu.
  apply Forall_cons in Hfields as [_ Hfields].
  apply Forall_cons in Hfields as [Hside _].
  exact (proj1 (Hside u Hu)).
Defined.

(** X19: of the links [extractRelatedLinks] returns, the related conditions
    are those whose URL holds [/conditions/] and the useful resources hold
    neither [/conditions/] nor [/medicines/]; so no link is in both lists;
    every label is trimmed and not empty, and the two lists together are no
    longer than the list of anchors. *)
Theorem extractRelatedLinks_classes parse anchors relatedConditions usefulResources :
  extractRelatedLinks parse anchors = Ok (relatedConditions, usefulResources) →
  Forall (λ item, occursIn "/conditions/" (link_url item)) relatedConditions
  ∧ Forall (λ item, ¬ occursIn "/conditions/" (link_url item)
                    ∧ ¬ occursIn "/medicines/" (link_url item)) usefulResources
  ∧ (∀ item, item ∈ relatedConditions → item ∉ usefulResources)
  ∧ Forall (λ item, label item ≠ "" ∧ Text.trim (label item) = label item
                    ∧ ∃ anchor url,
                        anchor ∈ anchors ∧ label item = Text.trim (textContent anchor)
                        ∧ (∃ target, href anchor = Some target ∧ target ≠ ""
                                     ∧ parse target = Ok url)
                        ∧ link_url item = Url.toString url)
      (relatedConditions ++ usefulResources)
  ∧ length relatedConditions + length usefulResources ≤ length anchors.
Proof.
  unfold extractRelatedLinks.
  set (allLinks := List.filter _ _).
  destruct (mapThrowing _ allLinks) as [normalized|msg] eqn:Hmap; [|done].
  intros [= <- <-].
  assert (Forall (λ item, occursIn "/conditions/" (link_url item))
            (List.filter (λ item, includes (link_url item) "/conditions/") normalized))
    as Hconditions.
  { apply Forall_forall. intros item [_ Hin]%list_elem_of_In%filter_In.
    by apply includes_spec. }
  assert (Forall (λ item, ¬ occursIn "/conditions/" (link_url item)
                          ∧ ¬ occursIn "/medicines/" (link_url item))
            (List.filter (λ item, negb (includes (link_url item) "/medicines/")
                                  && negb (includes (link_url item) "/conditions/"))
                         normalized)) as Hresources.
  { apply Forall_forall. intros item [_ Hin]%list_elem_of_In%filter_In.
    apply andb_true_iff in Hin as [Hm Hc]. apply negb_true_iff in Hm, Hc.
    split; by apply includes_false. }
  apply mapThrowing_spec in Hmap.
  split_and!; [done | done | | |].
  - intros item Hin Hin'.
    eapply Forall_forall in Hconditions; [|exact Hin].
    eapply Forall_forall in Hresources as [Hno _]; [|exact Hin']. done.
  - apply Forall_forall. intros item Hin.
    assert (item ∈ normalized) as Hitem.
    { apply elem_of_app in Hin as [Hin|Hin];
        by apply list_elem_of_In, filter_In in Hin as [?%list_elem_of_In _]. }
    apply list_elem_of_lookup in Hitem as [i Hi].
    destruct (Forall2_lookup_r _ _ _ _ _ Hmap Hi) as ([text target] & Hraw & Hparse).
    simpl in Hparse. destruct (parse target) as [url|msg] eqn:Htarget; [|done].
    injection Hparse as <-. simpl.
    apply list_elem_of_lookup_2 in Hraw. unfold allLinks in Hraw.
    apply list_elem_of_In, filter_In in Hraw as [Hraw Hlen]. simpl in Hlen.
    apply andb_true_iff in Hlen as [Htext Htarget'%Nat.ltb_lt]. apply Nat.ltb_lt in Htext.
    apply list_elem_of_In, list_elem_of_fmap in Hraw as (anchor & [= -> ->] & Hanchor).
    split_and!.
    + intros Hempty. rewrite Hempty in Htext. simpl in Htext. lia.
    + apply trim_fixed.
    + exists anchor, url. split_and!; [done | done | | done].
      destruct (href anchor) as [target|]; simpl in *; [|lia].
      exists target. split_and!; [done | | done]. intros ->. simpl in Htarget'. lia.
  - pose proof (Forall2_length _ _ _ Hmap) as Hlen.
    assert (length allLinks ≤ length anchors) as Hall.
    { unfold allLinks. etrans; [apply filter_length_le|]. by rewrite length_fmap. }
    assert (∀ (f g : Link → bool) items,
              (∀ item, f item = true → g item = false) →
              length (List.filter f items) + length (List.filter g items)
              ≤ length items) as Hsplit.
    { intros f g items Hfg. induction items as [|item rest IH]; [done|]. simpl.
      destruct (f item) eqn:Hf; [rewrite (Hfg _ Hf)|destruct (g item)]; simpl; lia. }
    etrans; [apply Hsplit|lia].
    intros item ->. apply andb_false_r.
Qed.

Lemma extractRelatedLinks_classes_witness :
  let anchors := [{| textContent := " Pain "; href := Some "/conditions/pain/" |};
                  {| textContent := "Top"; href := None |};
                  {| textContent := "Zinc"; href := Some "/medicines/zinc/" |};
                  {| textContent := "Help"; href := Some "/help/" |}] in
  let relatedConditions :=
    [{| label := "Pain"; link_url := "https://www.nhs.uk/conditions/pain/" |}] in
  let usefulResources :=
    [{| label := "Help"; link_url := "https://www.nhs.uk/help/" |}] in
  extractRelatedLinks parsePath anchors = Ok (relatedConditions, usefulResources)
  ∧ length relatedConditions + length usefulResources ≤ length anchors.
Proof.
  intros anchors relatedConditions usefulResources.
  assert (extractRelatedLinks parsePath anchors = Ok (relatedConditions, usefulResources))
    as Hrun by reflexivity.
  split; [exact Hrun|].
  exact (proj2 (proj2 (proj2 (proj2
           (extractRelatedLinks_classes parsePath anchors _ _ Hrun))))).
Defined.

End LinksMore.

(** ** Introductory description *)

Section IntroMore.

Import Pages.

Implicit Types (document main h : Dom.node) (nodes before after : list Dom.node).

Lemma filter_all {A} (f : A → bool) (l : list A) :
  Forall (λ x, f x = true) l → List.filter f l = l.
Proof. induction 1 as [|x l Hx _ IH]; [done|]. simpl. by rewrite Hx, IH. Qed.

Lemma filter_none {A} (f : A → bool) (l : list A) :
  Forall (λ x, f x = false) l ↔ List.filter f l = [].
Proof.
  induction l as [|x l IH]; simpl; [done|]. rewrite Forall_cons, IH.
  destruct (f x); [|tauto]. split; [by intros [? _] | done].
Qed.

Lemma filter_Forall {A} (P : A → Prop) (f : A → bool) (l : list A) :
  Forall P l → Forall P (List.filter f l).
Proof.
  induction 1 as [|x l Hx _ IH]; [done|]. simpl. destruct (f x); [by constructor | done].
Qed.

Lemma filter_snd {A B} (f : B → bool) (l : list (A * B)) :
  (List.filter (λ e, f e.2) l).*2 = List.filter f l.*2.
Proof.
  induction l as [|[a b] l IH]; [done|].
  rewrite fmap_cons. cbn [List.filter snd].
  destruct (f b); rewrite ?fmap_cons; by rewrite IH.
Qed.

Lemma fmap_snd {A B C} (g : B → C) (l : list (A * B)) :
  (λ e : A * B, g e.2) <$> l = g <$> l.*2.
Proof. induction l as [|e l IH]; [done|]. rewrite !fmap_cons. by rewrite IH. Qed.

(** The nodes with their positions, counted from [k]. *)
Local Abbreviation placedFrom k nodes :=
  (imap (λ position (n : Dom.node), (k + position, n)) nodes).

Lemma placedFrom_cons k n nodes :
  placedFrom k (n :: nodes) = (k, n) :: placedFrom (S k) nodes.
Proof.
  simpl. rewrite Nat.add_0_r. f_equal. apply imap_ext. intros i x _. simpl.
  f_equal. lia.
Qed.

Lemma placedFrom_app k before after :
  placedFrom k (before ++ after)
  = placedFrom k before ++ placedFrom (k + length before) after.
Proof.
  revert k. induction before as [|n before IH]; intros k.
  - simpl. by rewrite Nat.add_0_r.
  - rewrite <- app_comm_cons, !placedFrom_cons, IH. cbn [length].
    by replace (S k + length before) with (k + S (length before)) by lia.
Qed.

Lemma placedFrom_bounds k nodes :
  Forall (λ e, k ≤ e.1 < k + length nodes) (placedFrom k nodes).
Proof.
  revert k. induction nodes as [|n nodes IH]; intros k; [constructor|].
  rewrite placedFrom_cons. constructor; [simpl; lia|].
  eapply Forall_impl; [apply IH|]. intros e. simpl. lia.
Qed.

Lemma placedFrom_snd k nodes : (placedFrom k nodes).*2 = nodes.
Proof.
  revert k. induction nodes as [|n nodes IH]; intros k; [done|].
  rewrite placedFrom_cons, fmap_cons. cbn [snd]. f_equal. apply IH.
Qed.

Lemma placedFrom_find k before h after :
  Forall (λ n, Dom.tagIs Dom.headingSelector n = false) before →
  Dom.tagIs Dom.headingSelector h = true →
  List.find (λ e : nat * Dom.node, Dom.tagIs Dom.headingSelector e.2)
            (placedFrom k (before ++ h :: after))
  = Some (k + length before, h).
Proof.
  intros Hbefore Hh. revert k.
  induction Hbefore as [|n before Hn _ IH]; intros k.
  - rewrite app_nil_l, placedFrom_cons. cbn [List.find snd]. rewrite Hh.
    simpl. by rewrite Nat.add_0_r.
  - rewrite <- app_comm_cons, placedFrom_cons. cbn [List.find snd]. rewrite Hn, IH.
    simpl. do 2 f_equal. lia.
Qed.

Lemma no_heading_inside nodes :
  Forall plain nodes →
  Forall (λ n, Dom.tagIs Dom.headingSelector n = false)
    (mjoin ((λ c, (if Dom.isElement c then [c] else []) ++ descendants c) <$> nodes)).
Proof.
  induction 1 as [|n nodes [Htag Hin] _ IH]; [constructor|].
  rewrite fmap_cons, mjoin_cons, !Forall_app. split_and!; [| | done].
  - destruct (Dom.isElement n); [by repeat constructor | constructor].
  - apply filter_none. rewrite <- querySelectorAll_descendants, <- withSiblings_fst.
    change Dom.headingSelector with ["h2"; "h3"]. by rewrite Hin.
Qed.

(** X20: the paragraphs of the introduction end at the first heading of
    the main element: when nothing before that heading is or holds a
    heading, the introduction is made of the paragraphs before it that do
    not hold [Last reviewed], cleaned and the empty ones dropped, whatever
    the heading and the content after it are; [getIntroDescription] joins
    them with blank lines, and returns nothing when there is none. *)
Theorem intro_stops_at_first_heading document tag before h after :
  Dom.queryMain document = Some (Dom.Element tag (before ++ h :: after)) →
  Dom.tagIs Dom.headingSelector h = true →
  Forall plain before →
  let kept :=
    List.filter Text.truthy
      (Dom.cleanText
         <$> List.filter
               (λ p, negb (Links.includes (Dom.textContent p) "Last reviewed"))
               (Dom.querySelectorAll ["p"] (Dom.Element tag before))) in
  introParagraphs document = kept
  ∧ getIntroDescription document
    = (if decide (kept = []) then None else Some (join (newline +:+ newline) kept)).
Proof.
  intros Hmain Hh Hbefore kept.
  assert (introParagraphs document = kept) as Hintro; [|split; [done|]].
  2: { unfold getIntroDescription. rewrite Hintro. by destruct kept. }
  unfold kept, introParagraphs. rewrite Hmain.
  rewrite querySelectorAll_descendants, !descendants_element.
  rewrite fmap_app, join_app. simpl.
  rewrite (tagIs_element _ _ Hh). simpl.
  set (inside := mjoin (_ <$> before)).
  set (rest := descendants h ++ _).
  assert (Forall (λ n, Dom.tagIs Dom.headingSelector n = false) inside) as Hinside
    by by apply no_heading_inside.
  rewrite (imap_ext _ (λ position n, (0 + position, n))) by done.
  pose proof (placedFrom_find 0 inside h rest Hinside Hh) as Hfind.
  pose proof (placedFrom_app 0 inside (h :: rest)) as Happ.
  pose proof (placedFrom_bounds 0 inside) as Hearly.
  pose proof (placedFrom_bounds (0 + length inside) (h :: rest)) as Hlate.
  pose proof (placedFrom_snd 0 inside) as Hsnd.
  set (placed := imap _ (inside ++ h :: rest)) in *.
  set (early := imap _ inside) in *.
  set (late := imap _ (h :: rest)) in *.
  clearbody placed early late. subst placed. rewrite Hfind. simpl.
  rewrite !List.filter_app.
  match goal with
  | |- context [List.filter ?f (List.filter ?g (List.filter ?k late))] =>
      assert (List.filter f (List.filter g (List.filter k late)) = []) as ->
  end.
  { apply filter_none. do 2 apply filter_Forall.
    eapply Forall_impl; [exact Hlate|]. intros e [Hlow _]. simpl in *.
    by apply Nat.ltb_ge. }
  rewrite app_nil_r, (filter_all (λ e : nat * Dom.node, e.1 <? length inside)).
  - rewrite (fmap_snd Dom.cleanText).
    rewrite (filter_snd (λ n, negb (Links.includes (Dom.textContent n) "Last reviewed"))).
    rewrite (filter_snd (Dom.tagIs ["p"])). by rewrite Hsnd.
  - do 2 apply filter_Forall.
    eapply Forall_impl; [exact Hearly|]. intros e [_ Hhigh]. simpl in *.
    by apply Nat.ltb_lt.
Qed.

Lemma intro_stops_at_first_heading_witness :
  let intro := Dom.Element "p" [Dom.Txt "Pain  relief. "] in
  let h := Dom.Element "h2" [Dom.Txt "Key facts"] in
  let later := Dom.Element "p" [Dom.Txt "Take it with food."] in
  getIntroDescription (Dom.Element "html" [Dom.Element "main" [intro; h; later]])
  = Some "Pain relief.".
Proof.
  intros intro h later.
  assert (Forall plain [intro]) as Hplain by (repeat constructor).
  exact (proj2 (intro_stops_at_first_heading
                  (Dom.Element "html" [Dom.Element "main" [intro; h; later]])
                  "main" [intro] h [later] eq_refl eq_refl Hplain)).
Defined.

End IntroMore.

(** ** Questions and answers *)

Section QuestionsMore.

Import Pages.

Implicit Types (document main : Dom.node) (siblings : list Dom.node)
  (item : QuestionAnswer).

Lemma answered_spec item :
  answered item = true ↔ question item ≠ "" ∧ answer item ≠ "".
Proof.
  unfold answered. rewrite andb_true_iff, !Nat.ltb_lt.
  destruct (question item), (answer item); simpl; split; intros [? ?];
    (done || lia || (split; (done || lia))).
Qed.

Lemma accordion_question_tidy detail :
  question (accordionQuestion detail) ≠ "" → tidy (question (accordionQuestion detail)).
Proof.
  unfold accordionQuestion. simpl.
  destruct (querySelector ["summary"] detail); [intros _; apply clean_tidy | done].
Qed.

Lemma accordionQuestion_spec detail : accordionQuestion detail = detailQuestion detail.
Proof.
  unfold accordionQuestion, detailQuestion, querySelector, cleanTexts.
  by rewrite !querySelectorAll_descendants.
Qed.

Lemma answerLines_cons n body :
  answerLines (n :: body)
  = (if Dom.tagIs ["p"] n then List.filter Text.truthy [cleaned n] else [])
      ++ (if Dom.tagIs ["ul"; "ol"] n
          then List.filter Text.truthy
                 (cleaned <$> List.filter (Dom.tagIs ["li"]) (descendants n))
          else [])
      ++ answerLines body.
Proof. unfold answerLines. by rewrite fmap_cons, mjoin_cons, <- app_assoc. Qed.

(** The loop of a heading gathers the lines of the nodes up to the next
    heading, in their order. *)
Lemma collectAnswer_spec siblings answerParts :
  collectAnswer siblings answerParts
  = answerParts ++ answerLines (upToNextHeading siblings).
Proof.
  revert answerParts. induction siblings as [|n rest IH]; intros answerParts.
  - simpl. by rewrite app_nil_r.
  - cbn [collectAnswer upToNextHeading].
    change Dom.headingSelector with ["h2"; "h3"].
    destruct (Dom.tagIs ["h2"; "h3"] n); [by rewrite app_nil_r|].
    rewrite IH, answerLines_cons. unfold cleanTexts.
    rewrite querySelectorAll_descendants.
    change (Dom.cleanText n) with (cleaned n).
    cbn [List.filter]. 
    destruct (Dom.tagIs ["p"] n), (Dom.tagIs ["ul"; "ol"] n);
      try destruct (Text.truthy (cleaned n)); by rewrite <- ?app_assoc.
Qed.

Lemma headingQuestion_spec (found : Dom.node * list Dom.node) :
  headingQuestion found = questionFrom found.1 (upToNextHeading found.2).
Proof. unfold headingQuestion, questionFrom. by rewrite collectAnswer_spec. Qed.

(** X21: every question [scrapeQuestionsPage] reads off a page has a
    question and an answer that are not empty, and its question is a tidy
    text; without a main element there is none.  When some [details]
    element of the main content is answered, the questions are the answered
    ones of the [details] elements, each with the cleaned text of its first
    [summary] and the texts of its paragraphs and list items.  Otherwise
    they are read from the h2 and h3 headings of the main content, in
    document order: the question is the cleaned text of the heading, the
    answer the lines of the paragraphs and lists among the elements that
    follow it under its parent, up to the next heading; kept are those with
    a question and an answer whose question does not start with [more in]
    in any case of letters. *)
Theorem questionsOf_answered document :
  Forall (λ item, question item ≠ "" ∧ tidy (question item) ∧ answer item ≠ "")
         (questionsOf document)
  ∧ match Dom.queryMain document with
    | None => questionsOf document = []
    | Some main =>
        let accordion :=
          List.filter answered
            (detailQuestion <$> List.filter (Dom.tagIs ["details"]) (descendants main)) in
        if decide (accordion = []) then
          questionsOf document
          = List.filter (λ item, answered item && negb (moreIn item))
              ((λ found, questionFrom found.1 (upToNextHeading found.2))
                 <$> Dom.withSiblings ["h2"; "h3"] main)
          ∧ (∀ item,
               item ∈ questionsOf document
               ↔ ∃ h parent following,
                   parent ∈ main :: descendants main
                   ∧ childOf parent h following
                   ∧ Dom.tagIs ["h2"; "h3"] h = true
                   ∧ item
                     = {| question := Text.clean (Dom.textContent h);
                          answer :=
                            join newline
                              (answerLines
                                 (upToNextHeading
                                    (List.filter Dom.isElement following))) |}
                   ∧ question item ≠ "" ∧ answer item ≠ ""
                   ∧ Links.startsWith (toLowerCase (question item)) "more in"
                     = false)
          ∧ Forall (λ item, moreIn item = false) (questionsOf document)
          ∧ length (questionsOf document)
            ≤ length (Dom.querySelectorAll Dom.headingSelector main)
        else questionsOf document = accordion
    end
  ∧ questionsOf headedQuestions
    = [{| question := "Can I drive?";
          answer := "Yes." +:+ newline +:+ "Unless you feel dizzy." |};
       {| question := "Is it addictive?"; answer := "No." |}].
Proof.
  split_and!; [| | by vm_compute].
  - unfold questionsOf. destruct (Dom.queryMain document) as [main|]; [|done].
    set (accordion := List.filter answered _).
    destruct accordion as [|first rest] eqn:Haccordion; cbn [length Nat.ltb Nat.leb].
    + apply Forall_forall. intros item [Hin Hkeep]%list_elem_of_In%filter_In.
      apply andb_true_iff in Hkeep as [[Hq Ha]%answered_spec _].
      apply list_elem_of_In, list_elem_of_fmap in Hin as ([h siblings] & -> & _).
      split_and!; [done | apply clean_tidy | done].
    + rewrite <- Haccordion. apply Forall_forall.
      intros item [Hin [Hq Ha]%answered_spec]%list_elem_of_In%filter_In.
      apply list_elem_of_In, list_elem_of_fmap in Hin as (detail & -> & _).
      split_and!; [done | by apply accordion_question_tidy | done].
  - unfold questionsOf. destruct (Dom.queryMain document) as [main|]; [|done].
    cbv zeta. rewrite querySelectorAll_descendants.
    rewrite (list_fmap_ext accordionQuestion detailQuestion _
               (λ _ detail _, accordionQuestion_spec detail)).
    set (accordion := List.filter answered _).
    destruct accordion as [|first rest] eqn:Haccordion; cbn [length Nat.ltb Nat.leb].
    2: { by rewrite decide_False. }
    rewrite decide_True by done.
    change Dom.headingSelector with ["h2"; "h3"].
    rewrite (list_fmap_ext headingQuestion
               (λ found, questionFrom found.1 (upToNextHeading found.2)) _
               (λ _ found _, headingQuestion_spec found)).
    split_and!.
    + done.
    + intros item. rewrite list_elem_of_In, filter_In, <- list_elem_of_In.
      rewrite list_elem_of_fmap, andb_true_iff, answered_spec, negb_true_iff.
      split.
      * intros [([h siblings] & -> & Hfound) [[Hq Ha] Hmore]].
        apply withSiblings_elem in Hfound
          as (Htag & parent & following & Hparent & Hchild & ->).
        by exists h, parent, following.
      * intros (h & parent & following & Hparent & Hchild & Htag & -> & Hq & Ha & Hmore).
        split; [|done]. exists (h, List.filter Dom.isElement following).
        split; [done|]. apply withSiblings_elem. split; [done|].
        by exists parent, following.
    + apply Forall_forall. intros item [_ Hkeep]%list_elem_of_In%filter_In.
      apply andb_true_iff in Hkeep as [_ Hmore]. by apply negb_true_iff.
    + rewrite <- (withSiblings_fst ["h2"; "h3"] main), length_fmap.
      rewrite <- (length_fmap (λ found, questionFrom found.1 (upToNextHeading found.2))).
      apply filter_length_le.
Qed.

Lemma collectAnswer_perm siblings answerParts section :
  answerParts ≡ₚ paragraphs section ++ bullets section →
  collectAnswer siblings answerParts
  ≡ₚ paragraphs (Dom.collect siblings section) ++ bullets (Dom.collect siblings section).
Proof.
  revert answerParts section.
  induction siblings as [|n rest IH]; intros answerParts section Hparts; [done|].
  simpl. destruct (Dom.tagIs Dom.headingSelector n); [done|]. apply IH.
  destruct (Dom.tagIs ["p"] n), (Dom.tagIs ["ul"; "ol"] n);
    try destruct (Text.truthy (Dom.cleanText n)); simpl; rewrite ?Hparts;
    unfold cleanTexts; rewrite <- ?app_assoc; try done;
    try (apply Permutation_app_head; rewrite ?app_assoc;
         try apply Permutation_app_tail; apply Permutation_app_comm).
Qed.

Lemma collectAnswer_sublists siblings answerParts section :
  paragraphs section `sublist_of` answerParts →
  bullets section `sublist_of` answerParts →
  paragraphs (Dom.collect siblings section) `sublist_of` collectAnswer siblings answerParts
  ∧ bullets (Dom.collect siblings section) `sublist_of` collectAnswer siblings answerParts.
Proof.
  revert answerParts section.
  induction siblings as [|n rest IH]; intros answerParts section Hp Hb; [done|].
  simpl. destruct (Dom.tagIs Dom.headingSelector n); [done|]. apply IH.
  - destruct (Dom.tagIs ["p"] n), (Dom.tagIs ["ul"; "ol"] n);
      try destruct (Text.truthy (Dom.cleanText n)); simpl;
      first [ done | by apply sublist_app
            | apply sublist_inserts_r; first [done | by apply sublist_app] ].
  - destruct (Dom.tagIs ["p"] n), (Dom.tagIs ["ul"; "ol"] n);
      try destruct (Text.truthy (Dom.cleanText n)); simpl; unfold cleanTexts;
      first [ done | apply sublist_app; first [done | by apply sublist_inserts_r]
            | by apply sublist_inserts_r ].
Qed.

(** X22: a heading read as a question holds what [extractSections] reads
    for the same heading: the question is the heading of the section, and
    the lines of the answer are the paragraphs and the bullets of the
    section, each kind in its order, so an answer is there exactly when the
    section has a paragraph or a bullet. *)
Theorem heading_question_matches_section (h : Dom.node) siblings :
  let section := Dom.sectionOf (h, siblings) in
  let item := headingQuestion (h, siblings) in
  question item = heading section
  ∧ answer item = join newline (collectAnswer siblings [])
  ∧ collectAnswer siblings [] ≡ₚ paragraphs section ++ bullets section
  ∧ paragraphs section `sublist_of` collectAnswer siblings []
  ∧ bullets section `sublist_of` collectAnswer siblings []
  ∧ (answer item = "" ↔ paragraphs section = [] ∧ bullets section = []).
Proof.
  intros section item.
  assert (collectAnswer siblings [] ≡ₚ paragraphs section ++ bullets section) as Hperm
    by by apply collectAnswer_perm.
  destruct (collectAnswer_sublists siblings []
              {| heading := Dom.cleanText h; paragraphs := []; bullets := [] |})
    as [Hp Hb]; [done | done |].
  split_and!; [| done | done | done | done |].
  - unfold section, Dom.sectionOf. by rewrite collect_spec.
  - assert (Forall (λ text, text ≠ "") (collectAnswer siblings [])) as Hparts.
    { rewrite Hperm. unfold section. rewrite sectionOf_spec. simpl.
      apply Forall_app. split.
      - eapply Forall_impl; [apply cleanTexts_tidy|]. by intros text [? _].
      - unfold bulletsOf. apply Forall_forall. intros text Hin.
        apply list_elem_of_join in Hin as (items & Hin & Hitems).
        apply list_elem_of_fmap in Hitems as (n & -> & _).
        pose proof (cleanTexts_tidy (Dom.querySelectorAll ["li"] n)) as Hall.
        eapply Forall_forall in Hall as [? _]; [done | exact Hin]. }
    unfold item, headingQuestion. simpl.
    destruct (collectAnswer siblings []) as [|first rest] eqn:Hanswer.
    + apply Permutation_nil_l in Hperm. simpl.
      split; [intros _|done]. symmetry in Hperm. by apply app_eq_nil in Hperm.
    + split.
      * intros Hempty. apply Forall_cons in Hparts as [Hfirst _].
        simpl in Hempty. destruct rest; [done|]. by destruct first.
      * intros [Hnop Hnob]. rewrite Hnop, Hnob in Hperm.
        by apply Permutation_nil_r in Hperm.
Qed.

End QuestionsMore.

(** ** Selection and cache policy, applied again *)

Section AgainMore.

Implicit Types (tasks all : list MedicineTask.t) (disk : Disk) (store : OutputStore).

Lemma filter_fixed {A} (P : A → Prop) `{∀ x, Decision (P x)} (l : list A) :
  Forall P l → filter P l = l.
Proof.
  induction 1 as [|x l Hx _ IH]; [done|]. by rewrite filter_cons_True, IH.
Qed.

Lemma filter_holds {A} (P : A → Prop) `{∀ x, Decision (P x)} (l : list A) :
  Forall P (filter P l).
Proof. apply Forall_forall. by intros x [? _]%list_elem_of_filter. Qed.

(** X23: selecting again with the same slug and limit changes nothing, and
    the selection is a sublist of the tasks: order is kept and nothing is
    added. *)
Theorem selectTasks_again all targetSlug targetLimit :
  selectTasks (selectTasks all targetSlug targetLimit) targetSlug targetLimit
  = selectTasks all targetSlug targetLimit
  ∧ selectTasks all targetSlug targetLimit `sublist_of` all.
Proof.
  pose (pick := λ chosen : list MedicineTask.t,
          match targetSlug with
          | Some s =>
              if Text.truthy s
              then filter (λ item, MedicineTask.slug item = s) chosen
              else chosen
          | None => chosen
          end).
  pose (cut := λ chosen : list MedicineTask.t,
          if (0 <? targetLimit)%Z then take (Z.to_nat targetLimit) chosen else chosen).
  change (cut (pick (cut (pick all))) = cut (pick all) ∧ cut (pick all) `sublist_of` all).
  assert (∀ chosen, pick chosen `sublist_of` chosen) as Hpick.
  { intros chosen. unfold pick. destruct targetSlug as [s|]; [|reflexivity].
    destruct (Text.truthy s); [apply sublist_filter | reflexivity]. }
  assert (∀ chosen, cut chosen `sublist_of` chosen) as Hcut
    by (intros chosen; apply truncate_sublist).
  split; [|by etrans; [apply Hcut|]].
  assert (∀ chosen, chosen `sublist_of` pick all → pick chosen = chosen) as Hfixed.
  { intros chosen Hchosen. unfold pick in *.
    destruct targetSlug as [s|]; [|done]. destruct (Text.truthy s); [|done].
    apply filter_fixed, Forall_forall. intros item Hin.
    eapply elem_of_sublist in Hin; [|exact Hchosen].
    by apply list_elem_of_filter in Hin as [? _]. }
  rewrite Hfixed by apply Hcut.
  unfold cut. destruct (0 <? targetLimit)%Z; [|done]. rewrite take_take. f_equal. lia.
Qed.

(** X24: what [applyCachePolicy] keeps is kept when the policy is applied
    again to the same disk and index, with nothing more skipped; the kept
    tasks are a sublist of the given ones, none of them has an artifact on
    the disk unless the refresh is forced, and kept and skipped add up to
    the tasks given. *)
Theorem applyCachePolicy_again disk tasks store hardRefresh :
  let kept := (applyCachePolicy disk tasks store hardRefresh).1 in
  let skipped := (applyCachePolicy disk tasks store hardRefresh).2 in
  applyCachePolicy disk kept store hardRefresh = (kept, 0)
  ∧ kept `sublist_of` tasks
  ∧ length kept + skipped = length tasks
  ∧ (if hardRefresh then kept = tasks
     else Forall (λ task, ¬ hasArtifact disk store (MedicineTask.slug task)) kept).
Proof.
  unfold applyCachePolicy. destruct hardRefresh; simpl; [by split_and!|].
  rewrite !filterCached_spec. simpl.
  set (cached := getCachedSlugs disk (outputDir store) (metadata store)).
  assert (Forall (λ task, MedicineTask.slug task ∉ cached)
            (filter (λ task, MedicineTask.slug task ∉ cached) tasks)) as Hkept
    by apply filter_holds.
  assert (filter (λ task, MedicineTask.slug task ∈ cached)
            (filter (λ task, MedicineTask.slug task ∉ cached) tasks) = []) as Hnone.
  { induction Hkept as [|task kept Htask _ IH]; [done|].
    by rewrite filter_cons_False. }
  split_and!.
  - rewrite Hnone. f_equal. by apply filter_fixed.
  - apply sublist_filter.
  - clear. induction tasks as [|task rest IH]; [done|].
    rewrite !filter_cons. destruct (decide (MedicineTask.slug task ∈ cached)).
    + rewrite decide_False by tauto. simpl in *. lia.
    + rewrite decide_True by done. simpl in *. lia.
  - eapply Forall_impl; [exact Hkept|]. intros task Hnot Hhas.
    apply Hnot. by apply getCachedSlugs_spec.
Qed.

End AgainMore.

(** ** The browser manager *)

Section BrowserMore.

Import BrowserManager.

Implicit Types (m : BrowserManager.t) (calls : list call) (trace : list event).

Lemma count_app e trace trace' : count e (trace ++ trace') = count e trace + count e trace'.
Proof. unfold count. by rewrite List.filter_app, length_app. Qed.

Lemma performAll_cons m c calls :
  performAll m (c :: calls)
  = ((performAll (perform m c).1 calls).1,
     (perform m c).2 ++ (performAll (perform m c).1 calls).2).
Proof. done. Qed.

Lemma contexts_need_browser m calls before after :
  (performAll m calls).2 = before ++ NewContext :: after →
  count CloseBrowser before < count Launch before + tally (browser m).
Proof.
  revert m before. induction calls as [|c rest IH]; intros m before.
  - simpl. by destruct before.
  - rewrite performAll_cons. cbn [snd].
    destruct c; simpl; unfold getContext, close; destruct (browser m) eqn:Hm; simpl.
    + destruct before as [|e before]; [intros _; unfold count; simpl; lia|].
      intros [= <- Hrest]. apply IH in Hrest. rewrite Hm in Hrest.
      unfold count in *. simpl in *. lia.
    + destruct before as [|e [|e' before]];
        [done | intros [= <- _]; unfold count; simpl; lia |].
      intros [= <- <- Hrest]. apply IH in Hrest.
      unfold count in *. simpl in *. lia.
    + destruct before as [|e before]; [done|].
      intros [= <- Hrest]. apply IH in Hrest.
      unfold count in *. simpl in *. lia.
    + intros Hrest. apply IH in Hrest. by rewrite Hm in Hrest.
Qed.


End BrowserMore.

